(** * PirateUserSearcherCLI: the search pipeline of [PirateUserSearcherCLI.py]

    A shallow embedding of [get_tasks], [check_urls], [search], [sorter] and
    [printer], and the properties of the aggregate / deduplicate / verify /
    sort pipeline proved on it; and of [proxy_checker], as it runs in a
    fresh start and in an amendment, with what it guarantees of
    [PIRATE_URL].

    Python objects live in a store: the listing dictionaries decoded from a
    response are allocated once and the lists the program builds hold
    references to them, so that [item["added"] = int(item["added"])] and
    [item["code"] = codes[idx]] are updates in place, visible through every
    list that holds the object.

    The program runs in a monad of state and exceptions.  What the remote
    services, the user and the random generator answer is a parameter (a
    [World]), asked at the time of each call; the interactive loops of
    [sorter] and [printer], which go on for as long as the user wishes, are
    bounded by a fuel. *)

From stdpp Require Import gmap strings list fin_maps pretty sorting.
From Stdlib Require Import ZArith.
From Stdlib Require OrderedTypeEx.

Open Scope string_scope.
Open Scope list_scope.
Open Scope nat_scope.
Open Scope stdpp_scope.

(** ** Values, dictionaries and the store *)

(** The JSON scalars the program touches: [str] and [int].  Python's [==]
    between a [str] and an [int] is [False], as is Leibniz equality here. *)
Inductive pyval :=
| PStr (s : string)
| PInt (z : Z).

#[global] Instance pyval_eq_dec : EqDecision pyval.
Proof. solve_decision. Defined.

(** A listing is a Python [dict] with string keys. *)
Abbreviation dict := (gmap string pyval).

(** References are addresses in the store; objects are never freed. *)
Abbreviation ref := nat (only parsing).

(** [str(v)], as the f-strings [{item['id']}] format a value. *)
Definition py_str (v : pyval) : string :=
  match v with
  | PStr s => s
  | PInt z => pretty z
  end.

(** The line feed written [\n] in the source. *)
Definition LF : string := String (Ascii.ascii_of_nat 10) EmptyString.

(** What the program writes to the terminal.  Texts are kept as they are
    formatted; the two float/date renderings of [printer] are kept symbolic. *)
Inductive line :=
| Say (s : string)            (* print(s) *)
| SayFileSize (bytes : Z)     (* print(f"File size: {round(bytes / 1073741824, 2)} GB") *)
| SayUploaded (added : Z)     (* print(f"Uploaded: {datetime.fromtimestamp(added)}") *)
| Ask (prompt : string).      (* the prompt written by input(prompt) *)

Inductive exn :=
| KeyError (key : string)
| ValueError
| TypeError
| IndexError
| AttributeError
| OverflowError
| OSError
| RequestError      (* requests.get / response.json() raised *)
| ClientError       (* an aiohttp request of the batch raised *)
| BadRef.           (* a reference outside the store: never built by the program *)

(** Outcome of running a piece of the program: a value, a raised exception,
    or [Fuel] when the interactive loops were cut short by the model. *)
Inductive res (A : Type) :=
| Ok (a : A)
| Raise (e : exn)
| Fuel.
Arguments Ok {A} a.
Arguments Raise {A} e.
Arguments Fuel {A}.

(** Everything outside the program.  Each remote call, batch of probes,
    line of input and shuffle happens at a time (the [clock] of the state
    when it is made), and may answer differently at different times. *)
Record World := mkWorld {
  (** [requests.get("https://apibay.org/q.php", params={"q": term}).json()]:
      the decoded array of listing objects, or [None] when either call raises. *)
  q_php : nat → string → option (list dict);
  (** [session.get(url)] for request number [idx] of the batch issued at time
      [t]: the response status, or [None] when the request raises. *)
  torrent_page : nat → nat → string → option Z;
  (** Which of the still pending requests of the batch issued at time [t]
      completes at step [k] (taken modulo the number of pending requests). *)
  arrival : nat → nat → nat;
  (** [requests.get(url).json()] for the description endpoint. *)
  t_php : nat → string → option dict;
  (** The line [input()] returns at time [t]: the user always answers (the
      end of the input, on which [input] raises [EOFError], is left out). *)
  stdin : nat → string;
  (** The order [random.shuffle] leaves a list in at time [t]. *)
  shuffled : nat → list ref → list ref;
  (** [int(s)] for a [str]: [None] is [ValueError]. *)
  int_of_str : string → option Z;
  (** [s.splitlines()]. *)
  splitlines : string → list string;
  (** [datetime.fromtimestamp(n)] for an [int]: [None] when it returns a
      date, [Some e] when it raises ([OverflowError], [OSError] or
      [ValueError], for a timestamp outside the range of the platform). *)
  fromtimestamp : Z → option exn
}.

(** The state the program runs in: the store of dictionaries, the clock of
    the outside world, the terminal output so far (oldest first), and the
    module global [PIRATE_URL]. *)
Record State := mkState {
  heap : list dict;
  clock : nat;
  out : list line;
  PIRATE_URL : string
}.

Definition set_heap (h : list dict) (s : State) : State :=
  mkState h (clock s) (out s) (PIRATE_URL s).
Definition tick (s : State) : State :=
  mkState (heap s) (S (clock s)) (out s) (PIRATE_URL s).
Definition emit (l : line) (s : State) : State :=
  mkState (heap s) (clock s) (out s ++ [l]) (PIRATE_URL s).

(** ** The state and exception monad *)

Definition M (A : Type) : Type := State → res A * State.

Definition ret {A} (a : A) : M A := fun s => (Ok a, s).
Definition raise {A} (e : exn) : M A := fun s => (Raise e, s).
Definition bind {A B} (m : M A) (k : A → M B) : M B := fun s =>
  match m s with
  | (Ok a, s') => k a s'
  | (Raise e, s') => (Raise e, s')
  | (Fuel, s') => (Fuel, s')
  end.

(** [try: body except: handler] with a bare [except]: every exception is
    caught, and the handler runs in the state the body left behind. *)
Definition try_except {A} (body : M A) (handler : M A) : M A := fun s =>
  match body s with
  | (Raise _, s') => handler s'
  | r => r
  end.

Declare Scope py_scope.
Delimit Scope py_scope with py.
Notation "x <- c ;; k" := (bind c (fun x => k))
  (at level 100, c at next level, right associativity) : py_scope.
Notation "c ;;; k" := (bind c (fun _ => k))
  (at level 100, right associativity) : py_scope.
Open Scope py_scope.

Definition print (txt : string) : M unit := fun s => (Ok tt, emit (Say txt) s).
Definition say (l : line) : M unit := fun s => (Ok tt, emit l s).

(** [item[key]] *)
Definition getitem (item : ref) (key : string) : M pyval := fun s =>
  match heap s !! item with
  | Some d =>
      match d !! key with
      | Some v => (Ok v, s)
      | None => (Raise (KeyError key), s)
      end
  | None => (Raise BadRef, s)
  end.

(** [item[key] = v] *)
Definition setitem (item : ref) (key : string) (v : pyval) : M unit := fun s =>
  match heap s !! item with
  | Some d => (Ok tt, set_heap (<[item := <[key := v]> d]> (heap s)) s)
  | None => (Raise BadRef, s)
  end.

(** The dictionary a reference denotes. *)
Definition deref (item : ref) : M dict := fun s =>
  match heap s !! item with
  | Some d => (Ok d, s)
  | None => (Raise BadRef, s)
  end.

(** [for idx, x in enumerate(xs): body(idx, x)], counting from [idx]. *)
Fixpoint for_enumerate {A} (idx : nat) (xs : list A) (body : nat → A → M unit) : M unit :=
  match xs with
  | [] => ret tt
  | x :: xs' => body idx x ;;; for_enumerate (S idx) xs' body
  end.

(** [for x in xs: body(x)] *)
Fixpoint for_each {A} (xs : list A) (body : A → M unit) : M unit :=
  match xs with
  | [] => ret tt
  | x :: xs' => body x ;;; for_each xs' body
  end.

(** [[f(x) for x in xs]] *)
Fixpoint comprehension {A B} (f : A → M B) (xs : list A) : M (list B) :=
  match xs with
  | [] => ret []
  | x :: xs' => y <- f x ;; ys <- comprehension f xs' ;; ret (y :: ys)
  end.

(** [[x for x in xs if p(x)]] *)
Fixpoint comprehension_if {A} (p : A → M bool) (xs : list A) : M (list A) :=
  match xs with
  | [] => ret []
  | x :: xs' =>
      b <- p x ;; ys <- comprehension_if p xs' ;;
      ret (if b : bool then x :: ys else ys)
  end.

(** ** [search], lines 115-136: querying and accumulating *)

(** [response = requests.get("https://apibay.org/q.php", params=params)] and
    [data = response.json()]: the decoded objects are new in the store. *)
Definition search_request (W : World) (term : string) : M (list ref) := fun s =>
  match q_php W (clock s) term with
  | Some data =>
      (Ok (seq (length (heap s)) (length data)),
       tick (set_heap (heap s ++ data) s))
  | None => (Raise RequestError, tick s)
  end.

(** [item["username"] == user] *)
Definition username_is (user : string) (item : ref) : M bool :=
  u <- getitem item "username" ;; ret (bool_decide (u = PStr user)).

(** [for user in usernames: filtered_data = [...]; combined_data_list.append(filtered_data)] *)
Fixpoint for_users (usernames : list string) (data : list ref)
    (combined_data_list : list (list ref)) : M (list (list ref)) :=
  match usernames with
  | [] => ret combined_data_list
  | user :: rest =>
      filtered_data <- comprehension_if (username_is user) data ;;
      for_users rest data (combined_data_list ++ [filtered_data])
  end.

(** [for term in search_terms: ...] *)
Fixpoint for_terms (W : World) (search_terms usernames : list string)
    (combined_data_list : list (list ref)) : M (list (list ref)) :=
  match search_terms with
  | [] => ret combined_data_list
  | term :: rest =>
      data <- search_request W term ;;
      combined_data_list <- for_users usernames data combined_data_list ;;
      for_terms W rest usernames combined_data_list
  end.

(** [int(v)] *)
Definition py_int (W : World) (v : pyval) : M pyval :=
  match v with
  | PInt z => ret (PInt z)
  | PStr s =>
      match int_of_str W s with
      | Some z => ret (PInt z)
      | None => raise ValueError
      end
  end.

(** [item[key] = int(item[key])] *)
Definition to_int (W : World) (key : string) (item : ref) : M unit :=
  v <- getitem item key ;; n <- py_int W v ;; setitem item key n.

(** The body of the loop of lines 133-136. *)
Definition convert (W : World) (item : ref) : M unit :=
  to_int W "added" item ;;; to_int W "seeders" item ;;; to_int W "size" item.

(** Lines 115-136: the accumulated list [dict_list], its numeric fields
    converted. *)
Definition query_aggregator (W : World) (usernames search_terms : list string)
    : M (list ref) :=
  combined_data_list <- for_terms W search_terms usernames [] ;;
  let non_empty_data := filter (λ x, x ≠ []) combined_data_list in
  let dict_list := concat non_empty_data in
  for_each dict_list (convert W) ;;;
  ret dict_list.

(** ** [search], lines 138-140: removing duplicates *)

(** [item in unique_list]: identity first, then [==] on the dictionaries. *)
Fixpoint py_in (item : ref) (unique_list : list ref) : M bool :=
  match unique_list with
  | [] => ret false
  | e :: rest =>
      if decide (e = item) then ret true
      else
        de <- deref e ;; di <- deref item ;;
        if decide (de = di) then ret true else py_in item rest
  end.

(** [[unique_list.append(item) for item in dict_list if item not in unique_list]] *)
Fixpoint deduplicator (dict_list unique_list : list ref) : M (list ref) :=
  match dict_list with
  | [] => ret unique_list
  | item :: rest =>
      seen <- py_in item unique_list ;;
      deduplicator rest (if seen : bool then unique_list else unique_list ++ [item])
  end.

(** ** [get_tasks] and [check_urls] *)

(** The f-string of line 78. *)
Definition task_url (site : string) (id : pyval) : string :=
  site +:+ "/torrent/" +:+ py_str id +:+ LF.

Definition get_tasks (item_list : list ref) : M (list string) :=
  comprehension
    (λ item, id <- getitem item "id" ;;
             (λ s, (Ok (task_url (PIRATE_URL s) id), s)))
    item_list.

(** [asyncio.gather] over the tasks: the requests are all in flight; they
    complete one at a time in the order the world picks, each result is
    stored in the slot of its own task, and the first request that raises
    makes the whole gather raise. *)
Fixpoint complete (request : nat → string → option Z) (pick : nat → nat)
    (step n : nat) (pending : list (nat * string)) (slots : list (option Z))
    : option (list (option Z)) :=
  match n with
  | 0 => Some slots
  | S n' =>
      let k := pick step `mod` length pending in
      match pending !! k with
      | None => Some slots
      | Some (idx, url) =>
          match request idx url with
          | None => None
          | Some status =>
              complete request pick (S step) n' (delete k pending)
                       (<[idx := Some status]> slots)
          end
      end
  end.

(** [responses = await asyncio.gather(...)] and
    [codes = [response.status for response in responses]]. *)
Definition gather (W : World) (tasks : list string) : M (list Z) := fun s =>
  let t := clock s in
  let n := length tasks in
  match complete (torrent_page W t) (arrival W t) 0 n
                 (zip (seq 0 n) tasks) (replicate n None) with
  | None => (Raise ClientError, tick s)
  | Some slots =>
      match mapM id slots with
      | Some codes => (Ok codes, tick s)
      | None => (Fuel, tick s)   (* a request never completed: see [gather_batch] *)
      end
  end.

Definition check_urls (W : World) (item_list : list ref) : M (list ref) :=
  tasks <- get_tasks item_list ;;
  codes <- gather W tasks ;;
  for_enumerate 0 item_list
    (λ idx item,
       match codes !! idx with
       | Some status => setitem item "code" (PInt status)
       | None => raise IndexError
       end) ;;;
  ret item_list.

(** ** [sorter] and [printer] *)

(** [a < b] on keys: integers by value, strings by code units, and
    [TypeError] ([None]) between a [str] and an [int]. *)
Definition py_lt (a b : pyval) : option bool :=
  match a, b with
  | PInt x, PInt y => Some (bool_decide (x < y)%Z)
  | PStr x, PStr y => Some (String.ltb x y)
  | _, _ => None
  end.

(** The stable ascending sort behind [sorted], on the list decorated with
    its keys: an element goes before the first one that is not smaller than
    it, so it stays before the equal elements that followed it. *)
Fixpoint insert_sorted (x : pyval * ref) (l : list (pyval * ref))
    : option (list (pyval * ref)) :=
  match l with
  | [] => Some [x]
  | y :: l' =>
      match py_lt y.1 x.1 with
      | None => None
      | Some true => cons y <$> insert_sorted x l'
      | Some false => Some (x :: y :: l')
      end
  end.

Fixpoint stable_sort (l : list (pyval * ref)) : option (list (pyval * ref)) :=
  match l with
  | [] => Some []
  | x :: l' => stable_sort l' ≫= insert_sorted x
  end.

(** [sorted(item_list, key=lambda x: x[key], reverse=reversed)]: the keys are
    computed first, in order; with [reverse=True] the list is reversed,
    sorted ascending and reversed again, which keeps equal elements in their
    original order. *)
Definition py_sorted (key : string) (reversed : bool) (item_list : list ref)
    : M (list ref) :=
  keys <- comprehension (λ item, getitem item key) item_list ;;
  let decorated := zip keys item_list in
  match (if reversed then reverse <$> stable_sort (reverse decorated)
         else stable_sort decorated) with
  | Some sorted => ret (sorted.*2)
  | None => raise TypeError
  end.

(** [input(prompt)] *)
Definition input (W : World) (prompt : string) : M string := fun s =>
  (Ok (stdin W (clock s)), tick (emit (Ask prompt) s)).

(** [str.lower] on the ASCII letters; the program only compares the result
    with one-letter ASCII strings. *)
Definition lower_ascii (c : Ascii.ascii) : Ascii.ascii :=
  let n := Ascii.nat_of_ascii c in
  if (65 <=? n) && (n <=? 90) then Ascii.ascii_of_nat (n + 32) else c.

Fixpoint lower (s : string) : string :=
  match s with
  | EmptyString => EmptyString
  | String c s' => String (lower_ascii c) (lower s')
  end.

(** [needle in line] for strings. *)
Definition py_contains (needle line : string) : bool :=
  match String.index 0 needle line with
  | Some _ => true
  | None => false
  end.

Definition MAX_RESULTS_WITH_LINKS : nat := 100.

Definition sort_menu : string :=
  "By newest: (n)" +:+ LF +:+ "By oldest: (o)" +:+ LF +:+
  "By most seeded: (s)" +:+ LF +:+ "By largest file: (l)" +:+ LF +:+
  "By smallest file: (m)" +:+ LF +:+ "By random: (r)" +:+ LF.

Definition notice : string :=
  LF +:+ "NOTICE:" +:+ LF +:+
  "The first 100 results include relevant URLs from the torrent's page (e.g., screenshots)." +:+ LF +:+
  "This is limited to the first 100 results." +:+ LF +:+
  "To save time; the relevant URLs have not been checked." +:+ LF +:+
  "Enjoy the results and scroll down for re-sorting and saving options." +:+ LF.

(** An integer field used in arithmetic or as a timestamp. *)
Definition as_int (v : pyval) : M Z :=
  match v with
  | PInt z => ret z
  | PStr _ => raise TypeError
  end.

(** [info = requests.get(url)] and [info_data = info.json()]. *)
Definition description_request (W : World) (url : string) : M dict := fun s =>
  match t_php W (clock s) url with
  | Some info_data => (Ok info_data, tick s)
  | None => (Raise RequestError, tick s)
  end.

(** [size / 1073741824] for an [int]: the quotient is rounded to the
    nearest float, and [OverflowError] is raised when that is beyond the
    largest one, which for this divisor (2^30) is from 2^1054 - 2^1000 on. *)
Definition true_divide_overflows (size : Z) : bool :=
  bool_decide (2 ^ 1054 - 2 ^ 1000 ≤ Z.abs size)%Z.

(** The body of the loop of [printer], lines 238-248: the lines printed for
    every record. *)
Definition show_header (W : World) (item : ref) : M unit :=
  name <- getitem item "name" ;; print (py_str name) ;;;
  username <- getitem item "username" ;;
  print ("Uploaded by: " +:+ py_str username) ;;;
  status <- getitem item "status" ;;
  print ("User status: " +:+ py_str status) ;;;
  size <- getitem item "size" ;; size <- as_int size ;;
  (if true_divide_overflows size then raise OverflowError else ret tt) ;;;
  say (SayFileSize size) ;;;
  added <- getitem item "added" ;; added <- as_int added ;;
  match fromtimestamp W added with
  | Some e => raise e
  | None => say (SayUploaded added)
  end ;;;
  seeders <- getitem item "seeders" ;;
  print ("Number of seeders: " +:+ py_str seeders) ;;;
  info_hash <- getitem item "info_hash" ;;
  print ("Hash: " +:+ py_str info_hash) ;;;
  id <- getitem item "id" ;;
  (λ s, print ("Site URL: " +:+ PIRATE_URL s +:+ "/torrent/" +:+ py_str id +:+ LF) s).

Definition description_url (id : pyval) : string :=
  "https://apibay.org/t.php?id=" +:+ py_str id.

(** Lines 252-259: the relevant links of a record. *)
Definition show_links (W : World) (item : ref) : M unit :=
  id <- getitem item "id" ;;
  info_data <- description_request W (description_url id) ;;
  description <-
    match info_data !! "descr" with
    | Some v => ret v
    | None => raise (KeyError "descr")
    end ;;
  print "Relevant links:" ;;;
  match description with
  | PStr text =>
      for_each (splitlines W text)
        (λ line, if py_contains "http" line then print line else ret tt)
  | PInt _ => raise AttributeError
  end ;;;
  print "".

(** The body of the loop of [printer], lines 238-259. *)
Definition show (W : World) (idx : nat) (item : ref) : M unit :=
  show_header W item ;;;
  if decide (idx < MAX_RESULTS_WITH_LINKS) then show_links W item else ret tt.

(** [save()] belongs to the CSV collaborator; here it returns at once. *)
Definition save : M unit := ret tt.

Definition out_of_fuel {A} : M A := fun s => (Fuel, s).

(** The input loop of [sorter] (lines 184-219), [printer], and the re-sort
    loop of [printer] (lines 262-274).  They call one another for as long as
    the user keeps answering; [fuel] bounds the number of such steps. *)
Fixpoint sorter_loop (W : World) (fuel : nat) (item_list : list ref)
    {struct fuel} : M unit :=
  match fuel with
  | 0 => out_of_fuel
  | S fuel' =>
      choice <- input W sort_menu ;;
      let choice := lower choice in
      if decide (choice = "n") then
        sorted_list <- py_sorted "added" true item_list ;;
        printer W fuel' sorted_list
      else if decide (choice = "o") then
        sorted_list <- py_sorted "added" false item_list ;;
        printer W fuel' sorted_list
      else if decide (choice = "s") then
        sorted_list <- py_sorted "seeders" true item_list ;;
        printer W fuel' sorted_list
      else if decide (choice = "l") then
        sorted_list <- py_sorted "size" true item_list ;;
        printer W fuel' sorted_list
      else if decide (choice = "m") then
        sorted_list <- py_sorted "size" false item_list ;;
        printer W fuel' sorted_list
      else if decide (choice = "r") then
        (λ s, printer W fuel' (shuffled W (clock s) item_list) (tick s))
      else
        print ("Please input a valid option." +:+ LF) ;;;
        sorter_loop W fuel' item_list
  end
with printer (W : World) (fuel : nat) (results : list ref)
    {struct fuel} : M unit :=
  match fuel with
  | 0 => out_of_fuel
  | S fuel' =>
      print notice ;;;
      for_enumerate 0 results (show W) ;;;
      resort_loop W fuel' results
  end
with resort_loop (W : World) (fuel : nat) (results : list ref)
    {struct fuel} : M unit :=
  match fuel with
  | 0 => out_of_fuel
  | S fuel' =>
      re_sort <- input W "Would you like to sort the results differently? (y/n): " ;;
      let re_sort := lower re_sort in
      if decide (re_sort = "y") then
        print (String.concat "" (replicate 100 LF)) ;;;
        print ("How would you like to sort the results?:" +:+ LF) ;;;
        sorter_loop W fuel' results
      else if decide (re_sort = "n") then
        print ("Ok, let's close down or save the data..." +:+ LF) ;;;
        save
      else
        print ("Please input a valid option." +:+ LF) ;;;
        resort_loop W fuel' results
  end.

Definition sorter (W : World) (fuel : nat) (item_list : list ref) : M unit :=
  print ("How would you like to sort the results?:" +:+ LF) ;;;
  sorter_loop W fuel item_list.

(** ** [search], lines 145-173: the liveness check and its retries *)

(** [item["code"] != 404] *)
Definition not_404 (item : ref) : M bool :=
  code <- getitem item "code" ;; ret (bool_decide (code ≠ PInt 404)).

(** The body of the [try], lines 149-156.  (The event-loop policy set on
    Windows has no effect on the state.) *)
Definition attempt (W : World) (fuel : nat) (unique_list : list ref) : M unit :=
  unique_list <- check_urls W unique_list ;;
  working_list <- comprehension_if not_404 unique_list ;;
  print ("Found " +:+ pretty (length working_list) +:+ " working results." +:+ LF) ;;;
  sorter W fuel working_list.

Definition could_not_filter : string :=
  "Could not filter dead URLs." +:+ LF +:+ "Commencing search with all URLS.".

Definition try_again : string :=
  "The server disconnected. Let's try again." +:+ LF +:+ LF +:+
  "If the problem persists more than 3 times the search " +:+
  "will commence with non-filtered URLs:" +:+ LF +:+ LF +:+
  "In future if you would like filtered results I recommend:" +:+ LF +:+ LF +:+
  "- Disconnect or change your VPN location." +:+ LF +:+
  "- OR: Reduce the inputted search terms." +:+ LF +:+
  LF +:+ "Searching now..." +:+ LF.

(** The [while True] of lines 146-173.  [counter] is the program's variable;
    [rounds] only makes the recursion structural: the loop is entered again
    only while [counter <= 3], so three further rounds always suffice. *)
Fixpoint liveness_checker (W : World) (fuel rounds counter : nat)
    (unique_list : list ref) : M unit :=
  try_except (attempt W fuel unique_list)
    (let counter := counter + 1 in
     if decide (3 < counter) then
       print could_not_filter ;;;
       sorter W fuel unique_list
     else
       print ("Attempt: " +:+ pretty counter +:+ "/3") ;;;
       print try_again ;;;
       match rounds with
       | 0 => out_of_fuel
       | S rounds' => liveness_checker W fuel rounds' counter unique_list
       end).

(** ** [search] *)

Definition search (W : World) (fuel : nat) (usernames search_terms : list string)
    : M unit :=
  print (LF +:+ "Searching...please wait a moment." +:+ LF) ;;;
  (if decide (50 < length search_terms)
   then print ("This may take a moment if using many search terms." +:+ LF)
   else ret tt) ;;;
  dict_list <- query_aggregator W usernames search_terms ;;
  unique_list <- deduplicator dict_list [] ;;
  print ("Found " +:+ pretty (length unique_list) +:+ " potential results." +:+ LF) ;;;
  print ("Checking for and removing dead URLs..." +:+ LF) ;;;
  liveness_checker W fuel 3 0 unique_list.

(** ** Vocabulary of the statements *)

(** Following the spec's words for the Deduplicator ("a list preserving
    first-seen order with exact structural duplicates removed"): the first
    element is kept, its later copies are removed, and so on. *)
Fixpoint first_seen {A} `{EqDecision A} (l : list A) : list A :=
  match l with
  | [] => []
  | x :: l' => x :: filter (λ y, y ≠ x) (first_seen l')
  end.

(** The references of [l] denote, in order, the dictionaries [ds]. *)
Definition points_to (s : State) (l : list ref) (ds : list dict) : Prop :=
  Forall2 (λ r d, heap s !! r = Some d) l ds.

(** The value of field [key] of the object at [r], if both exist. *)
Definition field (s : State) (key : string) (r : ref) : option pyval :=
  heap s !! r ≫= (λ d : dict, d !! key).

(** The outcome of a batch of probes issued at time [t], task by task:
    the statuses in task order when every request returns one. *)
Definition batch (W : World) (t : nat) (tasks : list string) : option (list Z) :=
  mapM (λ p : nat * string, torrent_page W t p.1 p.2)
       (zip (seq 0 (length tasks)) tasks).

(** [modifies keys s s']: from [s] to [s'] no object was allocated, nothing
    was printed, no time passed, and dictionaries changed at [keys] only. *)
Definition modifies (keys : list string) (s s' : State) : Prop :=
  clock s' = clock s ∧ out s' = out s ∧ PIRATE_URL s' = PIRATE_URL s ∧
  Forall2 (λ d d' : dict, ∀ k, k ∉ keys → d' !! k = d !! k) (heap s) (heap s').

(** The fields converted by lines 133-136. *)
Definition numeric_keys : list string := ["added"; "seeders"; "size"].

(** Field [key] of the object at [r] is an [int]. *)
Definition int_field (s : State) (key : string) (r : ref) : Prop :=
  ∃ z, field s key r = Some (PInt z).

(** The invariant of the data model after conversion. *)
Definition numeric (s : State) (r : ref) : Prop :=
  int_field s "added" r ∧ int_field s "seeders" r ∧ int_field s "size" r.

(** The first exception met when reading [key] of each object of [l]. *)
Fixpoint first_error (s : State) (key : string) (l : list ref) : option exn :=
  match l with
  | [] => None
  | r :: l' =>
      match heap s !! r with
      | None => Some BadRef
      | Some d =>
          match d !! key with
          | None => Some (KeyError key)
          | Some _ => first_error s key l'
          end
      end
  end.

(** Two runs end in the same state, with the same exception or with lists
    that have the same first occurrences. *)
Definition same_first_seen_run {A} `{EqDecision A}
    (r r' : res (list (list A)) * State) : Prop :=
  r.2 = r'.2 ∧
  match r.1, r'.1 with
  | Ok c, Ok c' => first_seen (concat c) = first_seen (concat c')
  | Raise e, Raise e' => e = e'
  | _, _ => False
  end.

(** The arrays decoded for the terms, queried one after the other from
    time [t] on. *)
Fixpoint responses (W : World) (t : nat) (search_terms : list string)
    : option (list (list dict)) :=
  match search_terms with
  | [] => Some []
  | term :: rest =>
      data ← q_php W t term;
      datas ← responses W (S t) rest;
      Some (data :: datas)
  end.

(** Where the objects of these arrays are allocated: one block of
    consecutive addresses per term, in response order. *)
Fixpoint blocks (base : nat) (datas : list (list dict)) : list (list ref) :=
  match datas with
  | [] => []
  | data :: rest => seq base (length data) :: blocks (base + length data) rest
  end.

(** The records of a block kept for the identities, identity by identity. *)
Definition kept (s : State) (usernames : list string) (block : list ref)
    : list (list ref) :=
  map (λ user, filter (λ r, field s "username" r = Some (PStr user)) block) usernames.

(** Following the words of the claim on the accumulated order: term order,
    and within a term the order of the response. *)
Definition response_order (s : State) (usernames : list string)
    (bs : list (list ref)) : list ref :=
  concat (map (filter (λ r, Exists (λ user, field s "username" r = Some (PStr user))
                                   usernames)) bs).

(** Lines 111-140 of [search]: everything before the liveness check. *)
Definition pre_verification (W : World) (usernames search_terms : list string)
    : M (list ref) :=
  print (LF +:+ "Searching...please wait a moment." +:+ LF) ;;;
  (if decide (50 < length search_terms)
   then print ("This may take a moment if using many search terms." +:+ LF)
   else ret tt) ;;;
  dict_list <- query_aggregator W usernames search_terms ;;
  deduplicator dict_list [].

(** Lines 142-144: the two messages before the liveness check. *)
Definition announced (unique_list : list ref) (s : State) : State :=
  emit (Say ("Checking for and removing dead URLs..." +:+ LF))
    (emit (Say ("Found " +:+ pretty (length unique_list) +:+ " potential results." +:+ LF)) s).

(** Line 154. *)
Definition found_working (working_list : list ref) : line :=
  Say ("Found " +:+ pretty (length working_list) +:+ " working results." +:+ LF).

(** The state after a failed attempt that is followed by another one: the
    batch took its time, and lines 166-173 printed their two messages. *)
Definition attempt_failed (counter : nat) (s : State) : State :=
  emit (Say try_again) (emit (Say ("Attempt: " +:+ pretty counter +:+ "/3")) (tick s)).

(** What the terminal shows from the end of the accumulation to the
    fallback. *)
Definition fallback_messages (unique_list : list ref) : list line :=
  [Say ("Found " +:+ pretty (length unique_list) +:+ " potential results." +:+ LF);
   Say ("Checking for and removing dead URLs..." +:+ LF);
   Say "Attempt: 1/3"; Say try_again;
   Say "Attempt: 2/3"; Say try_again;
   Say "Attempt: 3/3"; Say try_again;
   Say could_not_filter].

#[global] Instance line_eq_dec : EqDecision line.
Proof. solve_decision. Defined.

(** What [search] prints before its first request. *)
Definition banner (search_terms : list string) : list line :=
  Say (LF +:+ "Searching...please wait a moment." +:+ LF) ::
  (if decide (50 < length search_terms)
   then [Say ("This may take a moment if using many search terms." +:+ LF)]
   else []).

(** The key and direction of each of the five orderings of [sorter]. *)
Definition ordering (choice : string) : option (string * bool) :=
  if decide (choice = "n") then Some ("added", true)
  else if decide (choice = "o") then Some ("added", false)
  else if decide (choice = "s") then Some ("seeders", true)
  else if decide (choice = "l") then Some ("size", true)
  else if decide (choice = "m") then Some ("size", false)
  else None.

(** [a < b] where it is defined. *)
Definition py_ltb (a b : pyval) : bool := default false (py_lt a b).

(** Both keys are [int], or both are [str]. *)
Definition same_kind (a b : pyval) : Prop :=
  match a, b with
  | PInt _, PInt _ | PStr _, PStr _ => True
  | _, _ => False
  end.

(** [insert_sorted] and [stable_sort] with [py_ltb]: what they compute on
    keys of one kind. *)
Fixpoint insert_total (x : pyval * nat) (l : list (pyval * nat)) : list (pyval * nat) :=
  match l with
  | [] => [x]
  | y :: l' => if py_ltb y.1 x.1 then y :: insert_total x l' else x :: y :: l'
  end.

Fixpoint sort_total (l : list (pyval * nat)) : list (pyval * nat) :=
  match l with
  | [] => []
  | x :: l' => insert_total x (sort_total l')
  end.

(** All the keys are of one kind. *)
Definition one_kind (l : list (pyval * nat)) : Prop :=
  ∀ x y, x ∈ l → y ∈ l → same_kind x.1 y.1.

(** The number of occurrences of [x] in [l]. *)
Definition occurrences {A} `{EqDecision A} (x : A) (l : list A) : nat :=
  length (filter (λ y, y = x) l).

(** ** Concrete worlds for the examples *)

Definition listing (id name username size added seeders : string) : dict :=
  list_to_map
    [("id", PStr id); ("name", PStr name); ("username", PStr username);
     ("status", PStr "vip"); ("size", PStr size); ("added", PStr added);
     ("seeders", PStr seeders); ("info_hash", PStr "0123ABCD")].

(** [int] on strings of ASCII digits. *)
Fixpoint decimal_from (acc : Z) (s : string) : option Z :=
  match s with
  | EmptyString => Some acc
  | String c s' =>
      let n := Ascii.nat_of_ascii c in
      if (48 <=? n) && (n <=? 57)
      then decimal_from (10 * acc + Z.of_nat (n - 48)) s'
      else None
  end.

Definition decimal (s : string) : option Z :=
  match s with
  | EmptyString => None
  | _ => decimal_from 0 s
  end.

Definition bob_then_alice : list dict :=
  [listing "11" "ubuntu" "Bob" "700" "10" "5";
   listing "12" "debian" "Alice" "650" "20" "9"].

(** Every search answers [bob_then_alice]; every probe returns 200; the
    description of every torrent has one link; the user sorts by newest and
    then declines to sort again. *)
Definition demo : World := {|
  q_php := λ _ _, Some bob_then_alice;
  torrent_page := λ _ _ _, Some 200%Z;
  arrival := λ _ _, 0;
  t_php := λ _ _, Some {["descr" := PStr "http://example.org/shot.png"]};
  stdin := λ _, "n";
  shuffled := λ _ l, l;
  int_of_str := decimal;
  splitlines := λ text, [text];
  fromtimestamp := λ _, None
|}.

Definition start : State := mkState [] 0 [] "https://tpb.example".

(** Three records in the store, and a world whose probes answer 404, 200
    and 500 in task order, completing last task first. *)
Definition three_records : State :=
  mkState [listing "1" "a" "Alice" "10" "100" "1";
           listing "2" "b" "Alice" "20" "200" "2";
           listing "3" "c" "Alice" "30" "300" "3"] 7 [] "https://tpb.example".

Definition mixed_statuses : World := {|
  q_php := q_php demo;
  torrent_page := λ _ idx _,
    Some (match idx with 0 => 404%Z | 1 => 200%Z | _ => 500%Z end);
  arrival := λ _ _, 2;
  t_php := t_php demo;
  stdin := stdin demo;
  shuffled := shuffled demo;
  int_of_str := decimal;
  splitlines := splitlines demo;
  fromtimestamp := fromtimestamp demo
|}.

(** A world in which every probe raises. *)
Definition unreachable : World := {|
  q_php := q_php demo;
  torrent_page := λ _ _ _, None;
  arrival := arrival demo;
  t_php := t_php demo;
  stdin := stdin demo;
  shuffled := shuffled demo;
  int_of_str := decimal;
  splitlines := splitlines demo;
  fromtimestamp := fromtimestamp demo
|}.

(** Three objects, the second a copy of the first. *)
Definition with_copy : State :=
  mkState [listing "1" "a" "Alice" "10" "100" "1";
           listing "1" "a" "Alice" "10" "100" "1";
           listing "2" "b" "Alice" "20" "200" "2"] 0 [] "https://tpb.example".

(** The world of [demo], except that every search for [linux] raises. *)
Definition first_term_fails : World := {|
  q_php := λ _ term, if decide (term = "linux") then None else Some bob_then_alice;
  torrent_page := torrent_page demo;
  arrival := arrival demo;
  t_php := t_php demo;
  stdin := stdin demo;
  shuffled := shuffled demo;
  int_of_str := decimal;
  splitlines := splitlines demo;
  fromtimestamp := fromtimestamp demo
|}.

Definition two_alice : list dict :=
  [listing "21" "debian" "Alice" "650" "20" "9";
   listing "22" "fedora" "Alice" "700" "30" "4"].

(** The world of [demo], with two records by Alice and a description
    endpoint that always fails. *)
Definition no_descriptions : World := {|
  q_php := λ _ _, Some two_alice;
  torrent_page := torrent_page demo;
  arrival := arrival demo;
  t_php := λ _ _, None;
  stdin := stdin demo;
  shuffled := shuffled demo;
  int_of_str := decimal;
  splitlines := splitlines demo;
  fromtimestamp := fromtimestamp demo
|}.

(** ** Vocabulary of the further properties *)

(** What lines 166-173 print for [k] failed attempts in a row, the first of
    them numbered [first]. *)
Definition retry_messages (first k : nat) : list line :=
  flat_map (λ i, [Say ("Attempt: " +:+ pretty i +:+ "/3"); Say try_again]) (seq first k).

(** The integer [int(v)] denotes: [None] is [ValueError]. *)
Definition int_value (W : World) (v : pyval) : option Z :=
  match v with
  | PInt z => Some z
  | PStr x => int_of_str W x
  end.

(** From [s0] to [s] every field either kept its value or was replaced by
    the [int] of the value it had in [s0]. *)
Definition converted (W : World) (s0 s : State) : Prop :=
  ∀ r key,
    field s key r = field s0 key r ∨
    ∃ v z, field s0 key r = Some v ∧ int_value W v = Some z ∧
           field s key r = Some (PInt z).

(** [x] may stand before [y] in ascending order: the key of [y] is not
    smaller than the key of [x]. *)
Definition key_le (x y : pyval * nat) : Prop := py_ltb y.1 x.1 = false.

(** [m] leaves the store and [PIRATE_URL] as they are, whatever its outcome. *)
Definition keeps_store {A} (m : M A) : Prop :=
  ∀ s r s', m s = (r, s') →
    heap s' = heap s ∧ PIRATE_URL s' = PIRATE_URL s ∧ clock s ≤ clock s'.

(** [m], when it returns, has called the outside world [n] times. *)
Definition ticks {A} (n : nat) (m : M A) : Prop :=
  ∀ s a s', m s = (Ok a, s') → clock s' = clock s + n.

(** ** What [session.get] requests *)

(** [session.get(url)] parses [url] before anything is sent: aiohttp makes a
    [yarl.URL] of the string, which splits it the way
    [urllib.parse.urlsplit] does.  The split begins by stripping the leading
    C0 control characters and spaces and by removing every tab, carriage
    return and line feed; the scheme, host, path and query of the request
    are read from the string that is left, [url_to_parse url]. *)
Definition c0_control_or_space (c : Ascii.ascii) : bool :=
  Ascii.nat_of_ascii c <=? 32.

Definition unsafe_url_byte (c : Ascii.ascii) : bool :=
  let n := Ascii.nat_of_ascii c in (n =? 9) || (n =? 13) || (n =? 10).

(** [url.lstrip(_WHATWG_C0_CONTROL_OR_SPACE)] *)
Fixpoint lstrip_c0 (url : string) : string :=
  match url with
  | EmptyString => EmptyString
  | String c url' => if c0_control_or_space c then lstrip_c0 url' else url
  end.

(** [for b in _UNSAFE_URL_BYTES_TO_REMOVE: url = url.replace(b, "")] *)
Fixpoint remove_unsafe (url : string) : string :=
  match url with
  | EmptyString => EmptyString
  | String c url' =>
      if unsafe_url_byte c then remove_unsafe url' else String c (remove_unsafe url')
  end.

Definition url_to_parse (url : string) : string := remove_unsafe (lstrip_c0 url).

(** ** [proxy_checker], lines 452-467 and 496-531 *)

(** What [requests.get(url, timeout=REQUEST_TIMEOUT)] does: it returns a
    response, or raises [requests.RequestException] (or a subclass of it),
    which [proxy_checker] catches, or raises an exception of another class
    (urllib3's [LocationParseError] for a host such as [x..y], a
    [ValueError]), which [proxy_checker] does not catch. *)
Inductive reply :=
| Answered (ok : bool)      (* a response, with its [response.ok] *)
| RequestException
| Uncaught (e : exn).

(** The site asked at time [t] for [url]. *)
Definition Site : Type := nat → string → reply.

(** [s.startswith(prefix)] and [s.endswith(suffix)]. *)
Definition startswith (prefix s : string) : bool := String.prefix prefix s.

Definition endswith (suffix s : string) : bool :=
  String.prefix (String.rev suffix) (String.rev s).

(** [s.replace(old, new)] for a non-empty [old]: the occurrences of [old]
    are found from left to right and do not overlap; [skip] counts the
    characters of the occurrence just replaced that are still to be passed. *)
Fixpoint replace_from (old new : string) (skip : nat) (s : string) : string :=
  match s with
  | EmptyString => EmptyString
  | String c s' =>
      match skip with
      | S skip' => replace_from old new skip' s'
      | 0 =>
          if String.prefix old (String c s')
          then new +:+ replace_from old new (String.length old - 1) s'
          else String c (replace_from old new 0 s')
      end
  end.

Definition py_replace (old new s : string) : string := replace_from old new 0 s.

(** Lines 456-461: what [PIRATE_URL] becomes from the pasted line. *)
Definition fresh_url (pasted : string) : string :=
  let url := pasted in
  let url := if startswith "www." url then py_replace "www." "" url else url in
  let url := if negb (startswith "https://" url) then "https://" +:+ url else url in
  if endswith "index.html" url then py_replace "index.html" "" url else url.

(** Lines 520-523 (and 478-481): [new_url], from the line read. *)
Definition amended_url (new_url : string) : string :=
  let new_url :=
    if negb (startswith "https://" new_url) then "https://" +:+ new_url else new_url in
  if endswith "index.html" new_url then py_replace "index.html" "" new_url else new_url.

Definition request (site : Site) (url : string) : M reply := fun s =>
  (Ok (site (clock s) url), tick s).

Definition set_PIRATE_URL (url : string) : M unit := fun s =>
  (Ok tt, mkState (heap s) (clock s) (out s) url).

Definition get_PIRATE_URL : M string := fun s => (Ok (PIRATE_URL s), s).

Definition paste_prompt : string :=
  "Please paste in a working Pirate Bay URL or proxy. " +:+ LF +:+
  "The official URL leads to cleanest results: thepiratebay.org" +:+ LF.

(** [proxy_checker] when [STATUS == "f"], lines 452-467: the loop ends
    with a response that is ok, or with an exception that
    [except requests.RequestException] does not catch; [fuel] bounds the
    number of lines read. *)
Fixpoint proxy_checker_fresh (W : World) (site : Site) (fuel : nat) : M unit :=
  match fuel with
  | 0 => out_of_fuel
  | S fuel' =>
      pasted <- input W paste_prompt ;;
      let url := fresh_url pasted in
      set_PIRATE_URL url ;;;
      response <- request site url ;;
      match response with
      | Answered true => ret tt
      | Answered false => proxy_checker_fresh W site fuel'
      | RequestException =>
          print ("Cannot connect to " +:+ url +:+ LF +:+ "Please try a different URL.") ;;;
          proxy_checker_fresh W site fuel'
      | Uncaught e => raise e
      end
  end.

(** Lines 501-509: the answer is asked for until it is [n] or [y]. *)
Fixpoint ask_change (W : World) (fuel : nat) : M string :=
  match fuel with
  | 0 => out_of_fuel
  | S fuel' =>
      change <- input W "Would you like to change it anyway? (y/n): " ;;
      let change := lower change in
      if decide (change = "n") then ret change
      else if decide (change = "y") then ret change
      else print "Please input a valid option." ;;; ask_change W fuel'
  end.

Definition new_url_prompt : string :=
  "Please input a working Pirate URL." +:+ LF +:+
  "The official URL leads to cleanest results: thepiratebay.org" +:+ LF.

(** Lines 517-531. *)
Fixpoint new_url_loop (W : World) (site : Site) (fuel : nat) : M unit :=
  match fuel with
  | 0 => out_of_fuel
  | S fuel' =>
      new_url <- input W new_url_prompt ;;
      let new_url := amended_url new_url in
      response <- request site new_url ;;
      match response with
      | Answered true => print ("This URL works: " +:+ new_url) ;;; set_PIRATE_URL new_url
      | Answered false => new_url_loop W site fuel'
      | RequestException =>
          print "This URL does not work. Try again." ;;; new_url_loop W site fuel'
      | Uncaught e => raise e
      end
  end.

(** [proxy_checker] when [STATUS == "a"], lines 496-531. *)
Definition proxy_checker_amend (W : World) (site : Site) (fuel : nat) : M unit :=
  url <- get_PIRATE_URL ;;
  response <- request site url ;;
  match response with
  | Answered true =>
      print ("Your Pirate URL is still working: " +:+ url) ;;;
      change <- ask_change W fuel ;;
      if decide (change = "n") then ret tt else new_url_loop W site fuel
  | Answered false => new_url_loop W site fuel
  | RequestException =>
      print "URL is not working. Please provide a new one." ;;;
      new_url_loop W site fuel
  | Uncaught e => raise e
  end.

(** Between [s] and [s'] a request for [url] was answered with an ok
    response. *)
Definition answered_ok (site : Site) (s s' : State) (url : string) : Prop :=
  ∃ t, clock s ≤ t < clock s' ∧ site t url = Answered true.

(** ** More worlds for the examples *)

(** The world of [demo], where the batch of probes issued at time 1 fails
    and every other one answers 200. *)
Definition second_batch_answers : World := {|
  q_php := q_php demo;
  torrent_page := λ t _ _, if decide (t = 1) then None else Some 200%Z;
  arrival := arrival demo;
  t_php := t_php demo;
  stdin := stdin demo;
  shuffled := shuffled demo;
  int_of_str := decimal;
  splitlines := splitlines demo;
  fromtimestamp := fromtimestamp demo
|}.

(** The world of [demo], with a listing that has no [id]. *)
Definition without_id : World := {|
  q_php := λ _ _, Some [delete "id" (listing "12" "debian" "Alice" "650" "20" "9")];
  torrent_page := torrent_page demo;
  arrival := arrival demo;
  t_php := t_php demo;
  stdin := stdin demo;
  shuffled := shuffled demo;
  int_of_str := decimal;
  splitlines := splitlines demo;
  fromtimestamp := fromtimestamp demo
|}.

(** The world of [demo], with a second listing that has no [username]. *)
Definition without_username : World := {|
  q_php := λ _ _, Some [listing "11" "ubuntu" "Bob" "700" "10" "5";
                        delete "username" (listing "12" "debian" "Alice" "650" "20" "9")];
  torrent_page := torrent_page demo;
  arrival := arrival demo;
  t_php := t_php demo;
  stdin := stdin demo;
  shuffled := shuffled demo;
  int_of_str := decimal;
  splitlines := splitlines demo;
  fromtimestamp := fromtimestamp demo
|}.

(** The user enters an address that does not answer at time 0, and one that
    does later on. *)
Definition pastes_twice : World := {|
  q_php := q_php demo;
  torrent_page := torrent_page demo;
  arrival := arrival demo;
  t_php := t_php demo;
  stdin := λ t, if decide (t = 0) then "tpb.invalid"
                else if decide (t = 2) then "www.tpb.example/index.html"
                else "tpb.example/index.html";
  shuffled := shuffled demo;
  int_of_str := decimal;
  splitlines := splitlines demo;
  fromtimestamp := fromtimestamp demo
|}.

(** The user pastes a host with an empty label. *)
Definition pastes_bad_host : World := {|
  q_php := q_php demo;
  torrent_page := torrent_page demo;
  arrival := arrival demo;
  t_php := t_php demo;
  stdin := λ _, "x..y";
  shuffled := shuffled demo;
  int_of_str := decimal;
  splitlines := splitlines demo;
  fromtimestamp := fromtimestamp demo
|}.

(** [https://tpb.example/] answers with an ok response, a host with an
    empty label cannot be parsed, and nothing else can be reached. *)
Definition one_mirror : Site :=
  λ _ url, if decide (url = "https://tpb.example/") then Answered true
           else if decide (url = "https://x..y") then Uncaught ValueError
           else RequestException.

(** * Properties *)

(** ** The monad: running binds *)

Lemma bind_ok {A B} (m : M A) (k : A → M B) s a s' :
  m s = (Ok a, s') → bind m k s = k a s'.
Proof. intros H. unfold bind. by rewrite H. Qed.

Lemma bind_raise {A B} (m : M A) (k : A → M B) s e s' :
  m s = (Raise e, s') → bind m k s = (Raise e, s').
Proof. intros H. unfold bind. by rewrite H. Qed.

Lemma bind_fuel {A B} (m : M A) (k : A → M B) s s' :
  m s = (Fuel, s') → bind m k s = (Fuel, s').
Proof. intros H. unfold bind. by rewrite H. Qed.

Lemma bind_run {A B} (m : M A) (k : A → M B) s :
  bind m k s =
  match m s with
  | (Ok a, s') => k a s'
  | (Raise e, s') => (Raise e, s')
  | (Fuel, s') => (Fuel, s')
  end.
Proof. done. Qed.

Lemma bind_ok_inv {A B} (m : M A) (k : A → M B) s b s2 :
  bind m k s = (Ok b, s2) → ∃ a s1, m s = (Ok a, s1) ∧ k a s1 = (Ok b, s2).
Proof.
  unfold bind. destruct (m s) as [[a|e|] s1]; [eauto|done..].
Qed.

Lemma bind_assoc {A B C} (m : M A) (k : A → M B) (k' : B → M C) s :
  bind (bind m k) k' s = bind m (λ a, bind (k a) k') s.
Proof. unfold bind. by destruct (m s) as [[a|e|] s1]. Qed.

(** ** [first_seen] *)

Section first_seen.
Context {A : Type} `{EqDecision A}.
Implicit Types l : list A.

Lemma filter_all (P : A → Prop) `{∀ x, Decision (P x)} l :
  (∀ x, x ∈ l → P x) → filter P l = l.
Proof.
  induction l as [|y l IH]; intros HP; [done|].
  rewrite filter_cons_True by (apply HP; left).
  f_equal. apply IH. intros x Hx. apply HP. by right.
Qed.

Lemma first_seen_elem_of l x : x ∈ first_seen l ↔ x ∈ l.
Proof.
  induction l as [|y l IH]; simpl; [done|].
  rewrite !elem_of_cons, list_elem_of_filter, IH.
  destruct (decide (x = y)); tauto.
Qed.

Lemma first_seen_NoDup l : NoDup (first_seen l).
Proof.
  induction l as [|y l IH]; simpl; constructor.
  - rewrite list_elem_of_filter. tauto.
  - by apply NoDup_filter.
Qed.

Lemma first_seen_sublist l : first_seen l `sublist_of` l.
Proof.
  induction l as [|y l IH]; simpl; [done|].
  constructor. etrans; [apply sublist_filter|done].
Qed.

Lemma first_seen_id l : NoDup l → first_seen l = l.
Proof.
  induction 1 as [|y l Hy _ IH]; simpl; [done|].
  rewrite IH. f_equal. apply filter_all.
  intros x Hx ->. done.
Qed.

Lemma first_seen_idemp l : first_seen (first_seen l) = first_seen l.
Proof. apply first_seen_id, first_seen_NoDup. Qed.

Lemma first_seen_filter (P : A → Prop) `{∀ x, Decision (P x)} l :
  first_seen (filter P l) = filter P (first_seen l).
Proof.
  induction l as [|y l IH]; simpl; [done|].
  rewrite !filter_cons. destruct (decide (P y)); simpl.
  - rewrite IH, !list_filter_filter. f_equal.
    apply list_filter_iff. intros x. tauto.
  - rewrite IH, list_filter_filter. apply list_filter_iff.
    intros x. split; [|tauto]. intros HP. split; [done|]. by intros ->.
Qed.

Lemma first_seen_app l1 l2 :
  first_seen (l1 ++ l2) = first_seen l1 ++ filter (λ x, x ∉ l1) (first_seen l2).
Proof.
  induction l1 as [|y l1 IH]; simpl.
  - symmetry. apply filter_all. intros x _. apply not_elem_of_nil.
  - rewrite IH, filter_app, list_filter_filter. do 2 f_equal.
    apply list_filter_iff. intros x. rewrite not_elem_of_cons. tauto.
Qed.
End first_seen.

(** ** The Deduplicator *)

Lemma points_to_app s l1 l2 ds1 ds2 :
  points_to s l1 ds1 → points_to s l2 ds2 → points_to s (l1 ++ l2) (ds1 ++ ds2).
Proof. apply Forall2_app. Qed.

Lemma py_in_spec s item d acc accs :
  heap s !! item = Some d → points_to s acc accs →
  py_in item acc s = (Ok (bool_decide (d ∈ accs)), s).
Proof.
  intros Hitem Hacc. induction Hacc as [|e de acc accs He _ IH]; cbn [py_in].
  - by rewrite bool_decide_eq_false_2 by apply not_elem_of_nil.
  - destruct (decide (e = item)) as [->|Hne].
    + assert (de = d) as -> by congruence.
      by rewrite bool_decide_eq_true_2 by left.
    + unfold bind, deref. rewrite He, Hitem.
      destruct (decide (de = d)) as [->|Hd].
      * by rewrite bool_decide_eq_true_2 by left.
      * rewrite IH. do 2 f_equal. apply bool_decide_ext.
        rewrite elem_of_cons. split; [by right|intros [Heq|?]; [by destruct Hd|done]].
Qed.

Lemma deduplicator_acc s l ds :
  points_to s l ds → ∀ acc accs, points_to s acc accs →
  ∃ unique_list,
    deduplicator l acc s = (Ok unique_list, s) ∧
    points_to s unique_list (accs ++ filter (λ d, d ∉ accs) (first_seen ds)).
Proof.
  induction 1 as [|item d l ds Hitem _ IH]; intros acc accs Hacc; simpl.
  - exists acc. split; [done|]. by rewrite app_nil_r.
  - erewrite bind_ok by (by apply py_in_spec).
    case_bool_decide as Hd.
    + destruct (IH acc accs Hacc) as (ul & Hrun & Hul).
      exists ul. split; [done|].
      rewrite filter_cons_False by tauto.
      rewrite list_filter_filter.
      erewrite list_filter_iff; [exact Hul|].
      intros x. split; [tauto|]. intros Hx. split; [done|]. by intros ->.
    + destruct (IH (acc ++ [item]) (accs ++ [d])) as (ul & Hrun & Hul).
      { apply points_to_app; [done|]. by repeat constructor. }
      exists ul. split; [done|].
      rewrite filter_cons_True by done.
      rewrite list_filter_filter, <-app_assoc in *. simpl in Hul.
      erewrite list_filter_iff; [exact Hul|].
      intros x. rewrite not_elem_of_app, list_elem_of_singleton. tauto.
Qed.

Lemma deduplicator_distinct s l ds :
  points_to s l ds → ∀ acc accs, points_to s acc accs →
  NoDup (accs ++ ds) →
  deduplicator l acc s = (Ok (acc ++ l), s).
Proof.
  induction 1 as [|item d l ds Hitem _ IH]; intros acc accs Hacc Hnd; simpl.
  - by rewrite app_nil_r.
  - erewrite bind_ok by (by apply py_in_spec).
    apply NoDup_app in Hnd as Hnd'. destruct Hnd' as (_ & Hdisj & _).
    rewrite bool_decide_eq_false_2 by (intros Hin; apply (Hdisj _ Hin); left).
    rewrite (IH (acc ++ [item]) (accs ++ [d])).
    + by rewrite <-app_assoc.
    + apply points_to_app; [done|]. by repeat constructor.
    + by rewrite <-app_assoc.
Qed.

(** ** States that differ only in some fields of their dictionaries *)

Lemma modifies_refl keys s : modifies keys s s.
Proof. repeat split. by apply Forall_Forall2_diag, Forall_forall. Qed.

Lemma modifies_trans keys s1 s2 s3 :
  modifies keys s1 s2 → modifies keys s2 s3 → modifies keys s1 s3.
Proof.
  intros (?&?&?&H12) (?&?&?&H23). repeat split; [congruence..|].
  revert H23. generalize (heap s3). induction H12 as [|d1 d2 h1 h2 Hd _ IH];
    intros h3 H23; inversion H23 as [|? d3 ? h3' Hd' H23']; subst; [done|].
  constructor; [|by apply IH]. intros k Hk. by rewrite Hd', Hd.
Qed.

Lemma modifies_weaken keys keys' s s' :
  keys ⊆ keys' → modifies keys s s' → modifies keys' s s'.
Proof.
  intros Hsub (?&?&?&H). repeat split; [done..|].
  eapply Forall2_impl; [exact H|]. intros d d' Hd k Hk. apply Hd.
  intros Hin. apply Hk, Hsub, Hin.
Qed.

Lemma modifies_length keys s s' :
  modifies keys s s' → length (heap s') = length (heap s).
Proof. intros (_&_&_&H). symmetry. by eapply Forall2_length. Qed.

Lemma modifies_field keys s s' key r :
  modifies keys s s' → key ∉ keys → field s' key r = field s key r.
Proof.
  intros (_&_&_&H) Hk. unfold field.
  destruct (heap s !! r) as [d|] eqn:Hd.
  - destruct (Forall2_lookup_l _ _ _ _ _ H Hd) as (d' & -> & Hdd'). simpl. by apply Hdd'.
  - apply lookup_ge_None in Hd. rewrite (Forall2_length _ _ _ H) in Hd.
    apply lookup_ge_None in Hd. by rewrite Hd.
Qed.

Lemma getitem_state item key s r s' : getitem item key s = (r, s') → s' = s.
Proof.
  unfold getitem. destruct (heap s !! item) as [d|]; [|congruence].
  destruct (d !! key); congruence.
Qed.

Lemma getitem_field item key s v s' :
  getitem item key s = (Ok v, s') → field s key item = Some v.
Proof.
  unfold getitem, field. destruct (heap s !! item) as [d|]; [|done]. simpl.
  destruct (d !! key); congruence.
Qed.

Lemma field_getitem item key s v :
  field s key item = Some v → getitem item key s = (Ok v, s).
Proof.
  unfold getitem, field. destruct (heap s !! item) as [d|]; [|done]. simpl.
  by intros ->.
Qed.

Lemma setitem_modifies item key v s r s' :
  setitem item key v s = (r, s') → modifies [key] s s'.
Proof.
  unfold setitem. destruct (heap s !! item) as [d|] eqn:Hd; intros [= <- <-];
    [|apply modifies_refl].
  repeat split. simpl.
  apply Forall2_same_length_lookup_2; [by rewrite length_insert|].
  intros i d1 d2 H1 H2 k Hk.
  destruct (decide (i = item)) as [->|Hne].
  - rewrite list_lookup_insert_eq in H2 by (by eapply lookup_lt_Some).
    assert (d1 = d) as -> by congruence. injection H2 as <-.
    apply lookup_insert_ne. intros ->. apply Hk. left.
  - rewrite list_lookup_insert_ne in H2 by done. congruence.
Qed.

Lemma setitem_field item key v s s' :
  setitem item key v s = (Ok tt, s') → field s' key item = Some v.
Proof.
  unfold setitem, field. destruct (heap s !! item) as [d|] eqn:Hd; [|done].
  intros [= <-]. simpl.
  rewrite list_lookup_insert_eq by (by eapply lookup_lt_Some). simpl.
  apply lookup_insert_eq.
Qed.

(** ** Converting the numeric fields *)

Ltac key_in_numeric_keys :=
  let x := fresh in let Hx := fresh in
  intros x Hx%list_elem_of_singleton; subst x; unfold numeric_keys; repeat constructor.

Ltac key_not_in_numeric_keys :=
  let H := fresh in
  unfold numeric_keys; intros H;
  repeat (apply elem_of_cons in H as [H|H]; [discriminate|]);
  by apply elem_of_nil in H.

Lemma py_int_state W v s r s' : py_int W v s = (r, s') → s' = s.
Proof.
  destruct v as [x|z]; simpl; [|by intros [= _ <-]].
  destruct (int_of_str W x); by intros [= _ <-].
Qed.

Lemma py_int_ok W v s n s' : py_int W v s = (Ok n, s') → ∃ z, n = PInt z.
Proof.
  destruct v as [x|z]; simpl; [|intros [= <- _]; eauto].
  destruct (int_of_str W x); intros [= <- _]; eauto.
Qed.

Lemma to_int_modifies W key item s r s' :
  to_int W key item s = (r, s') → modifies [key] s s'.
Proof.
  unfold to_int, bind.
  destruct (getitem item key s) as [[v| |] s1] eqn:Hget;
    apply getitem_state in Hget as ->; try (intros [= _ <-]; apply modifies_refl).
  destruct (py_int W v s) as [[n| |] s1] eqn:Hint;
    apply py_int_state in Hint as ->; try (intros [= _ <-]; apply modifies_refl).
  apply setitem_modifies.
Qed.

Lemma setitem_other item key v s r s' r0 k0 :
  setitem item key v s = (r, s') → (r0, k0) ≠ (item, key) →
  field s' k0 r0 = field s k0 r0.
Proof.
  unfold setitem, field. destruct (heap s !! item) as [d|] eqn:Hd;
    intros [= <- <-] Hne; [|done]. simpl.
  destruct (decide (r0 = item)) as [->|Hr].
  - rewrite list_lookup_insert_eq by (by eapply lookup_lt_Some). rewrite Hd. simpl.
    apply lookup_insert_ne. congruence.
  - by rewrite list_lookup_insert_ne.
Qed.

Lemma setitem_same item key v s :
  field s key item = Some v → setitem item key v s = (Ok tt, s).
Proof.
  unfold setitem, field. destruct (heap s !! item) as [d|] eqn:Hd; [|done]. simpl.
  intros Hv. rewrite (insert_id d) by done. rewrite list_insert_id by done.
  by destruct s.
Qed.

Lemma to_int_ok W key item s s' :
  to_int W key item s = (Ok tt, s') →
  int_field s' key item ∧
  ∀ r0 k0, (r0, k0) ≠ (item, key) → field s' k0 r0 = field s k0 r0.
Proof.
  unfold to_int. intros H.
  apply bind_ok_inv in H as (v & s1 & Hget & H). apply getitem_state in Hget as ->.
  apply bind_ok_inv in H as (n & s1 & Hint & H).
  destruct (py_int_ok _ _ _ _ _ Hint) as [z ->]. apply py_int_state in Hint as ->.
  split.
  - exists z. by eapply setitem_field.
  - intros r0 k0. by eapply setitem_other.
Qed.

Lemma to_int_int_field W key item s s' k r :
  to_int W key item s = (Ok tt, s') → int_field s k r → int_field s' k r.
Proof.
  intros H [z Hz]. apply to_int_ok in H as [Hi Ho].
  destruct (decide ((r, k) = (item, key))) as [[= -> ->]|Hne]; [done|].
  exists z. by rewrite Ho.
Qed.

Lemma to_int_same W key item s :
  int_field s key item → to_int W key item s = (Ok tt, s).
Proof.
  intros [z Hz]. unfold to_int.
  erewrite bind_ok by (by apply field_getitem). simpl.
  by apply setitem_same.
Qed.

Lemma convert_inv W item s s' :
  convert W item s = (Ok tt, s') →
  ∃ s1 s2, to_int W "added" item s = (Ok tt, s1) ∧
           to_int W "seeders" item s1 = (Ok tt, s2) ∧
           to_int W "size" item s2 = (Ok tt, s').
Proof.
  unfold convert. intros H.
  apply bind_ok_inv in H as ([] & s1 & H1 & H).
  apply bind_ok_inv in H as ([] & s2 & H2 & H). eauto.
Qed.

Lemma convert_numeric W item s s' :
  convert W item s = (Ok tt, s') → numeric s' item.
Proof.
  intros (s1 & s2 & H1 & H2 & H3)%convert_inv. repeat split.
  - eapply to_int_int_field, to_int_int_field; [done..|]. by eapply to_int_ok.
  - eapply to_int_int_field; [done|]. by eapply to_int_ok.
  - by eapply to_int_ok.
Qed.

Lemma convert_keeps_numeric W item s s' r :
  convert W item s = (Ok tt, s') → numeric s r → numeric s' r.
Proof.
  intros (s1 & s2 & H1 & H2 & H3)%convert_inv (Ha & Hb & Hc).
  repeat split; eauto using to_int_int_field.
Qed.

Lemma convert_same W item s : numeric s item → convert W item s = (Ok tt, s).
Proof.
  intros (Ha & Hb & Hc). unfold convert.
  erewrite bind_ok by (by apply to_int_same).
  erewrite bind_ok by (by apply to_int_same).
  by apply to_int_same.
Qed.

Lemma convert_modifies W item s r s' :
  convert W item s = (r, s') → modifies numeric_keys s s'.
Proof.
  unfold convert, bind.
  destruct (to_int W "added" item s) as [[[]| |] s1] eqn:H1;
    apply to_int_modifies in H1;
    try (intros [= _ <-]; eapply modifies_weaken; [|done]; key_in_numeric_keys).
  destruct (to_int W "seeders" item s1) as [[[]| |] s2] eqn:H2;
    apply to_int_modifies in H2.
  2,3: intros [= _ <-]; eapply modifies_trans;
      (eapply modifies_weaken; [|done]; key_in_numeric_keys).
  intros H3%to_int_modifies.
  eapply modifies_trans; [|eapply modifies_trans];
    (eapply modifies_weaken; [|done]; key_in_numeric_keys).
Qed.

Lemma for_each_convert_modifies W l s r s' :
  for_each l (convert W) s = (r, s') → modifies numeric_keys s s'.
Proof.
  revert s. induction l as [|x l IH]; intros s; simpl.
  - intros [= _ <-]. apply modifies_refl.
  - unfold bind. destruct (convert W x s) as [[[]| |] s1] eqn:H1;
      apply convert_modifies in H1; [|by intros [= _ <-]..].
    intros H. eapply modifies_trans; [done|]. by eapply IH.
Qed.

Lemma for_each_convert_numeric W l s s' :
  for_each l (convert W) s = (Ok tt, s') → ∀ r, r ∈ l → numeric s' r.
Proof.
  revert s. induction l as [|x l IH]; intros s; simpl; [by intros _ r ?%elem_of_nil|].
  intros H. apply bind_ok_inv in H as ([] & s1 & H1 & H).
  intros r [->|Hr]%elem_of_cons; [|by eapply IH].
  clear IH. apply convert_numeric in H1. revert s1 H H1.
  induction l as [|y l IH]; intros s1; simpl; [by intros [= <-]|].
  intros H Hx. apply bind_ok_inv in H as ([] & s2 & H2 & H).
  eapply IH; [done|]. by eapply convert_keeps_numeric.
Qed.

(** Converting an object again changes nothing, so only the first
    occurrence of each reference matters. *)
Lemma for_each_convert_skip W x l s :
  numeric s x →
  for_each l (convert W) s = for_each (filter (λ y, y ≠ x) l) (convert W) s.
Proof.
  revert s. induction l as [|y l IH]; intros s Hx; [done|].
  destruct (decide (y = x)) as [->|Hne].
  - rewrite filter_cons_False by tauto. simpl.
    erewrite bind_ok by (by apply convert_same). by apply IH.
  - rewrite filter_cons_True by done. simpl. unfold bind.
    destruct (convert W y s) as [[[]| |] s1] eqn:H1; [|done..].
    apply IH. by eapply convert_keeps_numeric.
Qed.

Lemma for_each_convert_first_seen W l s :
  for_each l (convert W) s = for_each (first_seen l) (convert W) s.
Proof.
  revert s. induction l as [|x l IH]; intros s; [done|]. simpl. unfold bind.
  destruct (convert W x s) as [[[]| |] s1] eqn:H1; [|done..].
  rewrite IH. apply for_each_convert_skip. by eapply convert_numeric.
Qed.

(** ** Repeated references and the Deduplicator *)

Lemma py_in_state item acc s r s' : py_in item acc s = (r, s') → s' = s.
Proof.
  induction acc as [|e acc IH]; simpl; [by intros [= _ <-]|].
  destruct (decide (e = item)); [by intros [= _ <-]|].
  unfold bind, deref. destruct (heap s !! e); [|by intros [= _ <-]].
  destruct (heap s !! item); [|by intros [= _ <-]].
  destruct (decide _); [by intros [= _ <-]|done].
Qed.

Lemma py_in_app_true item acc l s :
  py_in item acc s = (Ok true, s) → py_in item (acc ++ l) s = (Ok true, s).
Proof.
  induction acc as [|e acc IH]; simpl; [done|].
  destruct (decide (e = item)); [done|].
  unfold bind, deref. destruct (heap s !! e); [|done].
  destruct (heap s !! item); [|done].
  destruct (decide _); done.
Qed.

Lemma py_in_snoc_self item acc s :
  py_in item acc s = (Ok false, s) → py_in item (acc ++ [item]) s = (Ok true, s).
Proof.
  induction acc as [|e acc IH]; simpl.
  - by rewrite decide_True.
  - destruct (decide (e = item)); [done|].
    unfold bind, deref. destruct (heap s !! e); [|done].
    destruct (heap s !! item); [|done].
    destruct (decide _); done.
Qed.

Lemma deduplicator_skip x l acc s :
  py_in x acc s = (Ok true, s) →
  deduplicator l acc s = deduplicator (filter (λ y, y ≠ x) l) acc s.
Proof.
  revert acc. induction l as [|y l IH]; intros acc Hx; [done|].
  destruct (decide (y = x)) as [->|Hne].
  - rewrite filter_cons_False by tauto. simpl.
    erewrite bind_ok by done. by apply IH.
  - rewrite filter_cons_True by done. simpl. unfold bind.
    destruct (py_in y acc s) as [[b| |] s1] eqn:Hy; [|done..].
    apply py_in_state in Hy as ->. apply IH.
    destruct b; [done|]. by apply py_in_app_true.
Qed.

(** A reference met again is always found in [unique_list] (by identity, or
    by the equal object that was kept), so only first occurrences matter. *)
Lemma deduplicator_skips_repeats l acc s :
  deduplicator l acc s = deduplicator (first_seen l) acc s.
Proof.
  revert acc. induction l as [|x l IH]; intros acc; [done|]. simpl. unfold bind.
  destruct (py_in x acc s) as [[b| |] s1] eqn:Hx; [|done..].
  apply py_in_state in Hx as Hs. subst s1.
  rewrite IH. apply deduplicator_skip.
  destruct b; [done|]. by apply py_in_snoc_self.
Qed.

(** ** The accumulation loops *)

Lemma username_is_run user r s :
  username_is user r s =
  match heap s !! r with
  | None => (Raise BadRef, s)
  | Some d =>
      match d !! "username" with
      | None => (Raise (KeyError "username"), s)
      | Some v => (Ok (bool_decide (v = PStr user)), s)
      end
  end.
Proof.
  unfold username_is, bind, getitem.
  destruct (heap s !! r) as [d|]; [|done]. by destruct (d !! "username").
Qed.

Lemma comprehension_if_username user data s :
  comprehension_if (username_is user) data s =
  match first_error s "username" data with
  | Some e => (Raise e, s)
  | None => (Ok (filter (λ r, field s "username" r = Some (PStr user)) data), s)
  end.
Proof.
  induction data as [|r data IH]; [done|].
  cbn [comprehension_if first_error].
  unfold bind at 1. rewrite username_is_run.
  destruct (heap s !! r) as [d|] eqn:Hr; [|done].
  destruct (d !! "username") as [v|] eqn:Hv; [|done].
  unfold bind. rewrite IH. destruct (first_error s "username" data); [done|].
  unfold ret. do 2 f_equal.
  assert (field s "username" r = Some v) as Hf by (unfold field; by rewrite Hr).
  case_bool_decide as Hu.
  - rewrite filter_cons_True; [done|]. by rewrite Hf, Hu.
  - rewrite filter_cons_False; [done|]. rewrite Hf. congruence.
Qed.

Lemma for_users_run usernames data acc s :
  for_users usernames data acc s =
  match usernames, first_error s "username" data with
  | [], _ => (Ok acc, s)
  | _ :: _, Some e => (Raise e, s)
  | _ :: _, None =>
      (Ok (acc ++ map (λ user, filter (λ r, field s "username" r = Some (PStr user)) data)
                      usernames), s)
  end.
Proof.
  revert acc. induction usernames as [|user rest IH]; intros acc; [done|].
  cbn [for_users]. unfold bind. rewrite comprehension_if_username.
  destruct (first_error s "username" data) eqn:He; [done|].
  rewrite IH. destruct rest; simpl; by rewrite <-?app_assoc, ?app_nil_r.
Qed.

(** ** Lists with the same first occurrences *)

Section same_first_seen.
Context {A B : Type} `{EqDecision A, EqDecision B}.

Lemma first_seen_app_proper (l1 l1' l2 l2' : list A) :
  first_seen l1 = first_seen l1' → first_seen l2 = first_seen l2' →
  first_seen (l1 ++ l2) = first_seen (l1' ++ l2').
Proof.
  intros H1 H2. rewrite !first_seen_app, H1, H2. f_equal.
  apply list_filter_iff. intros x.
  by rewrite <-(first_seen_elem_of l1), <-(first_seen_elem_of l1'), H1.
Qed.

Lemma filter_none (P : A → Prop) `{∀ x, Decision (P x)} (l : list A) :
  (∀ x, x ∈ l → ¬ P x) → filter P l = [].
Proof.
  induction l as [|a l IH]; intros HP; [done|].
  rewrite filter_cons_False by (apply HP; left).
  apply IH. intros x Hx. apply HP. by right.
Qed.

Lemma filter_concat_drop (F : B → list A) (u : B) (L : list B) :
  filter (λ x, x ∉ F u) (concat (map F L)) =
  filter (λ x, x ∉ F u) (concat (map F (filter (λ v, v ≠ u) L))).
Proof.
  induction L as [|v L IH]; [done|].
  destruct (decide (v = u)) as [->|Hne].
  - rewrite filter_cons_False by tauto. simpl. rewrite filter_app, IH.
    rewrite (filter_none _ (F u)); [done|]. tauto.
  - rewrite filter_cons_True by done. simpl. by rewrite !filter_app, IH.
Qed.

Lemma first_seen_concat_map (F : B → list A) (L : list B) :
  first_seen (concat (map F L)) = first_seen (concat (map F (first_seen L))).
Proof.
  induction L as [|u L IH]; [done|]. simpl.
  rewrite !first_seen_app. f_equal.
  rewrite IH, <-!(first_seen_filter (λ x, x ∉ F u)). f_equal.
  apply filter_concat_drop.
Qed.
End same_first_seen.

Lemma concat_non_empty {A} (c : list (list A)) :
  concat (filter (λ x, x ≠ []) c) = concat c.
Proof.
  induction c as [|x c IH]; [done|].
  rewrite filter_cons. destruct (decide (x ≠ [])) as [|Hx]; simpl; [by rewrite IH|].
  destruct x; [done|]. by destruct Hx.
Qed.

Lemma for_terms_cons W term rest usernames acc s :
  for_terms W (term :: rest) usernames acc s =
  match q_php W (clock s) term with
  | None => (Raise RequestError, tick s)
  | Some data =>
      let s1 := tick (set_heap (heap s ++ data) s) in
      let refs := seq (length (heap s)) (length data) in
      match usernames, first_error s1 "username" refs with
      | [], _ => for_terms W rest usernames acc s1
      | _ :: _, Some e => (Raise e, s1)
      | _ :: _, None =>
          for_terms W rest usernames
            (acc ++ map (λ user, filter (λ r, field s1 "username" r = Some (PStr user)) refs)
                        usernames) s1
      end
  end.
Proof.
  cbn [for_terms]. unfold bind at 1. unfold search_request.
  destruct (q_php W (clock s) term) as [data|]; [|done].
  unfold bind. rewrite for_users_run. cbv zeta.
  destruct usernames; [done|]. by destruct (first_error _ _ _).
Qed.

Lemma for_terms_first_seen W search_terms usernames :
  ∀ acc acc' s,
    first_seen (concat acc) = first_seen (concat acc') →
    same_first_seen_run (for_terms W search_terms usernames acc s)
                        (for_terms W search_terms (first_seen usernames) acc' s).
Proof.
  induction search_terms as [|term rest IH]; intros acc acc' s Hacc; [done|].
  rewrite !for_terms_cons.
  destruct (q_php W (clock s) term) as [data|]; [|done]. cbv zeta.
  destruct usernames as [|user us]; [by apply IH|].
  cbn [first_seen].
  destruct (first_error _ "username" _); [done|].
  apply IH. rewrite !concat_app. apply first_seen_app_proper; [done|].
  apply (first_seen_concat_map _ (user :: us)).
Qed.

(** The accumulation followed by the Deduplicator runs as it does on the
    identity list with its repeated entries removed. *)
Lemma deduplicated_first_seen W usernames search_terms s :
  (dict_list <- query_aggregator W usernames search_terms ;;
   deduplicator dict_list []) s =
  (dict_list <- query_aggregator W (first_seen usernames) search_terms ;;
   deduplicator dict_list []) s.
Proof.
  unfold query_aggregator. rewrite !bind_assoc.
  rewrite (bind_run (for_terms W search_terms usernames [])),
          (bind_run (for_terms W search_terms (first_seen usernames) [])).
  pose proof (for_terms_first_seen W search_terms usernames [] [] s eq_refl) as H.
  destruct (for_terms W search_terms usernames [] s) as [[c|e|] s1],
           (for_terms W search_terms (first_seen usernames) [] s) as [[c'|e'|] s1'];
    destruct H as [Hs H]; simpl in Hs, H; subst; try done.
  cbv zeta. rewrite !bind_assoc, !concat_non_empty.
  rewrite (bind_run (for_each (concat c) _)), (bind_run (for_each (concat c') _)).
  rewrite (for_each_convert_first_seen W (concat c)),
          (for_each_convert_first_seen W (concat c')), H.
  destruct (for_each (first_seen (concat c')) (convert W) s1') as [[[]| |] s2];
    [|done..].
  unfold bind, ret.
  by rewrite (deduplicator_skips_repeats (concat c)),
             (deduplicator_skips_repeats (concat c')), H.
Qed.

(** ** What the accumulation builds *)

Lemma filter_ext_elem {A} (P Q : A → Prop) `{∀ x, Decision (P x), ∀ x, Decision (Q x)}
    (l : list A) :
  (∀ x, x ∈ l → P x ↔ Q x) → filter P l = filter Q l.
Proof.
  induction l as [|a l IH]; intros HPQ; [done|].
  rewrite !filter_cons, IH by (intros x Hx; apply HPQ; by right).
  assert (P a ↔ Q a) by (apply HPQ; left).
  destruct (decide (P a)), (decide (Q a)); tauto.
Qed.

Lemma field_app_l s s' key r more :
  heap s' = heap s ++ more → r < length (heap s) → field s' key r = field s key r.
Proof. intros Hh Hr. unfold field. by rewrite Hh, lookup_app_l. Qed.


Lemma for_terms_ok W usernames search_terms :
  ∀ acc s c s',
    for_terms W search_terms usernames acc s = (Ok c, s') →
    ∃ datas,
      responses W (clock s) search_terms = Some datas ∧
      heap s' = heap s ++ concat datas ∧
      clock s' = clock s + length search_terms ∧
      out s' = out s ∧ PIRATE_URL s' = PIRATE_URL s ∧
      c = acc ++ concat (map (kept s' usernames) (blocks (length (heap s)) datas)).
Proof.
  induction search_terms as [|term rest IH]; intros acc s c s'.
  - intros [= <- <-]. exists []. simpl. by rewrite !app_nil_r, Nat.add_0_r.
  - rewrite for_terms_cons.
    destruct (q_php W (clock s) term) as [data|] eqn:Hq; [|done]. cbv zeta.
    set (s1 := tick (set_heap (heap s ++ data) s)).
    set (refs := seq (length (heap s)) (length data)).
    assert (∀ c1, for_terms W rest usernames c1 s1 = (Ok c, s') →
      (c1 = acc ++ kept s1 usernames refs) →
      ∃ datas,
        responses W (clock s) (term :: rest) = Some datas ∧
        heap s' = heap s ++ concat datas ∧
        clock s' = clock s + length (term :: rest) ∧
        out s' = out s ∧ PIRATE_URL s' = PIRATE_URL s ∧
        c = acc ++ concat (map (kept s' usernames) (blocks (length (heap s)) datas)))
      as Hstep.
    { intros c1 Hrun ->. apply IH in Hrun as (datas & Hresp & Hheap & Hclock & Hout & Hurl & ->).
      exists (data :: datas). simpl in *. rewrite Hq, Hresp. simpl.
      rewrite Hheap, Hclock, Hout, Hurl, <-!app_assoc, length_app.
      repeat split; [lia|]. do 2 f_equal.
      unfold kept. apply map_ext. intros user. apply filter_ext_elem.
      intros r Hr%elem_of_seq.
      rewrite (field_app_l s1 s' _ r (concat datas)); [done|by rewrite Hheap|].
      simpl. rewrite length_app. lia. }
    destruct usernames as [|user us].
    + intros Hrun. apply (Hstep acc); [done|]. by rewrite app_nil_r.
    + destruct (first_error s1 "username" refs); [done|]. intros Hrun.
      by apply (Hstep _ Hrun).
Qed.

Lemma blocks_points_to (h : list dict) datas :
  Forall2 (λ block data, Forall2 (λ r d, (h ++ concat datas) !! r = Some d) block data)
          (blocks (length h) datas) datas.
Proof.
  revert h. induction datas as [|data rest IH]; intros h; simpl; constructor.
  - apply Forall2_same_length_lookup_2; [by rewrite length_seq|].
    intros i r d [-> Hi]%lookup_seq Hd.
    rewrite lookup_app_r by lia. rewrite lookup_app_l by lia.
    by replace (length h + i - length h) with i by lia.
  - specialize (IH (h ++ data)). rewrite length_app, <-app_assoc in IH. done.
Qed.

Lemma concat_concat_map {A B} (f : A → list (list B)) (l : list A) :
  concat (concat (map f l)) = concat (map (λ x, concat (f x)) l).
Proof.
  induction l as [|x l IH]; [done|]. simpl. by rewrite concat_app, IH.
Qed.

Lemma query_aggregator_ok W usernames search_terms s dict_list s' :
  query_aggregator W usernames search_terms s = (Ok dict_list, s') →
  ∃ datas s1,
    responses W (clock s) search_terms = Some datas ∧
    heap s1 = heap s ++ concat datas ∧
    modifies numeric_keys s1 s' ∧
    clock s' = clock s + length search_terms ∧
    out s' = out s ∧ PIRATE_URL s' = PIRATE_URL s ∧
    dict_list = concat (concat (map (kept s' usernames) (blocks (length (heap s)) datas))) ∧
    ∀ r, r ∈ dict_list → numeric s' r.
Proof.
  unfold query_aggregator. intros H.
  apply bind_ok_inv in H as (c & s1 & Hterms & H). cbv zeta in H.
  apply bind_ok_inv in H as ([] & s2 & Hconv & [= <- <-]).
  apply for_terms_ok in Hterms as (datas & Hresp & Hheap & Hclock & Hout & Hurl & ->).
  pose proof (for_each_convert_modifies _ _ _ _ _ Hconv) as Hmod.
  pose proof (for_each_convert_numeric _ _ _ _ Hconv) as Hnum.
  exists datas, s1. pose proof Hmod as (Hc & Ho & Hu & Hh).
  split; [done|]. split; [done|]. split; [done|].
  split; [congruence|]. split; [congruence|]. split; [congruence|].
  split; [|done].
  rewrite concat_non_empty. simpl. do 2 f_equal. apply map_ext. intros block.
  unfold kept. apply map_ext. intros user. apply list_filter_iff. intros r.
  rewrite (modifies_field numeric_keys s1 s2); [done..|].
  key_not_in_numeric_keys.
Qed.

(** ** The order and the usernames of the accumulated list *)

(** C5, as stated, fails: with identities Alice then Bob and a response that
    lists Bob's record before Alice's, the accumulated list has Alice's
    record first. *)
Lemma response_order_fails :
  ∃ dict_list s',
    query_aggregator demo ["Alice"; "Bob"] ["linux"] start = (Ok dict_list, s') ∧
    responses demo (clock start) ["linux"] = Some [bob_then_alice] ∧
    dict_list ≠ response_order s' ["Alice"; "Bob"]
                  (blocks (length (heap start)) [bob_then_alice]).
Proof.
  eexists _, _. split; [vm_compute; reflexivity|]. split; [reflexivity|].
  vm_compute. discriminate.
Qed.

(** C5, amended.  The accumulated list is ordered by search term, within a
    term by identity (in the order of the identity list), and within an
    identity by the order of the term's response.  The blocks are the
    objects decoded for each term, in response order; conversion changed
    their numeric fields only. *)
Theorem accumulated_order W usernames search_terms s dict_list s' :
  query_aggregator W usernames search_terms s = (Ok dict_list, s') →
  ∃ datas,
    responses W (clock s) search_terms = Some datas ∧
    let bs := blocks (length (heap s)) datas in
    Forall2 (λ block data,
               Forall2 (λ r d, ∃ d' : dict, heap s' !! r = Some d' ∧
                                 ∀ k, k ∉ numeric_keys → d' !! k = d !! k)
                       block data) bs datas ∧
    dict_list =
      concat (map (λ block,
                concat (map (λ user,
                  filter (λ r, field s' "username" r = Some (PStr user)) block)
                  usernames)) bs).
Proof.
  intros (datas & s1 & Hresp & Hheap & Hmod & _ & _ & _ & -> & _)%query_aggregator_ok.
  exists datas. split; [done|]. cbv zeta. split; [|apply concat_concat_map].
  pose proof (blocks_points_to (heap s) datas) as Hb. rewrite <-Hheap in Hb.
  destruct Hmod as (_ & _ & _ & Hh).
  eapply Forall2_impl; [exact Hb|]. intros block data Hbd.
  eapply Forall2_impl; [exact Hbd|]. intros r d Hr. simpl in Hr.
  destruct (Forall2_lookup_l _ _ _ _ _ Hh Hr) as (d' & Hd' & Hk). eauto.
Qed.

Lemma accumulated_order_witness :
  let run := query_aggregator demo ["Alice"; "Bob"] ["linux"] start in
  run = (Ok [1; 0], run.2) ∧
  ∃ datas,
    responses demo (clock start) ["linux"] = Some datas ∧
    let bs := blocks (length (heap start)) datas in
    Forall2 (λ block data,
               Forall2 (λ r d, ∃ d' : dict, heap run.2 !! r = Some d' ∧
                                 ∀ k, k ∉ numeric_keys → d' !! k = d !! k)
                       block data) bs datas ∧
    [1; 0] =
      concat (map (λ block,
                concat (map (λ user,
                  filter (λ r, field run.2 "username" r = Some (PStr user)) block)
                  ["Alice"; "Bob"])) bs).
Proof.
  cbv zeta.
  assert (query_aggregator demo ["Alice"; "Bob"] ["linux"] start
          = (Ok [1; 0], (query_aggregator demo ["Alice"; "Bob"] ["linux"] start).2)) as Hrun
    by (vm_compute; reflexivity).
  split; [exact Hrun|].
  exact (accumulated_order demo ["Alice"; "Bob"] ["linux"] start [1; 0] _ Hrun).
Defined.

(** C6.  Every record of the accumulated list has a [username] equal to one
    of the supplied identities. *)
Theorem accumulated_usernames W usernames search_terms s dict_list s' :
  query_aggregator W usernames search_terms s = (Ok dict_list, s') →
  ∀ r, r ∈ dict_list →
    ∃ user, user ∈ usernames ∧ field s' "username" r = Some (PStr user).
Proof.
  intros (datas & s1 & _ & _ & _ & _ & _ & _ & -> & _)%query_aggregator_ok r Hr.
  apply list_elem_of_In, in_concat in Hr as (l & Hl & Hr).
  apply in_concat in Hl as (ls & Hls & Hl).
  apply in_map_iff in Hls as (block & <- & _).
  apply in_map_iff in Hl as (user & <- & Hu).
  apply list_elem_of_In, list_elem_of_filter in Hr as [Hr _].
  exists user. by rewrite list_elem_of_In.
Qed.

Lemma accumulated_usernames_witness :
  let run := query_aggregator demo ["Alice"; "Bob"] ["linux"] start in
  run = (Ok [1; 0], run.2) ∧
  1 ∈ [1; 0] ∧
  ∃ user, user ∈ ["Alice"; "Bob"] ∧ field run.2 "username" 1 = Some (PStr user).
Proof.
  cbv zeta.
  assert (query_aggregator demo ["Alice"; "Bob"] ["linux"] start
          = (Ok [1; 0], (query_aggregator demo ["Alice"; "Bob"] ["linux"] start).2)) as Hrun
    by (vm_compute; reflexivity).
  assert (1 ∈ [1; 0]) as Hin by left.
  split; [exact Hrun|]. split; [exact Hin|].
  exact (accumulated_usernames demo ["Alice"; "Bob"] ["linux"] start [1; 0] _ Hrun 1 Hin).
Defined.

(** ** The batch of probes *)

(** However the completions are ordered, every pending request that returns
    a status ends in the slot of its own task. *)
Lemma complete_all request pick :
  ∀ n step pending slots,
    length pending = n → NoDup (pending.*1) →
    (∀ p, p ∈ pending → p.1 < length slots) →
    (∀ p, p ∈ pending → is_Some (request p.1 p.2)) →
    ∃ slots',
      complete request pick step n pending slots = Some slots' ∧
      length slots' = length slots ∧
      (∀ p, p ∈ pending → slots' !! p.1 = Some (request p.1 p.2)) ∧
      (∀ j, j ∉ pending.*1 → slots' !! j = slots !! j).
Proof.
  induction n as [|n IH]; intros step pending slots Hlen Hnd Hbound Hok.
  - apply nil_length_inv in Hlen as ->. exists slots. simpl.
    split_and!; [done..| |done]. by intros p ?%elem_of_nil.
  - cbn [complete]. set (k := pick step `mod` length pending).
    assert (k < length pending) as Hk by (apply Nat.mod_upper_bound; lia).
    destruct (lookup_lt_is_Some_2 _ _ Hk) as [[idx url] Hp]. rewrite Hp.
    pose proof (delete_Permutation _ _ _ Hp) as Hperm.
    assert ((idx, url) ∈ pending) as Hin by (by eapply list_elem_of_lookup_2).
    destruct (Hok _ Hin) as [status Hstatus]. simpl in Hstatus. rewrite Hstatus.
    assert (NoDup (idx :: (delete k pending).*1)) as Hnd'.
    { change (NoDup (((idx, url) :: delete k pending).*1)). by rewrite <-Hperm. }
    apply NoDup_cons in Hnd' as [Hidx Hnd'].
    assert (∀ p, p ∈ delete k pending → p ∈ pending) as Hsub.
    { intros p Hp'. rewrite Hperm. by right. }
    destruct (IH (S step) (delete k pending) (<[idx:=Some status]> slots))
      as (slots' & Hrun & Hlen' & Hfilled & Hother).
    { rewrite length_delete by eauto. lia. }
    { done. }
    { intros p Hp'. rewrite length_insert. auto. }
    { auto. }
    exists slots'. rewrite length_insert in Hlen'. split_and!; [done..| |].
    + intros p Hp'. rewrite Hperm in Hp'. apply elem_of_cons in Hp' as [->|Hp']; [|auto].
      simpl. rewrite Hother by done. rewrite Hstatus.
      apply list_lookup_insert_eq. by apply (Hbound (idx, url)).
    + intros j Hj. rewrite Hother.
      * apply list_lookup_insert_ne. intros <-. apply Hj.
        by apply (list_elem_of_fmap_2 fst _ (idx, url)).
      * intros (p & -> & Hp')%list_elem_of_fmap. apply Hj.
        apply list_elem_of_fmap_2. auto.
Qed.

(** However the completions are ordered, one request that raises makes the
    whole batch raise. *)
Lemma complete_one_raises request pick :
  ∀ n step pending slots,
    length pending = n →
    (∃ p, p ∈ pending ∧ request p.1 p.2 = None) →
    complete request pick step n pending slots = None.
Proof.
  induction n as [|n IH]; intros step pending slots Hlen (p & Hin & Hfail).
  - apply nil_length_inv in Hlen as ->. by apply elem_of_nil in Hin.
  - cbn [complete]. set (k := pick step `mod` length pending).
    assert (k < length pending) as Hk by (apply Nat.mod_upper_bound; lia).
    destruct (lookup_lt_is_Some_2 _ _ Hk) as [[idx url] Hp]. rewrite Hp.
    destruct (request idx url) as [status|] eqn:Hstatus; [|done].
    apply IH; [rewrite length_delete by eauto; lia|].
    exists p. split; [|done].
    rewrite (delete_Permutation _ _ _ Hp) in Hin.
    apply elem_of_cons in Hin as [->|Hin]; [|done]. simpl in Hfail. congruence.
Qed.

(** [gather] returns the statuses in task order exactly when every request
    of the batch returns one, and raises otherwise: the order of completion
    ([arrival]) has no influence. *)
Lemma gather_batch W tasks s :
  gather W tasks s =
  (match batch W (clock s) tasks with
   | Some codes => Ok codes
   | None => Raise ClientError
   end, tick s).
Proof.
  unfold gather, batch.
  set (n := length tasks). set (pending := zip (seq 0 n) tasks).
  set (request := torrent_page W (clock s)).
  assert (length pending = n) as Hlen.
  { unfold pending. rewrite length_zip_with_l_eq; by rewrite length_seq. }
  destruct (mapM _ pending) as [codes|] eqn:Hbatch.
  - apply mapM_Some in Hbatch.
    destruct (complete_all request (arrival W (clock s)) n 0 pending (replicate n None))
      as (slots & -> & Hslots & Hfilled & _); [done| | | |].
    { unfold pending. rewrite fst_zip by (rewrite length_seq; lia). apply NoDup_seq. }
    { intros [i u] Hp. unfold pending in Hp. apply elem_of_zip_l, elem_of_seq in Hp.
      rewrite length_replicate. simpl. lia. }
    { intros p (i & Hi)%list_elem_of_lookup.
      destruct (Forall2_lookup_l _ _ _ _ _ Hbatch Hi) as (c & _ & Hc). simpl. eauto. }
    rewrite length_replicate in Hslots.
    assert (slots = Some <$> codes) as ->.
    { apply list_eq_same_length with n; [|done|].
      { rewrite length_fmap, <-(Forall2_length _ _ _ Hbatch). done. }
      intros i x y Hi Hx Hy.
      destruct (lookup_lt_is_Some_2 pending i) as [p Hp]; [lia|].
      assert (p.1 = i) as Hpi.
      { unfold pending in Hp. apply lookup_zip_with_Some in Hp as (j & u & -> & Hj & _).
        apply lookup_seq in Hj as [-> _]. done. }
      destruct (Forall2_lookup_l _ _ _ _ _ Hbatch Hp) as (c & Hc & Hreq).
      rewrite list_lookup_fmap, Hc in Hy. injection Hy as <-.
      rewrite <-Hpi, Hfilled in Hx by (by eapply list_elem_of_lookup_2).
      congruence. }
    by rewrite mapM_fmap_Some.
  - apply mapM_None, Exists_exists in Hbatch.
    by rewrite complete_one_raises.
Qed.

(** ** [check_urls] *)

Lemma get_tasks_ok item_list ids s :
  Forall2 (λ r id, field s "id" r = Some id) item_list ids →
  get_tasks item_list s = (Ok (map (task_url (PIRATE_URL s)) ids), s).
Proof.
  unfold get_tasks. induction 1 as [|r id l ids Hr _ IH]; [done|].
  cbn [comprehension]. erewrite bind_ok; [|erewrite bind_ok; [|by apply field_getitem]; done].
  by erewrite bind_ok.
Qed.

(** The loop of lines 97-98 on distinct objects. *)
Lemma set_codes codes item_list :
  ∀ idx s,
    NoDup item_list →
    (∀ r, r ∈ item_list → r < length (heap s)) →
    idx + length item_list ≤ length codes →
    ∃ s',
      for_enumerate idx item_list
        (λ idx item,
           match codes !! idx with
           | Some status => setitem item "code" (PInt status)
           | None => raise IndexError
           end) s = (Ok tt, s') ∧
      modifies ["code"] s s' ∧
      (∀ i r, item_list !! i = Some r →
              field s' "code" r = PInt <$> codes !! (idx + i)) ∧
      (∀ r, r ∉ item_list → field s' "code" r = field s "code" r).
Proof.
  induction item_list as [|r l IH]; intros idx s Hnd Hbound Hlen.
  - exists s. split_and!; [done|apply modifies_refl| |done]. intros i r. by rewrite lookup_nil.
  - apply NoDup_cons in Hnd as [Hr Hnd]. simpl in Hlen.
    destruct (lookup_lt_is_Some_2 codes idx) as [status Hstatus]; [lia|].
    destruct (lookup_lt_is_Some_2 (heap s) r) as [d Hd]; [apply Hbound; left|].
    destruct (setitem r "code" (PInt status) s) as [res s1] eqn:Hset.
    assert (res = Ok tt) as -> by (unfold setitem in Hset; rewrite Hd in Hset; congruence).
    pose proof (setitem_modifies _ _ _ _ _ _ Hset) as Hmod1.
    destruct (IH (S idx) s1) as (s' & Hrun & Hmod & Hset' & Hother); [done| |lia|].
    { intros r' Hr'. rewrite (modifies_length _ _ _ Hmod1). apply Hbound. by right. }
    exists s'. split_and!.
    + cbn [for_enumerate]. rewrite Hstatus. by erewrite bind_ok.
    + by eapply modifies_trans.
    + intros [|i] r'; simpl.
      * intros [= <-]. rewrite Hother by done. rewrite Nat.add_0_r, Hstatus.
        by eapply setitem_field.
      * intros Hi. rewrite (Hset' _ _ Hi). do 2 f_equal. lia.
    + intros r' [Hne Hr']%not_elem_of_cons. rewrite Hother by done.
      eapply setitem_other; [done|]. congruence.
Qed.

Lemma batch_length W t tasks codes :
  batch W t tasks = Some codes → length codes = length tasks.
Proof.
  intros H%length_mapM. rewrite <-H.
  rewrite length_zip_with_r_eq; by rewrite ?length_seq.
Qed.

Lemma field_lt s key r v : field s key r = Some v → r < length (heap s).
Proof.
  unfold field. destruct (heap s !! r) eqn:Hr; [|done]. intros _.
  by eapply lookup_lt_Some.
Qed.

Lemma check_urls_ok W item_list ids codes s :
  NoDup item_list →
  Forall2 (λ r id, field s "id" r = Some id) item_list ids →
  batch W (clock s) (map (task_url (PIRATE_URL s)) ids) = Some codes →
  ∃ s',
    check_urls W item_list s = (Ok item_list, s') ∧
    modifies ["code"] (tick s) s' ∧
    Forall2 (λ r status, field s' "code" r = Some (PInt status)) item_list codes ∧
    (∀ r, r ∉ item_list → field s' "code" r = field s "code" r).
Proof.
  intros Hnd Hids Hbatch.
  assert (length codes = length item_list) as Hlen.
  { rewrite (batch_length _ _ _ _ Hbatch), length_map. symmetry. by eapply Forall2_length. }
  destruct (set_codes codes item_list 0 (tick s)) as (s' & Hrun & Hmod & Hset & Hother);
    [done| |lia|].
  { intros r (i & Hi)%list_elem_of_lookup.
    destruct (Forall2_lookup_l _ _ _ _ _ Hids Hi) as (id & _ & Hid).
    by apply field_lt in Hid. }
  exists s'. split_and!; [|done| |done].
  - unfold check_urls. erewrite bind_ok by (by apply get_tasks_ok).
    erewrite bind_ok by (by rewrite gather_batch, Hbatch).
    by erewrite bind_ok.
  - apply Forall2_same_length_lookup_2; [done|].
    intros i r status Hi Hc. rewrite (Hset _ _ Hi). simpl. by rewrite Hc.
Qed.

Lemma check_urls_raises W item_list ids s :
  Forall2 (λ r id, field s "id" r = Some id) item_list ids →
  batch W (clock s) (map (task_url (PIRATE_URL s)) ids) = None →
  check_urls W item_list s = (Raise ClientError, tick s).
Proof.
  intros Hids Hbatch. unfold check_urls.
  erewrite bind_ok by (by apply get_tasks_ok).
  by erewrite bind_raise by (by rewrite gather_batch, Hbatch).
Qed.

Lemma comprehension_if_not_404 item_list codes s :
  Forall2 (λ r status, field s "code" r = Some (PInt status)) item_list codes →
  comprehension_if not_404 item_list s =
  (Ok (filter (λ p, p.2 ≠ 404%Z) (zip item_list codes)).*1, s).
Proof.
  induction 1 as [|r status l codes Hr _ IH]; [done|].
  cbn [comprehension_if]. unfold not_404 at 1.
  erewrite bind_ok; [|erewrite bind_ok; [|by apply field_getitem]; done].
  erewrite bind_ok by done. unfold ret. do 2 f_equal.
  cbn [zip zip_with]. rewrite filter_cons. simpl.
  case_bool_decide as Hc; destruct (decide (status ≠ 404%Z)) as [Hs|Hs]; try done.
  - destruct Hc. f_equal. by apply dec_stable.
  - destruct Hs. congruence.
Qed.

(** ** The list that reaches the liveness check *)

Lemma search_stages W fuel usernames search_terms s :
  search W fuel usernames search_terms s =
  match pre_verification W usernames search_terms s with
  | (Ok unique_list, s1) => liveness_checker W fuel 3 0 unique_list (announced unique_list s1)
  | (Raise e, s1) => (Raise e, s1)
  | (Fuel, s1) => (Fuel, s1)
  end.
Proof.
  unfold search, pre_verification, bind, print. simpl.
  destruct (decide (50 < length search_terms)); simpl;
    (destruct (query_aggregator _ _ _ _) as [[dl| |] s1]; [|done..]);
    by destruct (deduplicator dl [] s1) as [[ul| |] s2].
Qed.

Lemma deduplicator_state l acc s r s' : deduplicator l acc s = (r, s') → s' = s.
Proof.
  revert acc. induction l as [|x l IH]; intros acc; simpl; [by intros [= _ <-]|].
  unfold bind. destruct (py_in x acc s) as [[b| |] s1] eqn:Hx;
    apply py_in_state in Hx as ->; [|by intros [= _ <-]..].
  apply IH.
Qed.

Lemma py_in_false item acc s s' : py_in item acc s = (Ok false, s') → item ∉ acc.
Proof.
  induction acc as [|e acc IH]; simpl; [intros _; apply not_elem_of_nil|].
  destruct (decide (e = item)); [done|].
  unfold bind, deref. destruct (heap s !! e); [|done].
  destruct (heap s !! item); [|done].
  destruct (decide _); [done|]. intros H. apply not_elem_of_cons. auto.
Qed.

(** The deduplicated list holds distinct objects, all taken from the
    accumulated list. *)
Lemma deduplicator_refs l : ∀ acc s unique_list s',
  deduplicator l acc s = (Ok unique_list, s') → NoDup acc →
  NoDup unique_list ∧ ∀ r, r ∈ unique_list → r ∈ acc ∨ r ∈ l.
Proof.
  induction l as [|x l IH]; intros acc s ul s'; simpl.
  - intros [= <- _] Hnd. auto.
  - intros H Hnd. apply bind_ok_inv in H as (b & s1 & Hx & H).
    apply py_in_state in Hx as Hs. subst s1. destruct b.
    + destruct (IH _ _ _ _ H Hnd) as [? Hsub]. split; [done|].
      intros r [?|?]%Hsub; [by left|right; by right].
    + apply py_in_false in Hx.
      destruct (IH _ _ _ _ H) as [? Hsub].
      { apply NoDup_app. split_and!; [done| |apply NoDup_singleton].
        intros y Hy ->%list_elem_of_singleton. done. }
      split; [done|].
      intros r [[?|Hr%list_elem_of_singleton]%elem_of_app|?]%Hsub;
        [by left|subst; right; left|right; by right].
Qed.

Lemma pre_verification_inv W usernames search_terms s unique_list s1 :
  pre_verification W usernames search_terms s = (Ok unique_list, s1) →
  ∃ s0 dict_list,
    heap s0 = heap s ∧ clock s0 = clock s ∧ PIRATE_URL s0 = PIRATE_URL s ∧
    query_aggregator W usernames search_terms s0 = (Ok dict_list, s1) ∧
    deduplicator dict_list [] s1 = (Ok unique_list, s1).
Proof.
  unfold pre_verification. intros H.
  apply bind_ok_inv in H as ([] & sa & [= <-] & H).
  apply bind_ok_inv in H as ([] & sb & Hb & H).
  apply bind_ok_inv in H as (dl & sc & Hq & H).
  apply deduplicator_state in H as Hs. subst sc.
  exists sb, dl. split_and!; [| | |done..];
    destruct (decide _); injection Hb as <-; done.
Qed.

(** ** The liveness check *)

Lemma filter_not_404 item_list codes s :
  Forall2 (λ r status, field s "code" r = Some (PInt status)) item_list codes →
  filter (λ r, field s "code" r ≠ Some (PInt 404)) item_list =
  (filter (λ p, p.2 ≠ 404%Z) (zip item_list codes)).*1.
Proof.
  induction 1 as [|r status l codes Hr _ IH]; [done|].
  cbn [zip zip_with]. rewrite !filter_cons, IH, Hr. simpl.
  destruct (decide (status ≠ 404%Z)) as [Hs|Hs].
  - rewrite decide_True; [done|]. congruence.
  - rewrite decide_False; [done|]. intros Hc. apply Hs. congruence.
Qed.

(** C2.  When every probe of an attempt returns a status, every record gets
    the status of its own probe as [code] (nothing else changes in the
    records), and the Sorter is handed the records whose [code] is not 404,
    in the order of the list.  [s'] and the list handed over are the same
    for every world that answers the probes of this batch alike, whatever
    its order of completion.  (The list that reaches the liveness check
    holds distinct objects: [deduplicator_refs].) *)
Theorem liveness_success W fuel unique_list ids codes s :
  NoDup unique_list →
  Forall2 (λ r id, field s "id" r = Some id) unique_list ids →
  batch W (clock s) (map (task_url (PIRATE_URL s)) ids) = Some codes →
  ∃ s' working_list,
    Forall2 (λ r status, field s' "code" r = Some (PInt status)) unique_list codes ∧
    modifies ["code"] (tick s) s' ∧
    working_list = filter (λ r, field s' "code" r ≠ Some (PInt 404)) unique_list ∧
    working_list = (filter (λ p, p.2 ≠ 404%Z) (zip unique_list codes)).*1 ∧
    ∀ W', (∀ idx url, torrent_page W' (clock s) idx url = torrent_page W (clock s) idx url) →
      attempt W' fuel unique_list s =
      sorter W' fuel working_list (emit (found_working working_list) s').
Proof.
  intros Hnd Hids Hbatch.
  destruct (check_urls_ok W unique_list ids codes s) as (s' & Hrun & Hmod & Hcodes & _);
    [done..|].
  exists s', (filter (λ p, p.2 ≠ 404%Z) (zip unique_list codes)).*1.
  split_and!; [done..|by rewrite (filter_not_404 _ codes)|done|]. intros W' Hsame.
  destruct (check_urls_ok W' unique_list ids codes s) as (s'' & Hrun' & _); [done..| |].
  { rewrite <-Hbatch. unfold batch. apply mapM_ext. intros p. apply Hsame. }
  assert (s'' = s') as ->.
  { unfold check_urls in Hrun, Hrun'.
    erewrite bind_ok in Hrun, Hrun' by (by apply get_tasks_ok).
    erewrite bind_ok in Hrun by (by rewrite gather_batch, Hbatch).
    erewrite bind_ok in Hrun'.
    2:{ rewrite gather_batch. unfold batch. erewrite mapM_ext; [|intros p; apply Hsame].
        fold (batch W (clock s) (map (task_url (PIRATE_URL s)) ids)). by rewrite Hbatch. }
    apply bind_ok_inv in Hrun as ([] & sa & Ha & [= <-]).
    apply bind_ok_inv in Hrun' as ([] & sb & Hb & [= <-]). congruence. }
  unfold attempt. erewrite bind_ok by done.
  erewrite bind_ok by (by apply comprehension_if_not_404).
  by erewrite bind_ok.
Qed.

Lemma liveness_success_witness :
  NoDup [0; 1; 2] ∧
  batch mixed_statuses 7
    (map (task_url "https://tpb.example") [PStr "1"; PStr "2"; PStr "3"])
    = Some [404; 200; 500]%Z ∧
  ∃ s' working_list,
    Forall2 (λ r status, field s' "code" r = Some (PInt status))
            [0; 1; 2] [404; 200; 500]%Z ∧
    modifies ["code"] (tick three_records) s' ∧
    working_list = filter (λ r, field s' "code" r ≠ Some (PInt 404)) [0; 1; 2] ∧
    working_list = [1; 2] ∧
    ∀ W', (∀ idx url, torrent_page W' 7 idx url = torrent_page mixed_statuses 7 idx url) →
      attempt W' 5 [0; 1; 2] three_records =
      sorter W' 5 working_list (emit (found_working working_list) s').
Proof.
  split; [apply (NoDup_seq 0 3)|]. split; [reflexivity|].
  apply (liveness_success mixed_statuses 5 [0; 1; 2]
           [PStr "1"; PStr "2"; PStr "3"] [404; 200; 500]%Z three_records).
  - apply (NoDup_seq 0 3).
  - repeat constructor.
  - reflexivity.
Defined.

Lemma responses_elem W search_terms : ∀ t datas data,
  responses W t search_terms = Some datas → data ∈ datas →
  ∃ t' term, q_php W t' term = Some data.
Proof.
  induction search_terms as [|term rest IH]; intros t datas data; simpl.
  - intros [= <-]. by intros ?%elem_of_nil.
  - destruct (q_php W t term) as [data0|] eqn:Hq; [|done]. simpl.
    destruct (responses W (S t) rest) as [datas0|] eqn:Hr; [|done]. simpl.
    intros [= <-] [->|Hin]%elem_of_cons; [eauto|]. by eapply IH.
Qed.

(** Every object of the accumulated list was decoded from a response, and
    differs from what was decoded in its numeric fields at most. *)
Lemma accumulated_objects W usernames search_terms s dict_list s' :
  query_aggregator W usernames search_terms s = (Ok dict_list, s') →
  ∀ r, r ∈ dict_list →
    ∃ t term data (d d' : dict),
      q_php W t term = Some data ∧ d ∈ data ∧ heap s' !! r = Some d' ∧
      ∀ k, k ∉ numeric_keys → d' !! k = d !! k.
Proof.
  intros (datas & s1 & Hresp & Hheap & Hmod & _ & _ & _ & -> & _)%query_aggregator_ok r Hr.
  apply list_elem_of_In, in_concat in Hr as (l & Hl & Hr).
  apply in_concat in Hl as (ls & Hls & Hl).
  apply in_map_iff in Hls as (block & <- & Hblock).
  apply in_map_iff in Hl as (user & <- & _).
  apply list_elem_of_In, list_elem_of_filter in Hr as [_ Hr].
  apply list_elem_of_In, list_elem_of_lookup in Hblock as [i Hi].
  pose proof (blocks_points_to (heap s) datas) as Hb. rewrite <-Hheap in Hb.
  destruct (Forall2_lookup_l _ _ _ _ _ Hb Hi) as (data & Hdata & Hbd).
  apply list_elem_of_lookup in Hr as [j Hj].
  destruct (Forall2_lookup_l _ _ _ _ _ Hbd Hj) as (d & Hd & Hrd).
  destruct Hmod as (_ & _ & _ & Hh).
  destruct (Forall2_lookup_l _ _ _ _ _ Hh Hrd) as (d' & Hd' & Hk).
  destruct (responses_elem W search_terms (clock s) datas data) as (t & term & Hq);
    [done|by eapply list_elem_of_lookup_2|].
  exists t, term, data, d, d'. split_and!; [done|by eapply list_elem_of_lookup_2|done..].
Qed.

Lemma attempt_raises W fuel unique_list ids s :
  Forall2 (λ r id, field s "id" r = Some id) unique_list ids →
  batch W (clock s) (map (task_url (PIRATE_URL s)) ids) = None →
  attempt W fuel unique_list s = (Raise ClientError, tick s).
Proof.
  intros Hids Hbatch. unfold attempt.
  by erewrite bind_raise by (by eapply check_urls_raises).
Qed.

Lemma liveness_retry W fuel rounds counter unique_list ids s :
  counter < 3 →
  Forall2 (λ r id, field s "id" r = Some id) unique_list ids →
  batch W (clock s) (map (task_url (PIRATE_URL s)) ids) = None →
  liveness_checker W fuel (S rounds) counter unique_list s =
  liveness_checker W fuel rounds (S counter) unique_list (attempt_failed (S counter) s).
Proof.
  intros Hc Hids Hbatch. cbn [liveness_checker]. unfold try_except at 1.
  erewrite attempt_raises by done.
  rewrite decide_False by lia. by rewrite Nat.add_1_r.
Qed.

Lemma liveness_give_up W fuel rounds counter unique_list ids s :
  3 ≤ counter →
  Forall2 (λ r id, field s "id" r = Some id) unique_list ids →
  batch W (clock s) (map (task_url (PIRATE_URL s)) ids) = None →
  liveness_checker W fuel rounds counter unique_list s =
  sorter W fuel unique_list (emit (Say could_not_filter) (tick s)).
Proof.
  intros Hc Hids Hbatch. destruct rounds; cbn [liveness_checker]; unfold try_except;
    erewrite attempt_raises by done; by rewrite decide_True by lia.
Qed.

(** Three further rounds are always enough for the loop of the liveness
    check: more rounds never change its outcome. *)
Lemma liveness_rounds_enough W fuel unique_list :
  ∀ rounds rounds' counter s,
    3 ≤ counter + rounds → 3 ≤ counter + rounds' →
    liveness_checker W fuel rounds counter unique_list s =
    liveness_checker W fuel rounds' counter unique_list s.
Proof.
  induction rounds as [|rounds IH]; intros rounds' counter s Hr Hr'.
  - destruct rounds'; cbn [liveness_checker]; unfold try_except;
      destruct (attempt W fuel unique_list s) as [[[]|e|] s1]; try done;
      destruct (decide (3 < counter + 1)); try done; lia.
  - destruct rounds' as [|rounds']; cbn [liveness_checker]; unfold try_except;
      destruct (attempt W fuel unique_list s) as [[[]|e|] s1]; try done;
      destruct (decide (3 < counter + 1)); try done; try lia.
    rewrite !(bind_run (print _)). unfold print. cbv iota beta.
    apply IH; lia.
Qed.

Lemma attempt_failed_proj counter s :
  heap (attempt_failed counter s) = heap s ∧
  clock (attempt_failed counter s) = S (clock s) ∧
  PIRATE_URL (attempt_failed counter s) = PIRATE_URL s ∧
  out (attempt_failed counter s) =
    out s ++ [Say ("Attempt: " +:+ pretty counter +:+ "/3"); Say try_again].
Proof. split_and!; try reflexivity. unfold attempt_failed, emit. cbn [out]. by rewrite <-app_assoc. Qed.

Lemma announced_proj unique_list s :
  heap (announced unique_list s) = heap s ∧
  clock (announced unique_list s) = clock s ∧
  PIRATE_URL (announced unique_list s) = PIRATE_URL s ∧
  out (announced unique_list s) =
    out s ++ [Say ("Found " +:+ pretty (length unique_list) +:+ " potential results." +:+ LF);
              Say ("Checking for and removing dead URLs..." +:+ LF)].
Proof. split_and!; try reflexivity. unfold announced, emit. cbn [out]. by rewrite <-app_assoc. Qed.

Lemma State_eq s s' :
  heap s = heap s' → clock s = clock s' → out s = out s' →
  PIRATE_URL s = PIRATE_URL s' → s = s'.
Proof. destruct s, s'. simpl. congruence. Qed.

(** C1.  When the batch of probes raises on all four attempts, [search]
    tells the user so and goes on as the Sorter on the deduplicated list:
    the store is the one the Deduplicator left, and no record has a [code]
    (the listing objects of the search API have no such field). *)
Theorem liveness_fallback W fuel usernames search_terms s unique_list s1 ids :
  pre_verification W usernames search_terms s = (Ok unique_list, s1) →
  (∀ t term data (d : dict), q_php W t term = Some data → d ∈ data → d !! "code" = None) →
  Forall2 (λ r id, field s1 "id" r = Some id) unique_list ids →
  (∀ k, k < 4 →
        batch W (clock s1 + k) (map (task_url (PIRATE_URL s1)) ids) = None) →
  ∃ s4,
    search W fuel usernames search_terms s = sorter W fuel unique_list s4 ∧
    heap s4 = heap s1 ∧
    (∀ r, r ∈ unique_list → field s4 "code" r = None) ∧
    out s4 = out s1 ++ fallback_messages unique_list.
Proof.
  intros Hpre Hnocode Hids Hfail.
  exists (mkState (heap s1) (clock s1 + 4) (out s1 ++ fallback_messages unique_list)
                  (PIRATE_URL s1)).
  split_and!; [|done| |done].
  - rewrite search_stages, Hpre.
    set (sa := announced unique_list s1).
    set (sb := attempt_failed 1 sa). set (sc := attempt_failed 2 sb).
    set (sd := attempt_failed 3 sc).
    assert (∀ k s', k < 4 → clock s' = clock s1 + k → heap s' = heap s1 →
                    PIRATE_URL s' = PIRATE_URL s1 →
      Forall2 (λ r id, field s' "id" r = Some id) unique_list ids ∧
      batch W (clock s') (map (task_url (PIRATE_URL s')) ids) = None) as Hstep.
    { intros k s' Hk Hc Hh Hu. rewrite Hc, Hu. split; [|auto].
      eapply Forall2_impl; [exact Hids|]. intros r id. unfold field. by rewrite Hh. }
    destruct (announced_proj unique_list s1) as (Hah & Hac & Hau & Hao). fold sa in Hah, Hac, Hau, Hao.
    destruct (attempt_failed_proj 1 sa) as (Hbh & Hbc & Hbu & Hbo). fold sb in Hbh, Hbc, Hbu, Hbo.
    destruct (attempt_failed_proj 2 sb) as (Hch & Hcc & Hcu & Hco). fold sc in Hch, Hcc, Hcu, Hco.
    destruct (attempt_failed_proj 3 sc) as (Hdh & Hdc & Hdu & Hdo). fold sd in Hdh, Hdc, Hdu, Hdo.
    destruct (Hstep 0 sa) as [Ha1 Ha2]; [lia|lia|congruence..|].
    destruct (Hstep 1 sb) as [Hb1 Hb2]; [lia|lia|congruence..|].
    destruct (Hstep 2 sc) as [Hc1 Hc2]; [lia|lia|congruence..|].
    destruct (Hstep 3 sd) as [Hd1 Hd2]; [lia|lia|congruence..|].
    rewrite (liveness_retry W fuel 2 0 unique_list ids sa) by (assumption || lia).
    fold sb.
    rewrite (liveness_retry W fuel 1 1 unique_list ids sb) by (assumption || lia).
    fold sc.
    rewrite (liveness_retry W fuel 0 2 unique_list ids sc) by (assumption || lia).
    fold sd.
    rewrite (liveness_give_up W fuel 0 3 unique_list ids sd) by (assumption || lia).
    clearbody sa sb sc sd.
    f_equal. apply State_eq; cbn [heap clock out PIRATE_URL emit tick];
      [congruence|lia|..|congruence].
    rewrite Hdo, Hco, Hbo, Hao. unfold fallback_messages. by rewrite <-!app_assoc.
  - intros r Hr. unfold field. cbn [heap].
    apply pre_verification_inv in Hpre as (s0 & dl & _ & _ & _ & Hq & Hd).
    apply deduplicator_refs in Hd as [_ Hsub]; [|constructor].
    destruct (Hsub r Hr) as [?%elem_of_nil|Hdl]; [done|].
    destruct (accumulated_objects _ _ _ _ _ _ Hq r Hdl)
      as (t & term & data & d & d' & Hqd & Hin & -> & Hk).
    cbn [mbind option_bind]. rewrite Hk; [by eapply Hnocode|].
    key_not_in_numeric_keys.
Qed.

Lemma liveness_fallback_witness :
  let run := pre_verification unreachable ["Alice"] ["linux"; "bsd"] start in
  run.1 = Ok [1] ∧
  ∃ s4,
    search unreachable 5 ["Alice"] ["linux"; "bsd"] start = sorter unreachable 5 [1] s4 ∧
    heap s4 = heap run.2 ∧
    (∀ r, r ∈ [1] → field s4 "code" r = None) ∧
    out s4 = out run.2 ++ fallback_messages [1].
Proof.
  split; [vm_compute; reflexivity|].
  apply (liveness_fallback unreachable 5 ["Alice"] ["linux"; "bsd"] start [1]
           (pre_verification unreachable ["Alice"] ["linux"; "bsd"] start).2
           [PStr "12"]).
  - vm_compute. reflexivity.
  - intros t term data d [= <-] Hd. unfold bob_then_alice in Hd.
    repeat (apply elem_of_cons in Hd as [->|Hd]; [reflexivity|]).
    by apply elem_of_nil in Hd.
  - repeat constructor.
  - intros k _. reflexivity.
Defined.

(** ** The Deduplicator, as the spec words it *)

(** C7.  On a list of records, the Deduplicator neither fails nor changes
    the state, and returns the records with later structural duplicates
    removed ([first_seen]): no dictionary occurs twice in the result, every
    input dictionary occurs in it, the order is the input's; a list without
    duplicates is returned as it is; and running the Deduplicator on its
    result returns that result. *)
Theorem deduplicator_first_seen s dict_list records :
  points_to s dict_list records →
  ∃ unique_list,
    deduplicator dict_list [] s = (Ok unique_list, s) ∧
    points_to s unique_list (first_seen records) ∧
    NoDup (first_seen records) ∧
    (∀ d, d ∈ first_seen records ↔ d ∈ records) ∧
    first_seen records `sublist_of` records ∧
    (NoDup records → unique_list = dict_list) ∧
    deduplicator unique_list [] s = (Ok unique_list, s).
Proof.
  intros Hl.
  destruct (deduplicator_acc s dict_list records Hl [] []) as (ul & Hrun & Hul);
    [constructor|].
  simpl in Hul. rewrite filter_all in Hul by (intros; apply not_elem_of_nil).
  exists ul. split_and!; [done..|apply first_seen_NoDup|apply first_seen_elem_of|
                          apply first_seen_sublist| |].
  - intros Hnd. rewrite (deduplicator_distinct s dict_list records Hl [] []) in Hrun;
      [simpl in Hrun; congruence|constructor|done].
  - apply (deduplicator_distinct s ul (first_seen records) Hul [] []); [constructor|].
    apply first_seen_NoDup.
Qed.

Lemma deduplicator_first_seen_witness :
  points_to with_copy [0; 1; 2] (heap with_copy) ∧
  first_seen (heap with_copy) =
    [listing "1" "a" "Alice" "10" "100" "1"; listing "2" "b" "Alice" "20" "200" "2"] ∧
  ∃ unique_list,
    deduplicator [0; 1; 2] [] with_copy = (Ok unique_list, with_copy) ∧
    points_to with_copy unique_list (first_seen (heap with_copy)) ∧
    NoDup (first_seen (heap with_copy)) ∧
    (∀ d, d ∈ first_seen (heap with_copy) ↔ d ∈ heap with_copy) ∧
    first_seen (heap with_copy) `sublist_of` heap with_copy ∧
    (NoDup (heap with_copy) → unique_list = [0; 1; 2]) ∧
    deduplicator unique_list [] with_copy = (Ok unique_list, with_copy).
Proof.
  split; [repeat constructor|]. split; [vm_compute; reflexivity|].
  apply (deduplicator_first_seen with_copy [0; 1; 2] (heap with_copy)).
  repeat constructor.
Defined.

(** ** The probe URL *)

Lemma append_LF_neq p : p +:+ LF ≠ p.
Proof. induction p as [|a p IH]; [done|]. intros [= H]. by apply IH. Qed.

(** The string [get_tasks] hands to [session.get] is the address
    [<site-url>/torrent/<id>] followed by a line feed, for every record. *)
Lemma probe_url_has_line_feed :
  (∀ site id, task_url site id ≠ site +:+ "/torrent/" +:+ py_str id) ∧
  get_tasks [0] three_records =
    (Ok ["https://tpb.example/torrent/1" +:+ LF], three_records).
Proof.
  split; [|reflexivity].
  intros site id. unfold task_url. intros H.
  do 2 apply (inj (String.app _)) in H. by apply append_LF_neq in H.
Qed.

Lemma startswith_app p s : startswith p s = true → ∃ rest, s = p +:+ rest.
Proof.
  unfold startswith. revert s. induction p as [|a p IH]; intros s H.
  - by exists s.
  - destruct s as [|b s]; [done|]. cbn in H.
    destruct (Ascii.ascii_dec a b) as [->|]; [|done].
    destruct (IH _ H) as [rest ->]. by exists rest.
Qed.

Lemma append_cons x (a b : string) : String x a +:+ b = String x (a +:+ b).
Proof. reflexivity. Qed.

Lemma append_assoc (a b c : string) : (a +:+ b) +:+ c = a +:+ b +:+ c.
Proof. induction a as [|x a IH]; [done|]. by rewrite !append_cons, IH. Qed.

Lemma append_nil_r (a : string) : a +:+ "" = a.
Proof. induction a as [|x a IH]; [done|]. by rewrite append_cons, IH. Qed.

Lemma remove_unsafe_app a b :
  remove_unsafe (a +:+ b) = remove_unsafe a +:+ remove_unsafe b.
Proof.
  induction a as [|x a IH]; [done|]. rewrite append_cons. cbn [remove_unsafe].
  destruct (unsafe_url_byte x); [done|]. by rewrite append_cons, IH.
Qed.

(** A line feed at the end of the string leaves no trace in what is parsed. *)
Lemma url_to_parse_line_feed x : url_to_parse (x +:+ LF) = url_to_parse x.
Proof.
  unfold url_to_parse. induction x as [|c x IH]; [done|].
  rewrite append_cons. cbn [lstrip_c0]. destruct (c0_control_or_space c); [done|].
  rewrite <-append_cons, remove_unsafe_app. apply append_nil_r.
Qed.

Lemma task_url_line_feed site id :
  task_url site id = (site +:+ "/torrent/" +:+ py_str id) +:+ LF.
Proof. unfold task_url. by rewrite !append_assoc. Qed.

Lemma url_to_parse_clean site rest :
  startswith "https://" site = true → remove_unsafe site = site →
  remove_unsafe rest = rest →
  url_to_parse (site +:+ rest) = site +:+ rest.
Proof.
  intros (tail & ->)%startswith_app Hsite Hrest. unfold url_to_parse.
  change (lstrip_c0 (("https://" +:+ tail) +:+ rest)) with (("https://" +:+ tail) +:+ rest).
  by rewrite remove_unsafe_app, Hsite, Hrest.
Qed.

(** C9.  For every record the request of the liveness probe is the one for
    [<site-url>/torrent/<id>]: the line feed that [get_tasks] puts after
    the identifier is dropped when the client parses the URL, so that what
    it parses for the record is what it parses for the address without
    the line feed; and for a site address that starts with [https://] and
    identifiers without tabs and line ends, that is the address
    [<site-url>/torrent/<id>] itself, character for character. *)
Theorem probe_requests_exact_path item_list ids s :
  Forall2 (λ r id, field s "id" r = Some id) item_list ids →
  ∃ tasks,
    get_tasks item_list s = (Ok tasks, s) ∧
    Forall2 (λ url id,
               url_to_parse url =
               url_to_parse (PIRATE_URL s +:+ "/torrent/" +:+ py_str id)) tasks ids ∧
    (startswith "https://" (PIRATE_URL s) = true →
     remove_unsafe (PIRATE_URL s) = PIRATE_URL s →
     Forall (λ id, remove_unsafe (py_str id) = py_str id) ids →
     Forall2 (λ url id,
                url_to_parse url = PIRATE_URL s +:+ "/torrent/" +:+ py_str id) tasks ids).
Proof.
  intros Hids. exists (map (task_url (PIRATE_URL s)) ids).
  split; [by apply get_tasks_ok|]. split.
  - apply Forall2_fmap_l, Forall_Forall2_diag, Forall_forall. intros id _.
    unfold compose. by rewrite task_url_line_feed, url_to_parse_line_feed.
  - intros Hs Hsite Hclean. apply Forall2_fmap_l, Forall_Forall2_diag.
    eapply Forall_impl; [exact Hclean|]. intros id Hid. unfold compose.
    rewrite task_url_line_feed, url_to_parse_line_feed.
    apply url_to_parse_clean; [done..|].
    by rewrite remove_unsafe_app, Hid.
Qed.

Lemma probe_requests_exact_path_witness :
  Forall2 (λ r id, field three_records "id" r = Some id)
          [0; 1; 2] [PStr "1"; PStr "2"; PStr "3"] ∧
  ∃ tasks,
    get_tasks [0; 1; 2] three_records = (Ok tasks, three_records) ∧
    tasks = ["https://tpb.example/torrent/1" +:+ LF;
             "https://tpb.example/torrent/2" +:+ LF;
             "https://tpb.example/torrent/3" +:+ LF] ∧
    Forall2 (λ url id, url_to_parse url = "https://tpb.example" +:+ "/torrent/" +:+ py_str id)
            tasks [PStr "1"; PStr "2"; PStr "3"].
Proof.
  split; [repeat constructor|].
  destruct (probe_requests_exact_path [0; 1; 2] [PStr "1"; PStr "2"; PStr "3"] three_records)
    as (tasks & Hrun & _ & Hexact); [repeat constructor|].
  exists tasks. split; [exact Hrun|]. split.
  - vm_compute in Hrun. by injection Hrun as <-.
  - apply Hexact; [reflexivity|reflexivity|repeat constructor].
Defined.

(** ** Failures of the search and description endpoints *)

Lemma for_terms_query_fails W usernames search_terms :
  ∀ acc s i term,
    search_terms !! i = Some term → q_php W (clock s + i) term = None →
    ∃ e s', for_terms W search_terms usernames acc s = (Raise e, s') ∧
            clock s' ≤ clock s + S i ∧ out s' = out s.
Proof.
  induction search_terms as [|term0 rest IH]; intros acc s i term Hi Hq; [done|].
  rewrite for_terms_cons. destruct i as [|i]; simpl in Hi.
  - injection Hi as ->. rewrite Nat.add_0_r in Hq. rewrite Hq.
    eexists _, _. split; [done|]. simpl. split; [lia|done].
  - destruct (q_php W (clock s) term0) as [data|].
    2:{ eexists _, _. split; [done|]. simpl. split; [lia|done]. }
    cbv zeta. set (s1 := tick (set_heap (heap s ++ data) s)).
    assert (∀ acc1, ∃ e s',
      for_terms W rest usernames acc1 s1 = (Raise e, s') ∧
      clock s' ≤ clock s + S (S i) ∧ out s' = out s) as Hrest.
    { intros acc1. destruct (IH acc1 s1 i term Hi) as (e & s' & Hrun & Hc & Ho).
      { rewrite <-Hq. f_equal. simpl. lia. }
      exists e, s'. split; [done|]. simpl in Hc. split; [lia|done]. }
    destruct usernames as [|user us]; [apply Hrest|].
    destruct (first_error s1 "username" _); [|apply Hrest].
    eexists _, _. split; [done|]. simpl. split; [lia|done].
Qed.

(** C3, as stated, fails: the query for the first term raises, the second
    term (whose query would have answered) is never queried, and [search]
    ends with the exception, having printed its first message only. *)
Lemma one_failed_query_aborts_the_others :
  q_php first_term_fails 1 "bsd" = Some bob_then_alice ∧
  search first_term_fails 5 ["Alice"] ["linux"; "bsd"] start =
    (Raise RequestError,
     mkState [] 1 [Say (LF +:+ "Searching...please wait a moment." +:+ LF)]
             "https://tpb.example").
Proof. split; reflexivity. Qed.

(** C3, amended.  When the query for a term raises, [search] ends with an
    exception: no term after it is queried (at most [i + 1] requests were
    made), nothing was printed after the first messages, and no list
    reaches the later stages. *)
Theorem failed_query_aborts_search W fuel usernames search_terms s i term :
  search_terms !! i = Some term →
  q_php W (clock s + i) term = None →
  ∃ e s',
    search W fuel usernames search_terms s = (Raise e, s') ∧
    clock s' ≤ clock s + S i ∧
    out s' = out s ++ banner search_terms.
Proof.
  intros Hi Hq.
  set (s0 := mkState (heap s) (clock s) (out s ++ banner search_terms) (PIRATE_URL s)).
  destruct (for_terms_query_fails W usernames search_terms [] s0 i term Hi Hq)
    as (e & s' & Hrun & Hc & Ho).
  exists e, s'. split; [|done].
  rewrite search_stages. unfold pre_verification.
  erewrite bind_ok by reflexivity.
  assert ((if decide (50 < length search_terms)
           then print ("This may take a moment if using many search terms." +:+ LF)
           else ret tt)
            (emit (Say (LF +:+ "Searching...please wait a moment." +:+ LF)) s)
          = (Ok tt, s0)) as Hb.
  { unfold s0, banner, print, emit, ret. destruct (decide _); cbn [heap clock out PIRATE_URL];
      by rewrite <-?app_assoc. }
  erewrite bind_ok by exact Hb.
  unfold query_aggregator. rewrite !bind_assoc.
  by erewrite bind_raise by exact Hrun.
Qed.

Lemma failed_query_aborts_search_witness :
  ["linux"; "bsd"] !! 0 = Some "linux" ∧
  q_php first_term_fails (clock start + 0) "linux" = None ∧
  ∃ e s',
    search first_term_fails 5 ["Alice"] ["linux"; "bsd"] start = (Raise e, s') ∧
    clock s' ≤ clock start + 1 ∧
    out s' = out start ++ banner ["linux"; "bsd"].
Proof.
  split; [reflexivity|]. split; [reflexivity|].
  apply (failed_query_aborts_search first_term_fails 5 ["Alice"] ["linux"; "bsd"] start 0 "linux");
    reflexivity.
Defined.

(** ** [printer] and the description endpoint *)

Lemma for_enumerate_app {A} (l1 l2 : list A) body : ∀ idx s,
  for_enumerate idx (l1 ++ l2) body s =
  (for_enumerate idx l1 body ;;; for_enumerate (idx + length l1) l2 body) s.
Proof.
  induction l1 as [|x l1 IH]; intros idx s; simpl.
  - unfold bind, ret. by rewrite Nat.add_0_r.
  - rewrite bind_assoc, !(bind_run (body idx x)).
    destruct (body idx x s) as [[[]| |] s1]; [|done..].
    rewrite IH. by rewrite Nat.add_succ_r.
Qed.

(** C4, as stated, fails: the description of the first displayed record
    ([fedora], the newest) cannot be fetched; the other record ([debian]) is
    never displayed, [search] ends with the exception, and the liveness
    check was run again in between. *)
Lemma enrichment_failure_aborts_display :
  let run := search no_descriptions 20 ["Alice"] ["linux"] start in
  run.1 = Raise RequestError ∧
  Say "fedora" ∈ out run.2 ∧
  (Say "debian" ∉ out run.2) ∧
  Say "Attempt: 1/3" ∈ out run.2.
Proof.
  cbv zeta. split; [vm_compute; reflexivity|].
  split_and!; apply (bool_decide_unpack _); vm_compute; exact I.
Qed.

(** C4, amended.  When the description of a displayed record (one of the
    first 100) cannot be fetched, [printer] ends with that exception right
    after the record's own lines: the records before it were displayed in
    full, its relevant links and the records after it are not displayed. *)
Theorem enrichment_failure_ends_printer W fuel before item after id s s1 s2 :
  length before < MAX_RESULTS_WITH_LINKS →
  for_enumerate 0 before (show W) (emit (Say notice) s) = (Ok tt, s1) →
  show_header W item s1 = (Ok tt, s2) →
  field s2 "id" item = Some id →
  t_php W (clock s2) (description_url id) = None →
  printer W (S fuel) (before ++ item :: after) s = (Raise RequestError, tick s2).
Proof.
  intros Hlen Hbefore Hheader Hid Hfetch. cbn [printer].
  erewrite bind_ok by reflexivity.
  erewrite bind_raise; [done|].
  rewrite for_enumerate_app. erewrite bind_ok by exact Hbefore.
  cbn [for_enumerate]. erewrite bind_raise; [done|].
  unfold show. erewrite bind_ok by exact Hheader.
  rewrite decide_True by (simpl; lia).
  unfold show_links. erewrite bind_ok by (by apply field_getitem).
  erewrite bind_raise; [done|].
  unfold description_request. by rewrite Hfetch.
Qed.

Lemma enrichment_failure_ends_printer_witness :
  let s := (query_aggregator no_descriptions ["Alice"] ["linux"] start).2 in
  let s2 := (show_header no_descriptions 1 (emit (Say notice) s)).2 in
  show_header no_descriptions 1 (emit (Say notice) s) = (Ok tt, s2) ∧
  field s2 "id" 1 = Some (PStr "22") ∧
  t_php no_descriptions (clock s2) (description_url (PStr "22")) = None ∧
  printer no_descriptions 3 ([] ++ 1 :: [0]) s = (Raise RequestError, tick s2).
Proof.
  cbv zeta.
  split; [vm_compute; reflexivity|]. split; [vm_compute; reflexivity|].
  split; [reflexivity|].
  apply (enrichment_failure_ends_printer no_descriptions 2 [] 1 [0] (PStr "22")
           (query_aggregator no_descriptions ["Alice"] ["linux"] start).2
           (emit (Say notice) (query_aggregator no_descriptions ["Alice"] ["linux"] start).2)).
  - unfold MAX_RESULTS_WITH_LINKS. simpl. lia.
  - reflexivity.
  - vm_compute. reflexivity.
  - vm_compute. reflexivity.
  - reflexivity.
Defined.

(** ** The orderings of [sorter] *)

Lemma string_ltb_irrefl x : String.ltb x x = false.
Proof.
  unfold String.ltb.
  pose proof (proj2 (OrderedTypeEx.String_as_OT.cmp_eq x x) eq_refl) as H.
  unfold OrderedTypeEx.String_as_OT.cmp in H. by rewrite H.
Qed.

Lemma string_ltb_trans x y z :
  String.ltb x y = true → String.ltb y z = true → String.ltb x z = true.
Proof.
  unfold String.ltb.
  destruct (String.compare x y) eqn:Hxy; try done.
  destruct (String.compare y z) eqn:Hyz; try done. intros _ _.
  apply OrderedTypeEx.String_as_OT.cmp_lt in Hxy, Hyz.
  pose proof (OrderedTypeEx.String_as_OT.lt_trans _ _ _ Hxy Hyz) as Hxz.
  apply OrderedTypeEx.String_as_OT.cmp_lt in Hxz.
  unfold OrderedTypeEx.String_as_OT.cmp in Hxz. by rewrite Hxz.
Qed.

Lemma string_ltb_total x y : x ≠ y → String.ltb x y = true ∨ String.ltb y x = true.
Proof.
  intros Hne. unfold String.ltb. rewrite (String.compare_antisym y x).
  destruct (String.compare x y) eqn:Hxy; simpl; auto.
  by apply String.compare_eq_iff in Hxy.
Qed.

Lemma py_ltb_irrefl a : py_ltb a a = false.
Proof.
  destruct a as [x|x]; unfold py_ltb; simpl.
  - apply string_ltb_irrefl.
  - apply bool_decide_eq_false. lia.
Qed.

Lemma py_ltb_trans a b c : py_ltb a b = true → py_ltb b c = true → py_ltb a c = true.
Proof.
  destruct a as [x|x], b as [y|y], c as [z|z]; unfold py_ltb; simpl; try done.
  - apply string_ltb_trans.
  - rewrite !bool_decide_eq_true. lia.
Qed.

Lemma py_ltb_total a b :
  same_kind a b → a ≠ b → py_ltb a b = true ∨ py_ltb b a = true.
Proof.
  destruct a as [x|x], b as [y|y]; unfold py_ltb; simpl; try done; intros _ Hne.
  - apply string_ltb_total. congruence.
  - rewrite !bool_decide_eq_true. assert (x ≠ y) by congruence. lia.
Qed.

Lemma py_ltb_asym a b : py_ltb a b = true → py_ltb b a = false.
Proof.
  intros Hab. destruct (py_ltb b a) eqn:Hba; [|done].
  pose proof (py_ltb_trans _ _ _ Hab Hba) as H. by rewrite py_ltb_irrefl in H.
Qed.

Lemma py_lt_same_kind a b : same_kind a b → py_lt a b = Some (py_ltb a b).
Proof. by destruct a, b. Qed.

Lemma py_lt_Some_same_kind a b c : py_lt a b = Some c → same_kind a b.
Proof. by destruct a, b. Qed.

Lemma same_kind_sym a b : same_kind a b → same_kind b a.
Proof. by destruct a, b. Qed.

Lemma same_kind_trans a b c : same_kind a b → same_kind b c → same_kind a c.
Proof. by destruct a, b, c. Qed.

(** *** The sort, where it succeeds, is the total sort *)

Lemma insert_total_perm x l : insert_total x l ≡ₚ x :: l.
Proof.
  induction l as [|y l IH]; simpl; [done|].
  destruct (py_ltb y.1 x.1); [|done]. rewrite IH. apply Permutation_swap.
Qed.

Lemma sort_total_perm l : sort_total l ≡ₚ l.
Proof.
  induction l as [|x l IH]; simpl; [done|]. by rewrite insert_total_perm, IH.
Qed.

Lemma insert_sorted_total x l :
  Forall (λ y, same_kind y.1 x.1) l → insert_sorted x l = Some (insert_total x l).
Proof.
  induction 1 as [|y l Hy _ IH]; simpl; [done|].
  rewrite (py_lt_same_kind _ _ Hy). destruct (py_ltb y.1 x.1); [|done].
  by rewrite IH.
Qed.

Lemma insert_sorted_Some x l l' :
  insert_sorted x l = Some l' →
  l' = insert_total x l ∧ match l with [] => True | y :: _ => same_kind y.1 x.1 end.
Proof.
  revert l'. induction l as [|y l IH]; intros l'; simpl; [by intros [= <-]|].
  destruct (py_lt y.1 x.1) as [b|] eqn:Hlt; [|done].
  pose proof (py_lt_Some_same_kind _ _ _ Hlt) as Hk.
  unfold py_ltb. rewrite Hlt. simpl. destruct b; [|by intros [= <-]].
  destruct (insert_sorted x l) as [l0|]; [|done]. simpl. intros [= <-].
  by destruct (IH _ eq_refl) as [<- _].
Qed.

Lemma stable_sort_Some l l' :
  stable_sort l = Some l' → l' = sort_total l ∧ one_kind l.
Proof.
  revert l'. induction l as [|x l IH]; intros l'; simpl.
  - intros [= <-]. split; [done|]. by intros x y ?%elem_of_nil.
  - destruct (stable_sort l) as [l0|]; [|done]. simpl.
    destruct (IH _ eq_refl) as [-> Hkind]. intros [-> Hhead]%insert_sorted_Some.
    split; [done|].
    assert (∀ y, y ∈ l → same_kind y.1 x.1) as Hx.
    { intros y Hy. destruct (sort_total l) as [|z l0] eqn:Hs.
      - assert (l = []) as ->.
        { apply Permutation_nil_r. etrans; [symmetry; apply sort_total_perm|]. by rewrite Hs. }
        by apply elem_of_nil in Hy.
      - eapply same_kind_trans; [|exact Hhead]. apply Hkind; [done|].
        apply (elem_of_Permutation_proper _ _ _ (sort_total_perm l)). rewrite Hs. left. }
    assert (same_kind x.1 x.1) as Hxx by (by destruct (x.1)).
    intros y z [->|Hy]%elem_of_cons [->|Hz]%elem_of_cons; auto using same_kind_sym.
Qed.

Lemma stable_sort_total l : one_kind l → stable_sort l = Some (sort_total l).
Proof.
  induction l as [|x l IH]; intros Hkind; simpl; [done|].
  rewrite IH by (intros y z Hy Hz; apply Hkind; by right). simpl.
  apply insert_sorted_total, Forall_forall. intros y Hy.
  rewrite sort_total_perm in Hy. apply Hkind; [by right|left].
Qed.

(** *** Stability *)



(** *** Lists without ties *)



(** *** [sorted] on the records *)

Lemma comprehension_getitem_inv key l s keys s' :
  comprehension (λ item, getitem item key) l s = (Ok keys, s') →
  s' = s ∧ Forall2 (λ r k, field s key r = Some k) l keys.
Proof.
  revert keys. induction l as [|r l IH]; intros keys; simpl.
  - intros [= <- <-]. by split.
  - intros H. apply bind_ok_inv in H as (k & s1 & Hk & H).
    apply getitem_state in Hk as Hs. subst s1. apply getitem_field in Hk.
    apply bind_ok_inv in H as (ks & s1 & Hks & [= <- <-]).
    destruct (IH _ Hks) as [-> Hall]. split; [done|]. by constructor.
Qed.

Lemma comprehension_getitem_ok key l s keys :
  Forall2 (λ r k, field s key r = Some k) l keys →
  comprehension (λ item, getitem item key) l s = (Ok keys, s).
Proof.
  induction 1 as [|r k l keys Hr _ IH]; [done|]. simpl.
  erewrite bind_ok by (by apply field_getitem). by erewrite bind_ok.
Qed.

(** The list decorated with its keys. *)
Lemma decorated s key l keys :
  Forall2 (λ r k, field s key r = Some k) l keys →
  (zip keys l).*2 = l ∧ (zip keys l).*1 = keys ∧
  Forall (λ p, field s key p.2 = Some p.1) (zip keys l).
Proof.
  induction 1 as [|r k l keys Hr _ (IH1 & IH2 & IH3)]; [done|].
  cbn [zip zip_with]. rewrite !fmap_cons. fold (zip keys l).
  rewrite IH1, IH2. split_and!; [done..|]. by constructor.
Qed.


Lemma one_kind_perm l l' : l ≡ₚ l' → one_kind l → one_kind l'.
Proof. intros Hp Hk x y Hx Hy. apply Hk; by rewrite Hp. Qed.

(** For each of the five orderings, [sorter] hands [printer] the list
    sorted by [py_sorted] on the key and in the direction of the ordering. *)
Lemma sorter_loop_ordering W fuel item_list s key reversed :
  ordering (lower (stdin W (clock s))) = Some (key, reversed) →
  sorter_loop W (S fuel) item_list s =
  (sorted_list <- py_sorted key reversed item_list ;; printer W fuel sorted_list)
    (tick (emit (Ask sort_menu) s)).
Proof.
  unfold ordering. cbn [sorter_loop]. rewrite (bind_run (input W sort_menu)).
  unfold input. cbv iota beta zeta.
  repeat (destruct (decide (lower (stdin W (clock s)) = _)); [by intros [= <- <-]|]).
  done.
Qed.



(** ** How often an object is accumulated *)

Section occurrences.
Context {A : Type} `{EqDecision A}.
Implicit Types l : list A.

Lemma occurrences_cons x y l :
  occurrences x (y :: l) = (if decide (y = x) then 1 else 0) + occurrences x l.
Proof. unfold occurrences. rewrite filter_cons. by destruct (decide (y = x)). Qed.

Lemma occurrences_app x l1 l2 :
  occurrences x (l1 ++ l2) = occurrences x l1 + occurrences x l2.
Proof. unfold occurrences. by rewrite filter_app, length_app. Qed.

Lemma occurrences_filter (Q : A → Prop) `{∀ y, Decision (Q y)} x l :
  occurrences x (filter Q l) = if decide (Q x) then occurrences x l else 0.
Proof.
  unfold occurrences. rewrite list_filter_filter. destruct (decide (Q x)) as [HQ|HQ].
  - f_equal. apply list_filter_iff. intros y. split; [tauto|]. by intros ->.
  - rewrite filter_none; [done|]. intros y _ [-> ?]. done.
Qed.

Lemma occurrences_NoDup x l : NoDup l → x ∈ l → occurrences x l = 1.
Proof.
  unfold occurrences. induction 1 as [|y l Hy Hnd IH]; [by intros ?%elem_of_nil|].
  rewrite filter_cons. intros [->|Hx]%elem_of_cons.
  - rewrite decide_True by done. simpl. f_equal.
    rewrite filter_none; [done|]. by intros z Hz ->.
  - rewrite decide_False by (by intros ->). auto.
Qed.

End occurrences.

Lemma concat_blocks base datas :
  concat (blocks base datas) = seq base (length (concat datas)).
Proof.
  revert base. induction datas as [|data rest IH]; intros base; simpl; [done|].
  by rewrite IH, length_app, seq_app.
Qed.

Lemma occurrences_kept s usernames user r block :
  field s "username" r = Some (PStr user) →
  occurrences r (concat (kept s usernames block)) =
  occurrences user usernames * occurrences r block.
Proof.
  intros Hr. unfold kept. induction usernames as [|u us IH]; [done|].
  simpl. rewrite occurrences_app, IH, occurrences_filter, (occurrences_cons user u).
  destruct (decide (u = user)) as [->|Hne].
  - rewrite decide_True by done. lia.
  - rewrite decide_False; [lia|]. rewrite Hr. congruence.
Qed.

Lemma occurrences_accumulated s usernames user r bs :
  field s "username" r = Some (PStr user) →
  occurrences r (concat (concat (map (kept s usernames) bs))) =
  occurrences user usernames * occurrences r (concat bs).
Proof.
  intros Hr. induction bs as [|block bs IH]; simpl; [unfold occurrences; simpl; lia|].
  rewrite concat_app, !occurrences_app, IH, (occurrences_kept s usernames user) by done.
  lia.
Qed.

(** An object of the accumulated list occurs in it as many times as its
    username occurs in the identity list. *)
Lemma accumulated_once_per_entry W usernames search_terms s dict_list s' r user :
  query_aggregator W usernames search_terms s = (Ok dict_list, s') →
  r ∈ dict_list → field s' "username" r = Some (PStr user) →
  occurrences r dict_list = occurrences user usernames.
Proof.
  intros (datas & s1 & _ & _ & _ & _ & _ & _ & -> & _)%query_aggregator_ok Hr Hu.
  rewrite (occurrences_accumulated s' usernames user) by done.
  rewrite (occurrences_NoDup r); [lia|..].
  - rewrite concat_blocks. apply NoDup_seq.
  - apply list_elem_of_In, in_concat in Hr as (l & Hl & Hr).
    apply in_concat in Hl as (ls & Hls & Hl).
    apply in_map_iff in Hls as (block & <- & Hblock).
    apply in_map_iff in Hl as (u & <- & _).
    apply list_elem_of_In, list_elem_of_filter in Hr as [_ Hr].
    apply list_elem_of_In, in_concat. exists block. split; [done|].
    by apply list_elem_of_In.
Qed.

(** C10.  An identity listed several times makes the accumulation append
    its records once per entry (an object occurs in the accumulated list as
    many times as its username occurs in the identity list), and the
    Deduplicator drops the copies: the run up to the liveness check (its
    outcome, the deduplicated list and the state) is the one of the identity
    list with its repeated entries removed. *)
Theorem duplicate_usernames_are_harmless W usernames search_terms s :
  (∀ dict_list s' r user,
     query_aggregator W usernames search_terms s = (Ok dict_list, s') →
     r ∈ dict_list → field s' "username" r = Some (PStr user) →
     occurrences r dict_list = occurrences user usernames) ∧
  pre_verification W usernames search_terms s =
  pre_verification W (first_seen usernames) search_terms s.
Proof.
  split.
  - intros dict_list s' r user. apply accumulated_once_per_entry.
  - unfold pre_verification. rewrite !(bind_run (print _)).
    unfold print at 1 3. cbv iota beta.
    rewrite !(bind_run (if decide _ then _ else _)).
    destruct (decide (50 < length search_terms)); apply deduplicated_first_seen.
Qed.

Lemma duplicate_usernames_are_harmless_witness :
  let us := ["Alice"; "Bob"; "Alice"] in
  let run := query_aggregator demo us ["linux"] start in
  run.1 = Ok [1; 0; 1] ∧
  field run.2 "username" 1 = Some (PStr "Alice") ∧
  occurrences 1 [1; 0; 1] = occurrences "Alice" us ∧
  first_seen us = ["Alice"; "Bob"] ∧
  pre_verification demo us ["linux"] start =
  pre_verification demo ["Alice"; "Bob"] ["linux"] start.
Proof.
  cbv zeta.
  assert (query_aggregator demo ["Alice"; "Bob"; "Alice"] ["linux"] start
          = (Ok [1; 0; 1],
             (query_aggregator demo ["Alice"; "Bob"; "Alice"] ["linux"] start).2)) as Hrun
    by (vm_compute; reflexivity).
  assert (field (query_aggregator demo ["Alice"; "Bob"; "Alice"] ["linux"] start).2
            "username" 1 = Some (PStr "Alice")) as Hu by (vm_compute; reflexivity).
  split; [vm_compute; reflexivity|]. split; [exact Hu|].
  destruct (duplicate_usernames_are_harmless demo ["Alice"; "Bob"; "Alice"] ["linux"] start)
    as [Honce Hsame].
  split; [|split; [reflexivity|exact Hsame]].
  apply (Honce _ _ 1 "Alice" Hrun); [|exact Hu].
  apply (bool_decide_unpack _). vm_compute. exact I.
Defined.

(** * Further properties of the code *)

(** ** The batch of probes, request by request *)

Lemma batch_lookup (tasks : list string) i url :
  tasks !! i = Some url →
  zip (seq 0 (length tasks)) tasks !! i = Some (i, url).
Proof.
  intros Hi. apply lookup_zip_with_Some. exists i, url. split_and!; [done| |done].
  apply lookup_seq. split; [done|]. by eapply lookup_lt_Some.
Qed.

(** X1.  [asyncio.gather] either raises, and then one of the requests of the
    batch raised, or returns one status per task, the status at position
    [i] being the answer to task [i]: in which order the requests complete
    ([arrival]) has no part in the outcome.  Either way the batch took one
    unit of time and changed nothing else. *)
Theorem gather_in_task_order W tasks s :
  (∃ i url, tasks !! i = Some url ∧ torrent_page W (clock s) i url = None ∧
            gather W tasks s = (Raise ClientError, tick s)) ∨
  (∃ codes, gather W tasks s = (Ok codes, tick s) ∧ length codes = length tasks ∧
            ∀ i url, tasks !! i = Some url →
                     torrent_page W (clock s) i url = codes !! i).
Proof.
  rewrite gather_batch. destruct (batch W (clock s) tasks) as [codes|] eqn:Hb.
  - right. exists codes. split_and!; [done|by eapply batch_length|].
    intros i url Hi. unfold batch in Hb. apply mapM_Some in Hb.
    destruct (Forall2_lookup_l _ _ _ _ _ Hb (batch_lookup _ _ _ Hi))
      as (c & -> & Hc). done.
  - left. unfold batch in Hb. apply mapM_None, Exists_exists in Hb as ([i url] & Hp & Hn).
    apply list_elem_of_lookup in Hp as [j Hj].
    apply lookup_zip_with_Some in Hj as (i' & url' & [= -> ->] & Hs & Ht).
    apply lookup_seq in Hs as [-> _]. simpl in *. by exists j, url'.
Qed.

(** ** The retries of the liveness check *)

Lemma retry_messages_S first k :
  retry_messages first (S k) =
  [Say ("Attempt: " +:+ pretty first +:+ "/3"); Say try_again] ++ retry_messages (S first) k.
Proof. reflexivity. Qed.

Lemma try_except_no_raise {A} (body handler : M A) s :
  (∀ e, (body s).1 ≠ Raise e) → try_except body handler s = body s.
Proof.
  intros H. unfold try_except. destruct (body s) as [[a|e|] s1]; try done.
  by destruct (H e).
Qed.

Lemma liveness_no_raise W fuel rounds counter unique_list s :
  (∀ e, (attempt W fuel unique_list s).1 ≠ Raise e) →
  liveness_checker W fuel rounds counter unique_list s = attempt W fuel unique_list s.
Proof. intros H. destruct rounds; cbn [liveness_checker]; by apply try_except_no_raise. Qed.

Lemma liveness_after_raise W fuel rounds counter unique_list s e s1 :
  attempt W fuel unique_list s = (Raise e, s1) → counter < 3 →
  liveness_checker W fuel (S rounds) counter unique_list s =
  liveness_checker W fuel rounds (S counter) unique_list
    (emit (Say try_again) (emit (Say ("Attempt: " +:+ pretty (S counter) +:+ "/3")) s1)).
Proof.
  intros Ha Hc. cbn [liveness_checker]. unfold try_except at 1. rewrite Ha.
  rewrite decide_False by lia. by rewrite Nat.add_1_r.
Qed.

Lemma liveness_last_raise W fuel rounds counter unique_list s e s1 :
  attempt W fuel unique_list s = (Raise e, s1) → 3 ≤ counter →
  liveness_checker W fuel rounds counter unique_list s =
  sorter W fuel unique_list (emit (Say could_not_filter) s1).
Proof.
  intros Ha Hc. destruct rounds; cbn [liveness_checker]; unfold try_except;
    rewrite Ha; by rewrite decide_True by lia.
Qed.

Lemma field_same_heap s s' key r : heap s' = heap s → field s' key r = field s key r.
Proof. unfold field. by intros ->. Qed.

(** [k] failed batches in a row, from a counter that leaves room for them. *)
Lemma liveness_failed_batches W fuel unique_list ids : ∀ k counter rounds s,
  counter + k ≤ 3 → k ≤ rounds →
  Forall2 (λ r id, field s "id" r = Some id) unique_list ids →
  (∀ j, j < k → batch W (clock s + j) (map (task_url (PIRATE_URL s)) ids) = None) →
  ∃ sk,
    heap sk = heap s ∧ clock sk = clock s + k ∧ PIRATE_URL sk = PIRATE_URL s ∧
    out sk = out s ++ retry_messages (S counter) k ∧
    liveness_checker W fuel rounds counter unique_list s =
    liveness_checker W fuel (rounds - k) (counter + k) unique_list sk.
Proof.
  induction k as [|k IH]; intros counter rounds s Hc Hr Hids Hfail.
  - exists s. rewrite !Nat.add_0_r, Nat.sub_0_r. split_and!; try done.
    unfold retry_messages. cbn [seq flat_map]. by rewrite app_nil_r.
  - destruct rounds as [|rounds]; [lia|].
    destruct (attempt_failed_proj (S counter) s) as (Hh & Hcl & Hu & Ho).
    set (s1 := attempt_failed (S counter) s) in *.
    destruct (IH (S counter) rounds s1) as (sk & Hkh & Hkc & Hku & Hko & Hk); [lia|lia|..].
    { eapply Forall2_impl; [exact Hids|]. intros r id. by rewrite (field_same_heap s s1). }
    { intros j Hj. rewrite Hcl, Hu. replace (S (clock s) + j) with (clock s + S j) by lia.
      apply Hfail. lia. }
    exists sk. split_and!; [congruence|lia|congruence| |].
    + rewrite Hko, Ho, retry_messages_S. by rewrite <-!app_assoc.
    + rewrite (liveness_retry W fuel rounds counter unique_list ids s); [|lia|done|].
      * fold s1. rewrite Hk. f_equal; lia.
      * rewrite <-(Nat.add_0_r (clock s)). apply Hfail. lia.
Qed.

Lemma liveness_retry_then_success W fuel unique_list ids codes s k :
  k ≤ 3 → NoDup unique_list →
  Forall2 (λ r id, field s "id" r = Some id) unique_list ids →
  (∀ j, j < k → batch W (clock s + j) (map (task_url (PIRATE_URL s)) ids) = None) →
  batch W (clock s + k) (map (task_url (PIRATE_URL s)) ids) = Some codes →
  ∃ s',
    let working_list := (filter (λ p, p.2 ≠ 404%Z) (zip unique_list codes)).*1 in
    Forall2 (λ r status, field s' "code" r = Some (PInt status)) unique_list codes ∧
    clock s' = clock s + S k ∧
    out s' = out s ++ retry_messages 1 k ++ [found_working working_list] ∧
    ((∀ e, (sorter W fuel working_list s').1 ≠ Raise e) →
     liveness_checker W fuel 3 0 unique_list s = sorter W fuel working_list s').
Proof.
  intros Hk Hnd Hids Hfail Hok.
  destruct (liveness_failed_batches W fuel unique_list ids k 0 3 s)
    as (sk & Hkh & Hkc & Hku & Hko & Hlive); [lia|lia|done|done|].
  destruct (check_urls_ok W unique_list ids codes sk) as (s1 & Hcheck & Hmod & Hcodes & _).
  { done. }
  { eapply Forall2_impl; [exact Hids|]. intros r id. by rewrite (field_same_heap s sk). }
  { by rewrite Hkc, Hku. }
  set (working_list := (filter (λ p, p.2 ≠ 404%Z) (zip unique_list codes)).*1).
  assert (attempt W fuel unique_list sk =
          sorter W fuel working_list (emit (found_working working_list) s1)) as Hatt.
  { unfold attempt. rewrite (bind_ok _ _ _ _ _ Hcheck).
    rewrite (bind_ok _ _ _ _ _ (comprehension_if_not_404 _ _ _ Hcodes)).
    fold working_list. reflexivity. }
  exists (emit (found_working working_list) s1). cbv zeta. fold working_list.
  destruct Hmod as (Hmc & Hmo & Hmu & Hmh).
  split_and!.
  - eapply Forall2_impl; [exact Hcodes|]. intros r c. by rewrite (field_same_heap s1 (emit _ s1)).
  - cbn [clock emit tick] in *. lia.
  - cbn [out emit tick] in *. rewrite Hmo, Hko. by rewrite <-app_assoc.
  - intros Hsort. rewrite Hlive, liveness_no_raise; rewrite Hatt; done.
Qed.

(** X2.  When the first [k] batches of probes fail ([k] at most 3) and the
    next one answers, [search] prints the [k] retry messages, gives every
    record of the deduplicated list the status of its own probe as [code],
    announces the number of records whose status is not 404 and, unless the
    Sorter or the display themselves raise, ends as the Sorter run on those
    records: the earlier failures leave no trace but their messages. *)
Theorem search_retry_then_success
    W fuel usernames search_terms s unique_list s1 ids codes k :
  pre_verification W usernames search_terms s = (Ok unique_list, s1) →
  k ≤ 3 →
  Forall2 (λ r id, field s1 "id" r = Some id) unique_list ids →
  (∀ j, j < k → batch W (clock s1 + j) (map (task_url (PIRATE_URL s1)) ids) = None) →
  batch W (clock s1 + k) (map (task_url (PIRATE_URL s1)) ids) = Some codes →
  ∃ s',
    let working_list := (filter (λ p, p.2 ≠ 404%Z) (zip unique_list codes)).*1 in
    Forall2 (λ r status, field s' "code" r = Some (PInt status)) unique_list codes ∧
    clock s' = clock s1 + S k ∧
    out s' = out (announced unique_list s1) ++ retry_messages 1 k ++
             [found_working working_list] ∧
    ((∀ e, (sorter W fuel working_list s').1 ≠ Raise e) →
     search W fuel usernames search_terms s = sorter W fuel working_list s').
Proof.
  intros Hpre Hk Hids Hfail Hok.
  assert (NoDup unique_list) as Hnd.
  { pose proof Hpre as (s0 & dl & _ & _ & _ & _ & Hd)%pre_verification_inv.
    apply deduplicator_refs in Hd as [Hnd _]; [done|constructor]. }
  destruct (announced_proj unique_list s1) as (Hah & Hac & Hau & Hao).
  set (sa := announced unique_list s1) in *.
  destruct (liveness_retry_then_success W fuel unique_list ids codes sa k)
    as (s' & Hcodes & Hclock & Hout & Hrun); [done|done|..].
  { eapply Forall2_impl; [exact Hids|]. intros r id. by rewrite (field_same_heap s1 sa). }
  { intros j Hj. rewrite Hac, Hau. by apply Hfail. }
  { by rewrite Hac, Hau. }
  exists s'. cbv zeta in *. split_and!; [done|congruence|done|].
  intros Hsort. rewrite search_stages, Hpre. fold sa. by apply Hrun.
Qed.

Lemma search_retry_then_success_witness :
  let run := pre_verification second_batch_answers ["Alice"] ["linux"] start in
  run.1 = Ok [1] ∧
  batch second_batch_answers (clock run.2 + 0)
        (map (task_url (PIRATE_URL run.2)) [PStr "12"]) = None ∧
  batch second_batch_answers (clock run.2 + 1)
        (map (task_url (PIRATE_URL run.2)) [PStr "12"]) = Some [200%Z] ∧
  ∃ s',
    let working_list := (filter (λ p, p.2 ≠ 404%Z) (zip [1] [200%Z])).*1 in
    Forall2 (λ r status, field s' "code" r = Some (PInt status)) [1] [200%Z] ∧
    clock s' = clock run.2 + 2 ∧
    out s' = out (announced [1] run.2) ++ retry_messages 1 1 ++
             [found_working working_list] ∧
    ((∀ e, (sorter second_batch_answers 5 working_list s').1 ≠ Raise e) →
     search second_batch_answers 5 ["Alice"] ["linux"] start =
     sorter second_batch_answers 5 working_list s').
Proof.
  split; [vm_compute; reflexivity|].
  split; [vm_compute; reflexivity|].
  split; [vm_compute; reflexivity|].
  apply (search_retry_then_success second_batch_answers 5 ["Alice"] ["linux"] start [1]
           (pre_verification second_batch_answers ["Alice"] ["linux"] start).2
           [PStr "12"] [200%Z] 1).
  - vm_compute. reflexivity.
  - lia.
  - repeat constructor.
  - intros j Hj. destruct j; [vm_compute; reflexivity|lia].
  - vm_compute. reflexivity.
Defined.

(** ** Records without an [id] *)

Lemma get_tasks_raises item_list s e :
  first_error s "id" item_list = Some e → get_tasks item_list s = (Raise e, s).
Proof.
  unfold get_tasks. induction item_list as [|r l IH]; [done|].
  cbn [first_error comprehension]. intros H.
  rewrite bind_run, bind_run. unfold getitem at 1.
  destruct (heap s !! r) as [d|]; [|by injection H as <-].
  destruct (d !! "id") as [v|]; [|by injection H as <-].
  rewrite bind_run, (IH H). done.
Qed.

Lemma first_error_same_heap s s' key l :
  heap s' = heap s → first_error s' key l = first_error s key l.
Proof. intros Hh. induction l as [|r l IH]; [done|]. cbn [first_error]. by rewrite Hh, IH. Qed.

Lemma attempt_no_id W fuel unique_list s e :
  first_error s "id" unique_list = Some e →
  attempt W fuel unique_list s = (Raise e, s).
Proof.
  intros H. unfold attempt, check_urls.
  by rewrite bind_run, bind_run, (get_tasks_raises _ _ _ H).
Qed.

Lemma liveness_no_id W fuel unique_list e : ∀ k counter rounds s,
  counter + k ≤ 3 → k ≤ rounds →
  first_error s "id" unique_list = Some e →
  ∃ sk,
    heap sk = heap s ∧ clock sk = clock s ∧ PIRATE_URL sk = PIRATE_URL s ∧
    out sk = out s ++ retry_messages (S counter) k ∧
    liveness_checker W fuel rounds counter unique_list s =
    liveness_checker W fuel (rounds - k) (counter + k) unique_list sk.
Proof.
  induction k as [|k IH]; intros counter rounds s Hc Hr He.
  - exists s. rewrite !Nat.add_0_r, Nat.sub_0_r. split_and!; try done.
    unfold retry_messages. cbn [seq flat_map]. by rewrite app_nil_r.
  - destruct rounds as [|rounds]; [lia|].
    set (s1 := emit (Say try_again) (emit (Say ("Attempt: " +:+ pretty (S counter) +:+ "/3")) s)).
    destruct (IH (S counter) rounds s1) as (sk & Hkh & Hkc & Hku & Hko & Hk); [lia|lia|..].
    { by rewrite (first_error_same_heap s s1). }
    exists sk. split_and!; [done|done|done| |].
    + rewrite Hko, retry_messages_S. unfold s1, emit. cbn [out]. by rewrite <-!app_assoc.
    + rewrite (liveness_after_raise W fuel rounds counter unique_list s e s);
        [|by apply attempt_no_id|lia].
      fold s1. rewrite Hk. f_equal; lia.
Qed.

(** X3.  When reading [id] fails for a record of the deduplicated list (the
    listing has no such key), every attempt of the liveness check raises
    while the probe URLs are being built: no probe is ever sent (the clock
    does not move), the three retry messages and the fallback message are
    printed, and the Sorter gets the whole deduplicated list, the record
    without [id] included and no record with a [code]. *)
Theorem missing_id_gives_up W fuel usernames search_terms s unique_list s1 e :
  pre_verification W usernames search_terms s = (Ok unique_list, s1) →
  first_error s1 "id" unique_list = Some e →
  ∃ s4,
    search W fuel usernames search_terms s = sorter W fuel unique_list s4 ∧
    heap s4 = heap s1 ∧ clock s4 = clock s1 ∧
    out s4 = out s1 ++ fallback_messages unique_list.
Proof.
  intros Hpre He. rewrite search_stages, Hpre.
  destruct (announced_proj unique_list s1) as (Hah & Hac & Hau & Hao).
  set (sa := announced unique_list s1) in *.
  destruct (liveness_no_id W fuel unique_list e 3 0 3 sa)
    as (sk & Hkh & Hkc & Hku & Hko & Hlive); [lia|lia|..].
  { by rewrite (first_error_same_heap s1 sa). }
  exists (emit (Say could_not_filter) sk). split_and!.
  - rewrite Hlive. apply liveness_last_raise with e; [|lia].
    apply attempt_no_id. rewrite (first_error_same_heap s1 sk); [done|congruence].
  - cbn [heap emit]. congruence.
  - cbn [clock emit]. congruence.
  - cbn [out emit]. rewrite Hko, Hao. unfold fallback_messages, retry_messages.
    rewrite <-!app_assoc. reflexivity.
Qed.

Lemma missing_id_gives_up_witness :
  let run := pre_verification without_id ["Alice"] ["linux"] start in
  run.1 = Ok [0] ∧
  first_error run.2 "id" [0] = Some (KeyError "id") ∧
  ∃ s4,
    search without_id 5 ["Alice"] ["linux"] start = sorter without_id 5 [0] s4 ∧
    heap s4 = heap run.2 ∧ clock s4 = clock run.2 ∧
    out s4 = out run.2 ++ fallback_messages [0].
Proof.
  split; [vm_compute; reflexivity|].
  split; [vm_compute; reflexivity|].
  apply (missing_id_gives_up without_id 5 ["Alice"] ["linux"] start [0]
           (pre_verification without_id ["Alice"] ["linux"] start).2 (KeyError "id")).
  - vm_compute. reflexivity.
  - vm_compute. reflexivity.
Defined.

(** ** A search that finds nothing *)

Lemma attempt_nil W fuel s :
  attempt W fuel [] s = sorter W fuel [] (emit (found_working []) (tick s)).
Proof.
  unfold attempt, check_urls. rewrite bind_run, bind_run.
  change (get_tasks [] s) with (Ok (@nil string), s). cbv iota beta.
  rewrite bind_run, gather_batch. reflexivity.
Qed.

(** X4.  When no record is left for the liveness check, the batch of probes
    is empty and cannot fail: whatever the probed site would answer,
    [search] prints that it found 0 working results and, unless the Sorter
    raises, ends as the Sorter run on the empty list, after one (empty)
    batch, without any retry or fallback message. *)
Theorem nothing_found W fuel usernames search_terms s s1 :
  pre_verification W usernames search_terms s = (Ok [], s1) →
  let s2 := emit (found_working []) (tick (announced [] s1)) in
  (∀ e, (sorter W fuel [] s2).1 ≠ Raise e) →
  search W fuel usernames search_terms s = sorter W fuel [] s2.
Proof.
  intros Hpre s2 Hsort.
  rewrite search_stages, Hpre, liveness_no_raise; rewrite attempt_nil; done.
Qed.

Lemma nothing_found_witness :
  let run := pre_verification unreachable ["Carol"] ["linux"] start in
  let s2 := emit (found_working []) (tick (announced [] run.2)) in
  run.1 = Ok [] ∧
  (∀ e, (sorter unreachable 5 [] s2).1 ≠ Raise e) ∧
  search unreachable 5 ["Carol"] ["linux"] start = sorter unreachable 5 [] s2.
Proof.
  assert (∀ e, (sorter unreachable 5 []
                  (emit (found_working [])
                     (tick (announced []
                        (pre_verification unreachable ["Carol"] ["linux"] start).2)))).1
               ≠ Raise e) as Hsort.
  { intros e. vm_compute. discriminate. }
  split; [vm_compute; reflexivity|].
  split; [exact Hsort|].
  apply (nothing_found unreachable 5 ["Carol"] ["linux"] start
           (pre_verification unreachable ["Carol"] ["linux"] start).2).
  - vm_compute. reflexivity.
  - exact Hsort.
Defined.

(** ** The conversion of the numeric fields, value by value *)

Lemma py_int_value W v s n s' :
  py_int W v s = (Ok n, s') → ∃ z, int_value W v = Some z ∧ n = PInt z.
Proof.
  destruct v as [x|z]; simpl; [|intros [= <- _]; eauto].
  destruct (int_of_str W x); intros [= <- _]; eauto.
Qed.

Lemma to_int_value W key item s s' :
  to_int W key item s = (Ok tt, s') →
  ∃ v z, field s key item = Some v ∧ int_value W v = Some z ∧
         field s' key item = Some (PInt z).
Proof.
  unfold to_int. intros H.
  apply bind_ok_inv in H as (v & s1 & Hget & H).
  pose proof (getitem_field _ _ _ _ _ Hget) as Hv. apply getitem_state in Hget as ->.
  apply bind_ok_inv in H as (n & s1 & Hint & H).
  destruct (py_int_value _ _ _ _ _ Hint) as (z & Hz & ->). apply py_int_state in Hint as ->.
  exists v, z. split_and!; [done..|]. by eapply setitem_field.
Qed.

Lemma to_int_converted W s0 key item s s' :
  converted W s0 s → to_int W key item s = (Ok tt, s') → converted W s0 s'.
Proof.
  intros Hinv H r k.
  destruct (decide ((r, k) = (item, key))) as [[= -> ->]|Hne].
  - destruct (to_int_value _ _ _ _ _ H) as (v & z & Hv & Hz & Hz').
    destruct (Hinv item key) as [Hraw|(v0 & z0 & Hv0 & Hz0 & Hcur)]; right.
    + exists v, z. by rewrite <-Hraw.
    + exists v0, z0. rewrite Hcur in Hv. injection Hv as <-. simpl in Hz.
      injection Hz as <-. done.
  - apply to_int_ok in H as [_ Hother]. rewrite Hother by done. apply Hinv.
Qed.

Lemma for_each_convert_converted W s0 l : ∀ s s',
  converted W s0 s → for_each l (convert W) s = (Ok tt, s') → converted W s0 s'.
Proof.
  induction l as [|x l IH]; intros s s' Hinv; simpl; [by intros [= <-]|].
  intros H. apply bind_ok_inv in H as ([] & s1 & H1 & H).
  apply convert_inv in H1 as (sa & sb & Ha & Hb & Hc).
  eapply IH; [|done]. eauto using to_int_converted.
Qed.

Lemma accumulated_raw W usernames search_terms s c s1 r :
  for_terms W search_terms usernames [] s = (Ok c, s1) → r ∈ concat c →
  ∃ t term data (d : dict), q_php W t term = Some data ∧ d ∈ data ∧ heap s1 !! r = Some d.
Proof.
  intros (datas & Hresp & Hheap & _ & _ & _ & ->)%for_terms_ok Hr.
  rewrite app_nil_l in Hr.
  apply list_elem_of_In, in_concat in Hr as (l & Hl & Hr).
  apply in_concat in Hl as (ls & Hls & Hl).
  apply in_map_iff in Hls as (block & <- & Hblock).
  apply in_map_iff in Hl as (user & <- & _).
  apply list_elem_of_In, list_elem_of_filter in Hr as [_ Hr].
  apply list_elem_of_In, list_elem_of_lookup in Hblock as [i Hi].
  pose proof (blocks_points_to (heap s) datas) as Hb. rewrite <-Hheap in Hb.
  destruct (Forall2_lookup_l _ _ _ _ _ Hb Hi) as (data & Hdata & Hbd).
  apply list_elem_of_lookup in Hr as [j Hj].
  destruct (Forall2_lookup_l _ _ _ _ _ Hbd Hj) as (d & Hd & Hrd).
  destruct (responses_elem W search_terms (clock s) datas data) as (t & term & Hq);
    [done|by eapply list_elem_of_lookup_2|].
  exists t, term, data, d. split_and!; [done|by eapply list_elem_of_lookup_2|done].
Qed.

(** X5.  Every record of the accumulated list is a listing decoded from one
    of the responses in which [added], [seeders] and [size] were replaced
    by their [int] (the integer itself when the response already held one)
    and nothing else was changed, however often the record occurs in the
    list and is converted again. *)
Theorem converted_from_response W usernames search_terms s dict_list s' :
  query_aggregator W usernames search_terms s = (Ok dict_list, s') →
  ∀ r, r ∈ dict_list →
    ∃ t term data (d d' : dict),
      q_php W t term = Some data ∧ d ∈ data ∧ heap s' !! r = Some d' ∧
      (∀ k, k ∉ numeric_keys → d' !! k = d !! k) ∧
      (∀ key, key ∈ numeric_keys →
         ∃ v z, d !! key = Some v ∧ int_value W v = Some z ∧
                d' !! key = Some (PInt z)).
Proof.
  unfold query_aggregator. intros H r Hr.
  apply bind_ok_inv in H as (c & s1 & Hterms & H). cbv zeta in H.
  apply bind_ok_inv in H as ([] & s2 & Hconv & [= <- <-]).
  pose proof (for_each_convert_numeric _ _ _ _ Hconv r Hr) as Hnum.
  assert (converted W s1 s2) as Hinv.
  { eapply for_each_convert_converted; [|done]. intros ? ?. by left. }
  destruct (for_each_convert_modifies _ _ _ _ _ Hconv) as (_ & _ & _ & Hh).
  rewrite concat_non_empty in Hr.
  destruct (accumulated_raw _ _ _ _ _ _ _ Hterms Hr) as (t & term & data & d & Hq & Hd & Hrd).
  destruct (Forall2_lookup_l _ _ _ _ _ Hh Hrd) as (d' & Hd' & Hk).
  exists t, term, data, d, d'. split_and!; [done..|].
  intros key Hkey.
  assert (int_field s2 key r) as [z Hz].
  { destruct Hnum as (Ha & Hs & Hz). unfold numeric_keys in Hkey.
    repeat (apply elem_of_cons in Hkey as [->|Hkey]; [done|]). by apply elem_of_nil in Hkey. }
  unfold field in Hz. rewrite Hd' in Hz. simpl in Hz.
  destruct (Hinv r key) as [Hraw|(v0 & z0 & Hv0 & Hz0 & Hcur)]; unfold field in *;
    rewrite ?Hd', ?Hrd in *; simpl in *.
  - exists (PInt z), z. split_and!; [congruence|done|done].
  - exists v0, z0. done.
Qed.

Lemma converted_from_response_witness :
  let run := query_aggregator demo ["Alice"; "Bob"] ["linux"] start in
  run = (Ok [1; 0], run.2) ∧
  1 ∈ [1; 0] ∧
  ∃ t term data (d d' : dict),
    q_php demo t term = Some data ∧ d ∈ data ∧ heap run.2 !! 1 = Some d' ∧
    (∀ k, k ∉ numeric_keys → d' !! k = d !! k) ∧
    (∀ key, key ∈ numeric_keys →
       ∃ v z, d !! key = Some v ∧ int_value demo v = Some z ∧
              d' !! key = Some (PInt z)).
Proof.
  split; [vm_compute; reflexivity|].
  split; [repeat constructor|].
  apply (converted_from_response demo ["Alice"; "Bob"] ["linux"] start [1; 0]
           (query_aggregator demo ["Alice"; "Bob"] ["linux"] start).2).
  - vm_compute. reflexivity.
  - repeat constructor.
Defined.

(** ** Listings without a [username] *)

Lemma first_error_missing s key l r (d : dict) :
  r ∈ l → heap s !! r = Some d → d !! key = None → is_Some (first_error s key l).
Proof.
  intros Hr Hd Hk. induction l as [|x l IH]; [by apply elem_of_nil in Hr|].
  cbn [first_error]. destruct (decide (x = r)) as [->|Hne].
  - by rewrite Hd, Hk.
  - apply elem_of_cons in Hr as [->|Hr]; [done|].
    destruct (heap s !! x) as [dx|]; [|done]. destruct (dx !! key); [by apply IH|done].
Qed.

Lemma first_error_in_store s key l e :
  (∀ r, r ∈ l → r < length (heap s)) → first_error s key l = Some e → e = KeyError key.
Proof.
  induction l as [|x l IH]; intros Hl; [done|]. cbn [first_error].
  destruct (lookup_lt_is_Some_2 (heap s) x) as [d ->]; [apply Hl; by left|].
  destruct (d !! key); [|by intros [= <-]]. apply IH. intros r Hr. apply Hl. by right.
Qed.

Lemma first_error_new_block s key data e :
  first_error (tick (set_heap (heap s ++ data) s)) key
              (seq (length (heap s)) (length data)) = Some e →
  e = KeyError key.
Proof.
  apply first_error_in_store. intros r Hr%elem_of_seq. simpl. rewrite length_app. lia.
Qed.

Lemma for_terms_missing_username W usernames search_terms :
  usernames ≠ [] →
  ∀ acc s i term data (d : dict),
    search_terms !! i = Some term → q_php W (clock s + i) term = Some data →
    d ∈ data → d !! "username" = None →
    ∃ e s', for_terms W search_terms usernames acc s = (Raise e, s') ∧
            (e = RequestError ∨ e = KeyError "username") ∧
            clock s' ≤ clock s + S i ∧ out s' = out s.
Proof.
  intros Hus.
  induction search_terms as [|term0 rest IH]; intros acc s i term data d Hi Hq Hd Hk; [done|].
  rewrite for_terms_cons. destruct i as [|i]; simpl in Hi.
  - injection Hi as ->. rewrite Nat.add_0_r in Hq. rewrite Hq. cbv zeta.
    set (s1 := tick (set_heap (heap s ++ data) s)).
    destruct usernames as [|user us]; [done|].
    destruct (first_error s1 "username" (seq (length (heap s)) (length data))) as [e|] eqn:He.
    { eexists _, _. split; [done|]. apply first_error_new_block in He. simpl.
      split_and!; [by right|lia|done]. }
    apply list_elem_of_lookup in Hd as [j Hj].
    destruct (first_error_missing s1 "username" (seq (length (heap s)) (length data))
                (length (heap s) + j) d) as [e' He'].
    + apply elem_of_seq. apply lookup_lt_Some in Hj. lia.
    + simpl. by rewrite lookup_app_r, Nat.add_comm, Nat.add_sub by lia.
    + done.
    + congruence.
  - destruct (q_php W (clock s) term0) as [data0|].
    2:{ eexists _, _. split; [done|]. simpl. split_and!; [by left|lia|done]. }
    cbv zeta. set (s1 := tick (set_heap (heap s ++ data0) s)).
    assert (∀ acc1, ∃ e s',
      for_terms W rest usernames acc1 s1 = (Raise e, s') ∧
      (e = RequestError ∨ e = KeyError "username") ∧
      clock s' ≤ clock s + S (S i) ∧ out s' = out s) as Hrest.
    { intros acc1. destruct (IH acc1 s1 i term data d Hi) as (e & s' & Hrun & He & Hc & Ho);
        [|done..|].
      { rewrite <-Hq. f_equal. simpl. lia. }
      exists e, s'. split; [done|]. simpl in Hc. split_and!; [done|lia|done]. }
    destruct usernames as [|user us]; [apply Hrest|].
    destruct (first_error s1 "username" _) as [e|] eqn:He; [|apply Hrest].
    eexists _, _. split; [done|]. apply first_error_new_block in He. simpl.
    split_and!; [by right|lia|done].
Qed.

Lemma search_accumulation_raises W fuel usernames search_terms s e s' :
  for_terms W search_terms usernames []
    (mkState (heap s) (clock s) (out s ++ banner search_terms) (PIRATE_URL s)) = (Raise e, s') →
  search W fuel usernames search_terms s = (Raise e, s').
Proof.
  intros Hrun.
  set (s0 := mkState (heap s) (clock s) (out s ++ banner search_terms) (PIRATE_URL s)) in *.
  rewrite search_stages. unfold pre_verification.
  erewrite bind_ok by reflexivity.
  assert ((if decide (50 < length search_terms)
           then print ("This may take a moment if using many search terms." +:+ LF)
           else ret tt)
            (emit (Say (LF +:+ "Searching...please wait a moment." +:+ LF)) s)
          = (Ok tt, s0)) as Hb.
  { unfold s0, banner, print, emit, ret. destruct (decide _); cbn [heap clock out PIRATE_URL];
      by rewrite <-?app_assoc. }
  erewrite bind_ok by exact Hb.
  unfold query_aggregator. rewrite !bind_assoc.
  by erewrite bind_raise by exact Hrun.
Qed.

(** X6.  When identities were given and a listing of the response to some
    term has no [username], [search] ends with an exception, a
    [RequestError] of an earlier query or the [KeyError] of the missing
    key: no term after that one is queried, nothing is printed after the
    first messages and no record reaches the later stages. *)
Theorem listing_without_username_aborts_search
    W fuel usernames search_terms s i term data (d : dict) :
  usernames ≠ [] →
  search_terms !! i = Some term → q_php W (clock s + i) term = Some data →
  d ∈ data → d !! "username" = None →
  ∃ e s',
    search W fuel usernames search_terms s = (Raise e, s') ∧
    (e = RequestError ∨ e = KeyError "username") ∧
    clock s' ≤ clock s + S i ∧
    out s' = out s ++ banner search_terms.
Proof.
  intros Hus Hi Hq Hd Hk.
  destruct (for_terms_missing_username W usernames search_terms Hus []
              (mkState (heap s) (clock s) (out s ++ banner search_terms) (PIRATE_URL s))
              i term data d Hi Hq Hd Hk) as (e & s' & Hrun & He & Hc & Ho).
  exists e, s'. split; [|done]. by apply search_accumulation_raises.
Qed.

Lemma listing_without_username_aborts_search_witness :
  ["Alice"] ≠ [] ∧
  ["linux"; "bsd"] !! 0 = Some "linux" ∧
  (∃ data (d : dict),
     q_php without_username (clock start + 0) "linux" = Some data ∧
     d ∈ data ∧ d !! "username" = None) ∧
  ∃ e s',
    search without_username 5 ["Alice"] ["linux"; "bsd"] start = (Raise e, s') ∧
    (e = RequestError ∨ e = KeyError "username") ∧
    clock s' ≤ clock start + 1 ∧
    out s' = out start ++ banner ["linux"; "bsd"].
Proof.
  split; [done|]. split; [reflexivity|].
  split.
  - eexists _, (delete "username" (listing "12" "debian" "Alice" "650" "20" "9")).
    split; [reflexivity|]. split; [|vm_compute; reflexivity].
    apply elem_of_cons. right. apply elem_of_cons. by left.
  - apply (listing_without_username_aborts_search without_username 5 ["Alice"]
             ["linux"; "bsd"] start 0 "linux"
             [listing "11" "ubuntu" "Bob" "700" "10" "5";
              delete "username" (listing "12" "debian" "Alice" "650" "20" "9")]
             (delete "username" (listing "12" "debian" "Alice" "650" "20" "9"))).
    + done.
    + reflexivity.
    + reflexivity.
    + apply elem_of_cons. right. apply elem_of_cons. by left.
    + vm_compute. reflexivity.
Defined.

(** ** The sorted list is in order *)

Lemma key_le_trans x y z :
  same_kind x.1 y.1 → same_kind y.1 z.1 → key_le x y → key_le y z → key_le x z.
Proof.
  unfold key_le. intros Hxy Hyz Hle1 Hle2.
  destruct (py_ltb z.1 x.1) eqn:Hzx; [|done].
  destruct (decide (x.1 = y.1)) as [Heq|Hne]; [congruence|].
  destruct (py_ltb_total _ _ Hxy Hne) as [Hlt|Hlt]; [|congruence].
  by rewrite (py_ltb_trans _ _ _ Hzx Hlt) in Hle2.
Qed.

Lemma insert_total_sorted x l :
  Forall (λ y, same_kind y.1 x.1) l →
  (∀ y z, y ∈ l → z ∈ l → same_kind y.1 z.1) →
  StronglySorted key_le l → StronglySorted key_le (insert_total x l).
Proof.
  induction l as [|y l IH]; intros Hx Hk Hs; simpl.
  - repeat constructor.
  - apply Forall_cons in Hx as [Hyx Hx]. apply StronglySorted_inv in Hs as [Hs Hy].
    destruct (py_ltb y.1 x.1) eqn:Hlt.
    + constructor.
      * apply IH; [done| |done]. intros ????. apply Hk; by right.
      * rewrite insert_total_perm. constructor; [|done].
        unfold key_le. by apply py_ltb_asym.
    + constructor; [by constructor|]. constructor; [done|].
      rewrite Forall_forall in Hy, Hx |- *. intros z Hz.
      apply key_le_trans with y; [by apply same_kind_sym| |done|by apply Hy].
      apply Hk; [by left|by right].
Qed.

Lemma sort_total_sorted l : one_kind l → StronglySorted key_le (sort_total l).
Proof.
  induction l as [|x l IH]; intros Hk; simpl; [constructor|].
  apply insert_total_sorted.
  - rewrite Forall_forall. intros y Hy. rewrite sort_total_perm in Hy.
    apply Hk; [by right|by left].
  - intros y z Hy Hz. rewrite sort_total_perm in Hy, Hz. apply Hk; by right.
  - apply IH. intros y z Hy Hz. apply Hk; by right.
Qed.

Lemma StronglySorted_lookup {A} (R : A → A → Prop) l i j x y :
  StronglySorted R l → i < j → l !! i = Some x → l !! j = Some y → R x y.
Proof.
  intros Hs. revert i j. induction Hs as [|a l Hs IH Ha]; intros i j Hij Hi Hj; [done|].
  destruct j as [|j]; [lia|]. destruct i as [|i]; simpl in *.
  - injection Hi as ->. rewrite Forall_forall in Ha. apply Ha. by eapply list_elem_of_lookup_2.
  - eapply IH; [|done..]. lia.
Qed.

(** X7.  The list [sorted] returns is in order: of two records of the
    result, the later one never has the larger key when [reverse=True]
    (newest, most seeded, largest first), and never the smaller key
    otherwise (oldest, smallest first). *)
Theorem sorted_in_order key reversed item_list s sorted_list s' :
  py_sorted key reversed item_list s = (Ok sorted_list, s') →
  ∀ i j ri rj ki kj,
    i < j → sorted_list !! i = Some ri → sorted_list !! j = Some rj →
    field s key ri = Some ki → field s key rj = Some kj →
    if reversed then py_lt ki kj = Some false else py_lt kj ki = Some false.
Proof.
  unfold py_sorted. intros H.
  apply bind_ok_inv in H as (keys & s1 & Hkeys & H).
  apply comprehension_getitem_inv in Hkeys as [-> Hkeys]. cbv zeta in H.
  destruct (decorated _ _ _ _ Hkeys) as (Hl & Hk & Hok).
  set (D := zip keys item_list) in *.
  intros i j ri rj ki kj Hij Hi Hj Hki Hkj.
  destruct reversed.
  - destruct (stable_sort (reverse D)) as [X|] eqn:Hsort; [|done].
    injection H as <- <-. apply stable_sort_Some in Hsort as [-> Hkind].
    assert (sort_total (reverse D) ≡ₚ D) as Hperm
      by (by rewrite sort_total_perm, reverse_Permutation).
    rewrite list_lookup_fmap in Hi, Hj.
    destruct (reverse (sort_total (reverse D)) !! i) as [[ki' ri']|] eqn:Hi'; [|done].
    destruct (reverse (sort_total (reverse D)) !! j) as [[kj' rj']|] eqn:Hj'; [|done].
    simpl in Hi, Hj. injection Hi as ->. injection Hj as ->.
    assert (ki' = ki ∧ kj' = kj) as [-> ->].
    { rewrite <-Hperm, Forall_forall in Hok. split.
      - apply list_elem_of_lookup_2, elem_of_reverse, Hok in Hi'. simpl in Hi'. congruence.
      - apply list_elem_of_lookup_2, elem_of_reverse, Hok in Hj'. simpl in Hj'. congruence. }
    pose proof (lookup_lt_Some _ _ _ Hi') as Hli. pose proof (lookup_lt_Some _ _ _ Hj') as Hlj.
    rewrite length_reverse in Hli, Hlj.
    rewrite reverse_lookup in Hi', Hj' by done.
    assert (length (sort_total (reverse D)) - S j < length (sort_total (reverse D)) - S i)
      as Hji by lia.
    pose proof (StronglySorted_lookup _ _ _ _ _ _ (sort_total_sorted _ Hkind) Hji Hj' Hi') as Hle.
    unfold key_le in Hle. simpl in Hle. rewrite py_lt_same_kind; [by rewrite Hle|].
    apply (Hkind (ki, ri) (kj, rj)); rewrite <-sort_total_perm;
      by eapply list_elem_of_lookup_2.
  - destruct (stable_sort D) as [X|] eqn:Hsort; [|done].
    injection H as <- <-. apply stable_sort_Some in Hsort as [-> Hkind].
    rewrite list_lookup_fmap in Hi, Hj.
    destruct (sort_total D !! i) as [[ki' ri']|] eqn:Hi'; [|done].
    destruct (sort_total D !! j) as [[kj' rj']|] eqn:Hj'; [|done].
    simpl in Hi, Hj. injection Hi as ->. injection Hj as ->.
    assert (ki' = ki ∧ kj' = kj) as [-> ->].
    { rewrite <-(sort_total_perm D), Forall_forall in Hok. split.
      - apply list_elem_of_lookup_2, Hok in Hi'. simpl in Hi'. congruence.
      - apply list_elem_of_lookup_2, Hok in Hj'. simpl in Hj'. congruence. }
    pose proof (StronglySorted_lookup _ _ _ _ _ _ (sort_total_sorted _ Hkind) Hij Hi' Hj') as Hle.
    unfold key_le in Hle. simpl in Hle. rewrite py_lt_same_kind; [by rewrite Hle|].
    apply (Hkind (kj, rj) (ki, ri)); rewrite <-sort_total_perm;
      by eapply list_elem_of_lookup_2.
Qed.

Lemma sorted_in_order_witness :
  let s := (query_aggregator demo ["Alice"; "Bob"] ["linux"] start).2 in
  py_sorted "added" true [0; 1] s = (Ok [1; 0], s) ∧
  ∀ i j ri rj ki kj,
    i < j → [1; 0] !! i = Some ri → [1; 0] !! j = Some rj →
    field s "added" ri = Some ki → field s "added" rj = Some kj →
    py_lt ki kj = Some false.
Proof.
  split; [vm_compute; reflexivity|].
  apply (sorted_in_order "added" true [0; 1]
           (query_aggregator demo ["Alice"; "Bob"] ["linux"] start).2 [1; 0]
           (query_aggregator demo ["Alice"; "Bob"] ["linux"] start).2).
  vm_compute. reflexivity.
Defined.

(** ** The orderings on the records of a search *)

Lemma int_keys key l s :
  (∀ r, r ∈ l → int_field s key r) →
  ∃ keys, Forall2 (λ r k, field s key r = Some k) l keys ∧
          Forall (λ k, ∃ z, k = PInt z) keys.
Proof.
  induction l as [|r l IH]; intros H.
  - exists []. by split.
  - destruct IH as (keys & Hk & Hz); [intros ??; apply H; by right|].
    destruct (H r) as [z Hr]; [by left|].
    exists (PInt z :: keys). split; constructor; eauto.
Qed.

Lemma one_kind_int (D : list (pyval * nat)) :
  Forall (λ k, ∃ z, k = PInt z) D.*1 → one_kind D.
Proof.
  rewrite Forall_fmap, Forall_forall. intros H x y Hx Hy.
  destruct (H x Hx) as [a Ha], (H y Hy) as [b Hb]. simpl in *. by rewrite Ha, Hb.
Qed.

Lemma py_sorted_int_ok key reversed l s :
  (∀ r, r ∈ l → int_field s key r) →
  ∃ sorted_list, py_sorted key reversed l s = (Ok sorted_list, s).
Proof.
  intros (keys & Hkeys & Hint)%int_keys. unfold py_sorted.
  erewrite bind_ok by (by apply comprehension_getitem_ok). cbv zeta.
  destruct (decorated _ _ _ _ Hkeys) as (_ & Hk & _).
  assert (one_kind (zip keys l)) as Hkind by (apply one_kind_int; by rewrite Hk).
  destruct reversed.
  - rewrite stable_sort_total; [by eexists|].
    eapply one_kind_perm; [symmetry; apply reverse_Permutation|done].
  - rewrite stable_sort_total by done. by eexists.
Qed.

(** X8.  Every record that [search] hands to the liveness check has
    integers in [added], [seeders] and [size]; so on these records, or any
    of them, [sorted] by one of these keys succeeds in either direction,
    in the state of the hand-over and in every later state in which these
    fields are the same (such as after the probes have set [code]): the
    five orderings of [sorter] cannot fail on what [search] found. *)
Theorem found_records_can_be_sorted W usernames search_terms s unique_list s1 :
  pre_verification W usernames search_terms s = (Ok unique_list, s1) →
  (∀ r, r ∈ unique_list → numeric s1 r) ∧
  ∀ s' item_list key reversed,
    (∀ r k, k ∈ numeric_keys → field s' k r = field s1 k r) →
    item_list ⊆ unique_list → key ∈ numeric_keys →
    ∃ sorted_list, py_sorted key reversed item_list s' = (Ok sorted_list, s').
Proof.
  intros (s0 & dl & _ & _ & _ & Hq & Hd)%pre_verification_inv.
  apply query_aggregator_ok in Hq as (datas & sq & _ & _ & _ & _ & _ & _ & _ & Hnum).
  apply deduplicator_refs in Hd as [_ Hsub]; [|constructor].
  assert (∀ r, r ∈ unique_list → numeric s1 r) as Hul.
  { intros r Hr. destruct (Hsub r Hr) as [?%elem_of_nil|Hdl]; [done|]. by apply Hnum. }
  split; [done|].
  intros s' l key reversed Hsame Hl Hkey. apply py_sorted_int_ok.
  intros r Hr. destruct (Hul r (Hl r Hr)) as (Ha & Hs & Hz).
  unfold int_field. rewrite Hsame by done.
  unfold numeric_keys in Hkey.
  repeat (apply elem_of_cons in Hkey as [->|Hkey]; [done|]). by apply elem_of_nil in Hkey.
Qed.

Lemma found_records_can_be_sorted_witness :
  let run := pre_verification demo ["Alice"; "Bob"] ["linux"] start in
  run.1 = Ok [1; 0] ∧
  (∀ r, r ∈ [1; 0] → numeric run.2 r) ∧
  ∀ s' item_list key reversed,
    (∀ r k, k ∈ numeric_keys → field s' k r = field run.2 k r) →
    item_list ⊆ [1; 0] → key ∈ numeric_keys →
    ∃ sorted_list, py_sorted key reversed item_list s' = (Ok sorted_list, s').
Proof.
  split; [vm_compute; reflexivity|].
  apply (found_records_can_be_sorted demo ["Alice"; "Bob"] ["linux"] start [1; 0]
           (pre_verification demo ["Alice"; "Bob"] ["linux"] start).2).
  vm_compute. reflexivity.
Defined.

(** ** What the display asks for and what it leaves alone *)

Lemma keeps_store_bind {A B} (m : M A) (k : A → M B) :
  keeps_store m → (∀ a, keeps_store (k a)) → keeps_store (bind m k).
Proof.
  intros Hm Hk s r s'. unfold bind.
  destruct (m s) as [[a|e|] s1] eqn:H1; destruct (Hm _ _ _ H1) as (Hh & Hu & Hc).
  - intros (Hh' & Hu' & Hc')%Hk. split_and!; [congruence|congruence|lia].
  - by intros [= <- <-].
  - by intros [= <- <-].
Qed.

Lemma ticks_bind {A B} n n' (m : M A) (k : A → M B) :
  ticks n m → (∀ a, ticks n' (k a)) → ticks (n + n') (bind m k).
Proof.
  intros Hm Hk s b s' (a & s1 & H1 & H2)%bind_ok_inv.
  rewrite (Hk _ _ _ _ H2), (Hm _ _ _ H1). lia.
Qed.

Lemma keeps_store_ret {A} (a : A) : keeps_store (ret a).
Proof. by intros s r s' [= <- <-]. Qed.
Lemma keeps_store_raise {A} e : keeps_store (@raise A e).
Proof. by intros s r s' [= <- <-]. Qed.
Lemma keeps_store_print txt : keeps_store (print txt).
Proof. by intros s r s' [= <- <-]. Qed.
Lemma keeps_store_say l : keeps_store (say l).
Proof. by intros s r s' [= <- <-]. Qed.
Lemma keeps_store_getitem item key : keeps_store (getitem item key).
Proof. by intros s r s' ->%getitem_state. Qed.
Lemma keeps_store_as_int v : keeps_store (as_int v).
Proof. destruct v; [apply keeps_store_raise|apply keeps_store_ret]. Qed.
Lemma keeps_store_input W prompt : keeps_store (input W prompt).
Proof. intros s r s' [= <- <-]. cbn. split_and!; [done..|lia]. Qed.
Lemma keeps_store_description_request W url : keeps_store (description_request W url).
Proof.
  intros s r s'. unfold description_request.
  destruct (t_php W (clock s) url); intros [= <- <-]; cbn; split_and!; try done; lia.
Qed.

Lemma ticks_ret {A} (a : A) : ticks 0 (ret a).
Proof. intros s r s' [= <- <-]. lia. Qed.
Lemma ticks_raise {A} e : ticks 0 (@raise A e).
Proof. by intros s r s'. Qed.
Lemma ticks_print txt : ticks 0 (print txt).
Proof. intros s r s' [= <- <-]. cbn. lia. Qed.
Lemma ticks_say l : ticks 0 (say l).
Proof. intros s r s' [= <- <-]. cbn. lia. Qed.
Lemma ticks_getitem item key : ticks 0 (getitem item key).
Proof. intros s r s' ->%getitem_state. lia. Qed.
Lemma ticks_as_int v : ticks 0 (as_int v).
Proof. destruct v; [apply ticks_raise|apply ticks_ret]. Qed.
Lemma ticks_description_request W url : ticks 1 (description_request W url).
Proof.
  intros s r s'. unfold description_request.
  destruct (t_php W (clock s) url); intros [= <- <-]. cbn. lia.
Qed.

Lemma keeps_store_for_each {A} (l : list A) body :
  (∀ x, keeps_store (body x)) → keeps_store (for_each l body).
Proof.
  intros H. induction l; [apply keeps_store_ret|]. by apply keeps_store_bind.
Qed.

Lemma ticks_for_each {A} (l : list A) body :
  (∀ x, ticks 0 (body x)) → ticks 0 (for_each l body).
Proof.
  intros H. induction l; [apply ticks_ret|]. by apply (ticks_bind 0 0).
Qed.

Lemma keeps_store_for_enumerate {A} (l : list A) body : ∀ idx,
  (∀ i x, keeps_store (body i x)) → keeps_store (for_enumerate idx l body).
Proof.
  induction l; intros idx H; [apply keeps_store_ret|]. apply keeps_store_bind; auto.
Qed.

Lemma keeps_store_comprehension {A B} (f : A → M B) l :
  (∀ x, keeps_store (f x)) → keeps_store (comprehension f l).
Proof.
  intros H. induction l; [apply keeps_store_ret|]. simpl.
  apply keeps_store_bind; [done|]. intros b.
  apply keeps_store_bind; [done|]. intros bs. apply keeps_store_ret.
Qed.

Create HintDb frame.
#[local] Hint Resolve keeps_store_ret keeps_store_raise keeps_store_print keeps_store_say
  keeps_store_getitem keeps_store_as_int keeps_store_input
  keeps_store_description_request keeps_store_for_each keeps_store_comprehension
  ticks_ret ticks_raise ticks_print ticks_say ticks_getitem ticks_as_int
  ticks_description_request ticks_for_each : frame.

Ltac frame_binds :=
  repeat first
    [ apply keeps_store_bind; [auto with frame|intros ?]
    | apply (ticks_bind 0 0); [auto with frame|intros ?] ];
  auto with frame.

Lemma keeps_store_show_header W item : keeps_store (show_header W item).
Proof.
  unfold show_header. frame_binds.
  - destruct (true_divide_overflows _); auto with frame.
  - destruct (fromtimestamp W _); auto with frame.
  - intros s r s' [= <- <-]. cbn. split_and!; [done..|lia].
Qed.

Lemma ticks_show_header W item : ticks 0 (show_header W item).
Proof.
  unfold show_header. frame_binds.
  - destruct (true_divide_overflows _); auto with frame.
  - destruct (fromtimestamp W _); auto with frame.
  - intros s r s' [= <- <-]. cbn. lia.
Qed.

Lemma keeps_store_show_links W item : keeps_store (show_links W item).
Proof.
  unfold show_links. frame_binds.
  - destruct (_ !! "descr"); auto with frame.
  - match goal with |- keeps_store (match ?v with PStr _ => _ | PInt _ => _ end) =>
      destruct v end; auto with frame.
    apply keeps_store_for_each. intros line. destruct (py_contains _ _); auto with frame.
Qed.

Lemma ticks_show_links W item : ticks 1 (show_links W item).
Proof.
  unfold show_links.
  apply (ticks_bind 0 1); [auto with frame|intros id].
  apply (ticks_bind 1 0); [auto with frame|intros info_data].
  frame_binds.
  - destruct (_ !! "descr"); auto with frame.
  - match goal with |- ticks _ (match ?v with PStr _ => _ | PInt _ => _ end) =>
      destruct v end; auto with frame.
    apply ticks_for_each. intros line. destruct (py_contains _ _); auto with frame.
Qed.

Lemma keeps_store_show W idx item : keeps_store (show W idx item).
Proof.
  unfold show. apply keeps_store_bind; [apply keeps_store_show_header|intros _].
  case_decide; [apply keeps_store_show_links|apply keeps_store_ret].
Qed.

Lemma ticks_show W idx item :
  ticks (if decide (idx < MAX_RESULTS_WITH_LINKS) then 1 else 0) (show W idx item).
Proof.
  unfold show. apply (ticks_bind 0); [apply ticks_show_header|intros _].
  case_decide; [apply ticks_show_links|apply ticks_ret].
Qed.

Lemma display_requests W results : ∀ idx s s',
  for_enumerate idx results (show W) s = (Ok tt, s') →
  clock s' + min idx MAX_RESULTS_WITH_LINKS =
  clock s + min (idx + length results) MAX_RESULTS_WITH_LINKS.
Proof.
  induction results as [|item results IH]; intros idx s s'; simpl.
  - intros [= <-]. by rewrite Nat.add_0_r.
  - intros ([] & s1 & H1 & H2)%bind_ok_inv.
    apply ticks_show in H1. apply IH in H2. unfold MAX_RESULTS_WITH_LINKS in *.
    case_decide; lia.
Qed.

(** X9.  A display that goes through the whole list of [n] records calls
    the outside world [min n 100] times in all: the request to the
    description endpoint is the only call of the loop, and it is made for
    the records at the first 100 positions only.  The display leaves every
    record as it was. *)
Theorem links_for_first_hundred W results s s' :
  for_enumerate 0 results (show W) s = (Ok tt, s') →
  clock s' = clock s + min (length results) MAX_RESULTS_WITH_LINKS ∧
  heap s' = heap s.
Proof.
  intros H. split.
  - apply display_requests in H. simpl in H. lia.
  - by apply (keeps_store_for_enumerate results (show W) 0 (keeps_store_show W)) in H as (? & _).
Qed.

Lemma links_for_first_hundred_witness :
  let s := (query_aggregator demo ["Alice"; "Bob"] ["linux"] start).2 in
  let results := replicate 101 1 in
  let s' := (for_enumerate 0 results (show demo) s).2 in
  for_enumerate 0 results (show demo) s = (Ok tt, s') ∧
  clock s' = clock s + 100 ∧
  heap s' = heap s.
Proof.
  split; [vm_compute; reflexivity|].
  apply (links_for_first_hundred demo (replicate 101 1)
           (query_aggregator demo ["Alice"; "Bob"] ["linux"] start).2
           (for_enumerate 0 (replicate 101 1) (show demo)
              (query_aggregator demo ["Alice"; "Bob"] ["linux"] start).2).2).
  vm_compute. reflexivity.
Defined.

(** ** The address of the site *)

Lemma replace_keeps_https rest :
  py_replace "index.html" "" ("https://" +:+ rest) =
  "https://" +:+ py_replace "index.html" "" rest.
Proof. reflexivity. Qed.

Lemma startswith_https rest : startswith "https://" ("https://" +:+ rest) = true.
Proof. by destruct rest. Qed.

Lemma amended_url_https u : startswith "https://" (amended_url u) = true.
Proof.
  unfold amended_url.
  destruct (startswith "https://" u) eqn:Hs; cbn [negb].
  - destruct (startswith_app _ _ Hs) as [rest ->].
    destruct (endswith _ _); [|done]. rewrite replace_keeps_https. apply startswith_https.
  - destruct (endswith _ _); [|apply startswith_https].
    rewrite replace_keeps_https. apply startswith_https.
Qed.

Lemma fresh_url_amended u :
  fresh_url u = amended_url (if startswith "www." u then py_replace "www." "" u else u).
Proof. reflexivity. Qed.

Lemma fresh_url_https u : startswith "https://" (fresh_url u) = true.
Proof. rewrite fresh_url_amended. apply amended_url_https. Qed.

(** X10.  The address kept from a line the user enters always starts with
    [https://], in a fresh start and when the address is changed.  An
    address that already starts with [https://] and does not end in
    [index.html] is kept as it is, and in a fresh start a leading [www.]
    in front of an address without any other [www.] makes no difference. *)
Theorem entered_url_is_https u :
  startswith "https://" (fresh_url u) = true ∧
  startswith "https://" (amended_url u) = true ∧
  (startswith "https://" u = true → endswith "index.html" u = false →
   fresh_url u = u ∧ amended_url u = u) ∧
  (py_replace "www." "" u = u → fresh_url ("www." +:+ u) = fresh_url u).
Proof.
  split_and!.
  - apply fresh_url_https.
  - apply amended_url_https.
  - intros Hs He.
    assert (amended_url u = u) as Ha.
    { unfold amended_url. rewrite Hs. cbn [negb]. cbv zeta. by rewrite He. }
    split; [|done]. rewrite fresh_url_amended.
    destruct (startswith_app _ _ Hs) as [rest ->].
    by change (startswith "www." ("https://" +:+ rest)) with false.
  - intros Hw. rewrite !fresh_url_amended. f_equal.
    assert (startswith "www." ("www." +:+ u) = true) as -> by (by destruct u).
    assert (py_replace "www." "" ("www." +:+ u) = py_replace "www." "" u) as ->
      by (by destruct u).
    rewrite Hw. by destruct (startswith "www." u).
Qed.

(** ** [proxy_checker] *)

(** X11.  [proxy_checker] in a fresh start never touches the records.  When
    it returns, [PIRATE_URL] is the address made from one of the lines the
    user pasted during the call, it starts with [https://], and a request
    for it was answered with an ok response during the call.  An exception
    of [requests.get] that is not a [RequestException] is not caught: when
    the request for the first pasted line raises one, the call ends with
    it, and [PIRATE_URL] is left holding the address made from that line. *)
Theorem proxy_checker_fresh_returns W site fuel s r s' :
  proxy_checker_fresh W site fuel s = (r, s') →
  heap s' = heap s ∧
  (r = Ok tt →
   (∃ t, clock s ≤ t < clock s' ∧ PIRATE_URL s' = fresh_url (stdin W t)) ∧
   answered_ok site s s' (PIRATE_URL s') ∧
   startswith "https://" (PIRATE_URL s') = true) ∧
  (∀ e, fuel ≠ 0 →
        site (S (clock s)) (fresh_url (stdin W (clock s))) = Uncaught e →
        r = Raise e ∧ PIRATE_URL s' = fresh_url (stdin W (clock s))).
Proof.
  unfold answered_ok. revert s. induction fuel as [|fuel IH]; intros s H.
  - injection H as <- <-. done.
  - cbn [proxy_checker_fresh] in H. unfold bind, input, set_PIRATE_URL, request in H.
    cbn [clock heap out PIRATE_URL tick emit] in H.
    set (url := fresh_url (stdin W (clock s))) in *.
    destruct (site (S (clock s)) url) as [[|]| |e0] eqn:Hsite.
    + injection H as <- <-. cbn [heap clock PIRATE_URL tick]. split_and!; try done.
      intros _. split_and!.
      * exists (clock s). split; [lia|done].
      * exists (S (clock s)). cbn [clock tick]. split; [lia|done].
      * apply fresh_url_https.
    + apply IH in H as (Hh & Hok & _). cbn [heap clock tick] in *. split_and!; try done.
      intros ->. destruct (Hok eq_refl) as ((t & Ht & Hu) & (t' & Ht' & Hs') & Hp).
      split_and!; [exists t|exists t'|done]; (split; [lia|done]).
    + unfold print in H. apply IH in H as (Hh & Hok & _).
      cbn [heap clock tick emit] in *. split_and!; try done.
      intros ->. destruct (Hok eq_refl) as ((t & Ht & Hu) & (t' & Ht' & Hs') & Hp).
      split_and!; [exists t|exists t'|done]; (split; [lia|done]).
    + unfold raise in H. injection H as <- <-. cbn [heap clock PIRATE_URL tick].
      split_and!; try done. by intros e _ [= ->].
Qed.

Lemma proxy_checker_fresh_returns_witness :
  let s' := (proxy_checker_fresh pastes_twice one_mirror 3 start).2 in
  proxy_checker_fresh pastes_twice one_mirror 3 start = (Ok tt, s') ∧
  PIRATE_URL s' = "https://tpb.example/" ∧
  heap s' = heap start ∧
  (Ok tt = Ok tt →
   (∃ t, clock start ≤ t < clock s' ∧ PIRATE_URL s' = fresh_url (stdin pastes_twice t)) ∧
   answered_ok one_mirror start s' (PIRATE_URL s') ∧
   startswith "https://" (PIRATE_URL s') = true) ∧
  (∀ e, 3 ≠ 0 →
        one_mirror (S (clock start)) (fresh_url (stdin pastes_twice (clock start)))
          = Uncaught e →
        Ok tt = Raise e ∧
        PIRATE_URL s' = fresh_url (stdin pastes_twice (clock start))).
Proof.
  split; [vm_compute; reflexivity|].
  split; [vm_compute; reflexivity|].
  apply (proxy_checker_fresh_returns pastes_twice one_mirror 3 start (Ok tt)
           (proxy_checker_fresh pastes_twice one_mirror 3 start).2).
  vm_compute. reflexivity.
Defined.

(** A host that cannot be parsed ends the call at once, with the exception
    of [requests.get] and the address in [PIRATE_URL]. *)
Lemma proxy_checker_fresh_bad_host :
  proxy_checker_fresh pastes_bad_host one_mirror 3 start =
  (Raise ValueError, mkState [] 2 [Ask paste_prompt] "https://x..y").
Proof. vm_compute. reflexivity. Qed.

Lemma new_url_loop_returns W site fuel : ∀ s r s',
  new_url_loop W site fuel s = (r, s') →
  heap s' = heap s ∧ clock s ≤ clock s' ∧
  (r = Ok tt →
   (∃ t, clock s ≤ t < clock s' ∧ site t (PIRATE_URL s') = Answered true) ∧
   startswith "https://" (PIRATE_URL s') = true).
Proof.
  induction fuel as [|fuel IH]; intros s r s' H.
  - injection H as <- <-. done.
  - cbn [new_url_loop] in H. unfold bind, input, request in H.
    cbn [clock heap out PIRATE_URL tick emit] in H.
    set (url := amended_url (stdin W (clock s))) in *.
    destruct (site (S (clock s)) url) as [[|]| |e0] eqn:Hsite.
    + unfold print, set_PIRATE_URL in H. injection H as <- <-.
      cbn [heap clock PIRATE_URL tick emit]. split_and!; try done; [lia|].
      intros _. split; [|apply amended_url_https].
      exists (S (clock s)). split; [lia|done].
    + apply IH in H as (Hh & Hc & Hok). cbn [heap clock tick emit] in *.
      split_and!; try done; [lia|].
      intros ->. destruct (Hok eq_refl) as ((t & Ht & Hs') & Hp).
      split; [|done]. exists t. split; [lia|done].
    + unfold print in H. apply IH in H as (Hh & Hc & Hok).
      cbn [heap clock tick emit] in *. split_and!; try done; [lia|].
      intros ->. destruct (Hok eq_refl) as ((t & Ht & Hs') & Hp).
      split; [|done]. exists t. split; [lia|done].
    + unfold raise in H. injection H as <- <-. cbn [heap clock tick emit].
      split_and!; try done. lia.
Qed.

Lemma ask_change_returns W fuel : ∀ s r s',
  ask_change W fuel s = (r, s') →
  heap s' = heap s ∧ clock s ≤ clock s' ∧ PIRATE_URL s' = PIRATE_URL s.
Proof.
  induction fuel as [|fuel IH]; intros s r s' H.
  - injection H as <- <-. done.
  - cbn [ask_change] in H. unfold bind, input in H.
    repeat case_decide.
    + injection H as <- <-. cbn. split_and!; try done. lia.
    + injection H as <- <-. cbn. split_and!; try done. lia.
    + unfold print in H. apply IH in H as (Hh & Hc & Hu).
      cbn [heap clock tick emit PIRATE_URL] in *. split_and!; try done. lia.
Qed.

(** X12.  [proxy_checker] in an amendment never touches the records.  When
    it returns, a request for [PIRATE_URL] was answered with an ok response
    during the call, and [PIRATE_URL] is either the address it was before
    or a new one that starts with [https://].  An exception of
    [requests.get] that is not a [RequestException] is not caught: when the
    request for the stored address raises one, the call ends with it and
    [PIRATE_URL] is as it was. *)
Theorem proxy_checker_amend_returns W site fuel s r s' :
  proxy_checker_amend W site fuel s = (r, s') →
  heap s' = heap s ∧
  (r = Ok tt →
   answered_ok site s s' (PIRATE_URL s') ∧
   (PIRATE_URL s' = PIRATE_URL s ∨ startswith "https://" (PIRATE_URL s') = true)) ∧
  (∀ e, site (clock s) (PIRATE_URL s) = Uncaught e →
        r = Raise e ∧ PIRATE_URL s' = PIRATE_URL s).
Proof.
  unfold answered_ok, proxy_checker_amend, bind, get_PIRATE_URL, request.
  destruct (site (clock s) (PIRATE_URL s)) as [[|]| |e0] eqn:Hsite.
  - unfold print. destruct (ask_change W fuel _) as [[change|e1|] s1] eqn:Hask;
      apply ask_change_returns in Hask as (Hh & Hc & Hu);
      cbn [heap clock tick emit PIRATE_URL] in *.
    + case_decide.
      * intros [= <- <-]. split_and!; try done. intros _. split; [|by left].
        exists (clock s). rewrite Hu. split; [lia|done].
      * intros (Hh' & Hc' & Hok)%new_url_loop_returns.
        split_and!; [congruence| |done].
        intros ->. destruct (Hok eq_refl) as ((t & Ht & Hs') & Hp).
        split; [|by right]. exists t. split; [lia|done].
    + intros [= <- <-]. done.
    + intros [= <- <-]. done.
  - intros (Hh' & Hc' & Hok)%new_url_loop_returns.
    cbn [heap clock tick] in *. split_and!; try done.
    intros ->. destruct (Hok eq_refl) as ((t & Ht & Hs') & Hp).
    split; [|by right]. exists t. split; [lia|done].
  - unfold print. intros (Hh' & Hc' & Hok)%new_url_loop_returns.
    cbn [heap clock tick emit] in *. split_and!; try done.
    intros ->. destruct (Hok eq_refl) as ((t & Ht & Hs') & Hp).
    split; [|by right]. exists t. split; [lia|done].
  - unfold raise. intros [= <- <-]. cbn [heap clock tick PIRATE_URL].
    split_and!; try done. by intros e [= ->].
Qed.

Lemma proxy_checker_amend_returns_witness :
  let s' := (proxy_checker_amend pastes_twice one_mirror 3 start).2 in
  proxy_checker_amend pastes_twice one_mirror 3 start = (Ok tt, s') ∧
  PIRATE_URL s' = "https://tpb.example/" ∧
  heap s' = heap start ∧
  (Ok tt = Ok tt →
   answered_ok one_mirror start s' (PIRATE_URL s') ∧
   (PIRATE_URL s' = PIRATE_URL start ∨ startswith "https://" (PIRATE_URL s') = true)) ∧
  (∀ e, one_mirror (clock start) (PIRATE_URL start) = Uncaught e →
        Ok tt = Raise e ∧ PIRATE_URL s' = PIRATE_URL start).
Proof.
  split; [vm_compute; reflexivity|].
  split; [vm_compute; reflexivity|].
  apply (proxy_checker_amend_returns pastes_twice one_mirror 3 start (Ok tt)
           (proxy_checker_amend pastes_twice one_mirror 3 start).2).
  vm_compute. reflexivity.
Defined.

(** ** The requests of the accumulation *)

Lemma for_terms_clock W usernames search_terms : ∀ acc s r s',
  for_terms W search_terms usernames acc s = (r, s') →
  clock s' ≤ clock s + length search_terms ∧ PIRATE_URL s' = PIRATE_URL s ∧
  out s' = out s ∧
  (∀ c, r = Ok c → clock s' = clock s + length search_terms).
Proof.
  induction search_terms as [|term rest IH]; intros acc s r s'.
  - intros [= <- <-]. simpl. split_and!; [lia|done|done|]. intros _ _. lia.
  - rewrite for_terms_cons. destruct (q_php W (clock s) term) as [data|].
    2:{ intros [= <- <-]. simpl. split_and!; [lia|done|done|done]. }
    cbv zeta. set (s1 := tick (set_heap (heap s ++ data) s)).
    assert (∀ acc1, for_terms W rest usernames acc1 s1 = (r, s') →
      clock s' ≤ clock s + length (term :: rest) ∧ PIRATE_URL s' = PIRATE_URL s ∧
      out s' = out s ∧
      (∀ c, r = Ok c → clock s' = clock s + length (term :: rest))) as Hrest.
    { intros acc1 (Hc & Hu & Ho & Hok)%IH. simpl in *. split_and!; [lia|done|done|].
      intros c Hr. rewrite (Hok c Hr). lia. }
    destruct usernames as [|user us]; [apply Hrest|].
    destruct (first_error s1 "username" _); [|apply Hrest].
    intros [= <- <-]. simpl. split_and!; [lia|done|done|done].
Qed.

(** X13.  Whatever its outcome, the part of [search] that comes before the
    liveness check makes at most one call to the search endpoint per term,
    and exactly one per term when it returns a list: the number of
    identities does not multiply the requests.  It prints nothing but its
    first messages and leaves [PIRATE_URL] alone. *)
Theorem one_query_per_term W usernames search_terms s r s1 :
  pre_verification W usernames search_terms s = (r, s1) →
  clock s1 ≤ clock s + length search_terms ∧
  (∀ unique_list, r = Ok unique_list → clock s1 = clock s + length search_terms) ∧
  PIRATE_URL s1 = PIRATE_URL s ∧
  out s1 = out s ++ banner search_terms.
Proof.
  unfold pre_verification. rewrite bind_run. unfold print at 1. cbv iota beta.
  rewrite bind_run.
  set (s0 := mkState (heap s) (clock s) (out s ++ banner search_terms) (PIRATE_URL s)).
  assert ((if decide (50 < length search_terms)
           then print ("This may take a moment if using many search terms." +:+ LF)
           else ret tt)
            (emit (Say (LF +:+ "Searching...please wait a moment." +:+ LF)) s)
          = (Ok tt, s0)) as ->.
  { unfold s0, banner, print, emit, ret. destruct (decide _); cbn [heap clock out PIRATE_URL];
      by rewrite <-?app_assoc. }
  rewrite bind_run. unfold query_aggregator. rewrite bind_run.
  destruct (for_terms W search_terms usernames [] s0) as [[c|e|] sa] eqn:Hterms;
    apply for_terms_clock in Hterms as (Hc & Hu & Ho & Hok);
    unfold s0 in Hc, Hu, Ho, Hok; cbn [clock PIRATE_URL out] in *.
  - specialize (Hok c eq_refl). cbv zeta. rewrite bind_run.
    destruct (for_each _ (convert W) sa) as [[[]|e|] sb] eqn:Hconv;
      apply for_each_convert_modifies in Hconv as (Hcb & Hob & Hub & _).
    + unfold ret at 1. intros ->%deduplicator_state.
      split_and!; [lia| |congruence|congruence]. intros _ _. lia.
    + intros [= <- <-]. split_and!; [lia|done|congruence|congruence].
    + intros [= <- <-]. split_and!; [lia|done|congruence|congruence].
  - intros [= <- <-]. done.
  - intros [= <- <-]. done.
Qed.

Lemma one_query_per_term_witness :
  let run := pre_verification demo ["Alice"; "Bob"; "Carol"] ["linux"; "bsd"] start in
  run.1 = Ok [1; 0] ∧
  clock run.2 ≤ clock start + length ["linux"; "bsd"] ∧
  (∀ unique_list, run.1 = Ok unique_list →
                  clock run.2 = clock start + length ["linux"; "bsd"]) ∧
  PIRATE_URL run.2 = PIRATE_URL start ∧
  out run.2 = out start ++ banner ["linux"; "bsd"].
Proof.
  split; [vm_compute; reflexivity|].
  apply (one_query_per_term demo ["Alice"; "Bob"; "Carol"] ["linux"; "bsd"] start
           (pre_verification demo ["Alice"; "Bob"; "Carol"] ["linux"; "bsd"] start).1
           (pre_verification demo ["Alice"; "Bob"; "Carol"] ["linux"; "bsd"] start).2).
  vm_compute. reflexivity.
Defined.
